(** * Token location engine of protolint-vscode: [src/protobuf-parser.ts]

    A shallow embedding of the range-exclusion utility, the line match
    search, the comment scanner and the token map of the parser, together
    with the properties established about them.

    Conventions of the embedding:
    - character offsets and line numbers are [nat] (the editor API refuses
      negative ones), the match limit is a [Z];
    - a JavaScript string is a [string]; offsets count its characters;
    - [TResult] is the tagged union [{result: 'success', value} |
      {result: 'error', error}];
    - a function that mutates an argument or the session returns the new
      value of what it mutates next to its result. *)

From stdpp Require Import base numbers list sorting gmap strings.
From Stdlib Require Import Ascii.

Local Open Scope nat_scope.

(** ** The editor API used by the parser *)

(** [vscode.Position]: a zero-based line and character. *)
Record Position := mkPosition { line : nat; character : nat }.

(** [Position.isBefore]. *)
Definition isBefore (p other : Position) : bool :=
  if line p <? line other then true
  else if line other <? line p then false
  else character p <? character other.

(** [vscode.Range]: an ordered pair of positions.  [end] is a reserved word,
    hence [end_]. *)
Record Range := mkRange { start : Position; end_ : Position }.

(** [new Range(start, end)]: the constructor swaps its arguments when the
    first one is not before the second. *)
Definition newRange (a b : Position) : Range :=
  if isBefore a b then mkRange a b else mkRange b a.

(** [new Range(startLine, startCharacter, endLine, endCharacter)]. *)
Definition newRange4 (sl sc el ec : nat) : Range :=
  newRange (mkPosition sl sc) (mkPosition el ec).

(** Every [Range] built by the API has [start] not after [end]. *)
Definition Range_wf (r : Range) : Prop := isBefore (end_ r) (start r) = false.

(** [Range.contains(position)] and [Range.contains(range)]. *)
Definition containsPosition (r : Range) (p : Position) : bool :=
  if isBefore p (start r) then false
  else if isBefore (end_ r) p then false
  else true.

Definition contains (r other : Range) : bool :=
  containsPosition r (start other) && containsPosition r (end_ other).

(** [position.with({ character })]. *)
Definition withCharacter (p : Position) (c : nat) : Position :=
  mkPosition (line p) c.

(** [range.with({ start })] and [range.with({ end, start })]. *)
Definition withStart (r : Range) (s : Position) : Range := newRange s (end_ r).
Definition withStartEnd (r : Range) (s e : Position) : Range := newRange s e.

(** [vscode.TextLine]: the line number and the text; the range of a line is
    derived, it runs from character 0 to the length of the text. *)
Record TextLine := mkTextLine { lineNumber : nat; text : string }.

Definition lineRange (l : TextLine) : Range :=
  mkRange (mkPosition (lineNumber l) 0)
          (mkPosition (lineNumber l) (String.length (text l))).

(** ** Results *)

Inductive TResult (V E : Type) : Type :=
| success (value : V)
| error (err : E).
Arguments success {V E} value.
Arguments error {V E} err.

Inductive ExcludeLineRangesErrorCode := RangeBeyondLine | RangeIntersection.

Inductive LookupErrorCode :=
| InvalidExcludeRanges
| LineNumber
| NotFound
| NotImplemented
| UnexpectedCommentOpen
| UnexpectedEnumValueName
| UnexpectedFieldType
| UnexpectedGroup.

Global Instance LookupErrorCode_eq_dec : EqDecision LookupErrorCode.
Proof. solve_decision. Defined.

(** ** Matches and tokens *)

Record IMatchRange := mkMatchRange { fullMatch : string; range : Range }.

(** [ITokenRange extends IMatchRange]: the match and the [closed] flag. *)
Record ITokenRange := mkTokenRange { matched :> IMatchRange; closed : bool }.

(** [{ ...match, closed: c }]. *)
Definition tokenOf (m : IMatchRange) (c : bool) : ITokenRange :=
  mkTokenRange (mkMatchRange (fullMatch m) (range m)) c.

Definition startCharacter (t : ITokenRange) : nat := character (start (range t)).
Definition endCharacter (t : ITokenRange) : nat := character (end_ (range t)).

(** ** [Array.prototype.sort] with a comparator

    The sort of the language is stable: elements the comparator does not
    separate keep their order.  Insertion from the right, placing an element
    before the first one it does not exceed, computes that array. *)
Section ArraySort.
Context {A : Type} (compareFn : A -> A -> Z).

Fixpoint sortInsert (x : A) (l : list A) : list A :=
  match l with
  | [] => [x]
  | y :: l' =>
      if (compareFn x y <=? 0)%Z then x :: y :: l' else y :: sortInsert x l'
  end.

Definition sort (l : list A) : list A := foldr sortInsert [] l.
End ArraySort.

(** A comparator that subtracts keys, and the order it sorts into. *)
Definition byKey {A : Type} (key : A -> nat) (a b : A) : Z :=
  (Z.of_nat (key a) - Z.of_nat (key b))%Z.
Definition keyLe {A : Type} (key : A -> nat) (a b : A) : Prop := key a <= key b.

(** ** Range exclusion: [excludeLineRanges] *)

(** The comparator [(a, b) => a.range.start.character - b.range.start.character]. *)
Definition byStartCharacter (a b : ITokenRange) : Z :=
  (Z.of_nat (startCharacter a) - Z.of_nat (startCharacter b))%Z.

(** The array [edges]: the start of the line, the two ends of every excluded
    range, the end of the line. *)
Definition lineEdges (lr : Range) (excludedRanges : list ITokenRange) : list nat :=
  character (start lr)
    :: (excludedRanges ≫= λ t : ITokenRange, [startCharacter t; endCharacter t])
    ++ [character (end_ lr)].

(** The loop [for (index = 0; index < edges.length; index += 2)].  The array
    has an even length (lemma [lineEdges_even]), so the loop never reads past
    its end and the one-element case is not reached. *)
Fixpoint edgesLoop (ln : nat) (edges : list nat) (value : list Range)
  : TResult (list Range) ExcludeLineRangesErrorCode :=
  match edges with
  | a :: b :: rest =>
      if b <? a then error RangeIntersection
      else edgesLoop ln rest
             (if a =? b then value else value ++ [newRange4 ln a ln b])
  | _ => success value
  end.

(** The function returns its result and the array [excludedRanges] as the
    call leaves it: [sort] works in place on the caller's array. *)
Definition excludeLineRanges (l : TextLine) (excludedRanges : list ITokenRange)
  : list ITokenRange * TResult (list Range) ExcludeLineRangesErrorCode :=
  if negb (forallb (λ t : ITokenRange, contains (lineRange l) (range t)) excludedRanges)
  then (excludedRanges, error RangeBeyondLine)
  else
    let sorted := sort byStartCharacter excludedRanges in
    (sorted, edgesLoop (lineNumber l) (lineEdges (lineRange l) sorted) []).

(** ** Regular expressions

    The parser hands its patterns to [new RegExp(pattern)].  A pattern is
    modelled by its syntax tree, for the part of the pattern language the
    constants of the parser are written in: characters, character classes,
    sequence, alternation, the greedy star and the two line assertions.
    [r?] is [Alt r Empty], [r+] is [Seq r (Star r)], [(?:r)] is [r]. *)

Inductive ClassItem :=
| CChar (c : ascii)
| CRange (lo hi : ascii)
| CWord.

Inductive RegExp :=
| Empty
| Char (c : ascii)
| Class (negated : bool) (items : list ClassItem)
| Seq (r1 r2 : RegExp)
| Alt (r1 r2 : RegExp)
| Star (r : RegExp)
| Bol
| Eol.

Definition Opt (r : RegExp) : RegExp := Alt r Empty.

(** The pattern that matches the characters of [w] one after the other. *)
Fixpoint lit (w : string) : RegExp :=
  match w with
  | EmptyString => Empty
  | String c w' => Seq (Char c) (lit w')
  end.

(** The class [\w]. *)
Definition isWordChar (c : ascii) : bool :=
  (Ascii.leb "a" c && Ascii.leb c "z") || (Ascii.leb "A" c && Ascii.leb c "Z")
  || (Ascii.leb "0" c && Ascii.leb c "9") || Ascii.eqb c "_".

Definition inItem (c : ascii) (it : ClassItem) : bool :=
  match it with
  | CChar c' => Ascii.eqb c c'
  | CRange lo hi => Ascii.leb lo c && Ascii.leb c hi
  | CWord => isWordChar c
  end.

Definition inClass (negated : bool) (items : list ClassItem) (c : ascii) : bool :=
  xorb negated (existsb (inItem c) items).

(** The backtracking matcher of the language specification: [matcher r s i k]
    matches [r] at offset [i] of [s] and hands the offset it reaches to the
    continuation [k]; the result is the offset where the whole match ends.
    Alternatives are tried left to right, the star is greedy and refuses an
    iteration that consumes nothing. *)
Definition Continuation := nat -> option nat.

(** [RepeatMatcher]: [m] matches one iteration.  Every iteration consumes a
    character, so [S (length s - i)] rounds of fuel are never used up
    (lemma [repeatMatcher_fuel]). *)
Fixpoint repeatMatcher (m : nat -> Continuation -> option nat) (k : Continuation)
    (fuel i : nat) : option nat :=
  match fuel with
  | 0 => k i
  | S fuel' =>
      match m i (λ j, if i <? j then repeatMatcher m k fuel' j else None) with
      | Some e => Some e
      | None => k i
      end
  end.

Fixpoint matcher (r : RegExp) (s : list ascii) (i : nat) (k : Continuation)
  : option nat :=
  match r with
  | Empty => k i
  | Char c =>
      match s !! i with
      | Some c' => if Ascii.eqb c c' then k (S i) else None
      | None => None
      end
  | Class negated items =>
      match s !! i with
      | Some c' => if inClass negated items c' then k (S i) else None
      | None => None
      end
  | Seq r1 r2 => matcher r1 s i (λ j, matcher r2 s j k)
  | Alt r1 r2 =>
      match matcher r1 s i k with
      | Some e => Some e
      | None => matcher r2 s i k
      end
  | Star r' => repeatMatcher (matcher r' s) k (S (length s - i)) i
  | Bol => if i =? 0 then k i else None
  | Eol => if i =? length s then k i else None
  end.

(** The search of [RegExpBuiltinExec]: the first offset from [i] on, over
    [fuel] further offsets, where the pattern matches; the result is the
    start and the end of the match. *)
Fixpoint searchFrom (r : RegExp) (s : list ascii) (i fuel : nat) : option (nat * nat) :=
  match matcher r s i Some with
  | Some e => Some (i, e)
  | None =>
      match fuel with
      | 0 => None
      | S fuel' => searchFrom r s (S i) fuel'
      end
  end.

(** [regexp.exec(s)] for a pattern with the [g] flag and the given
    [lastIndex]: no match when [lastIndex] is past the end of [s]. *)
Definition exec (r : RegExp) (s : list ascii) (lastIndex : nat) : option (nat * nat) :=
  if length s <? lastIndex then None
  else searchFrom r s lastIndex (length s - lastIndex).

(** The characters of a string. *)
Definition chars (s : string) : list ascii := String.list_ascii_of_string s.

(** [new RegExp(pattern).test(s)], without the [g] flag: a search from 0. *)
Definition test (r : RegExp) (s : string) : bool :=
  bool_decide (is_Some (exec r (chars s) 0)).

(** [s.matchAll(regexp)]: [exec] over and over; after an empty match the
    search resumes one character further.  The offset grows with every
    match, so [S (S (length s))] rounds are never used up
    (lemma [matchAllFrom_fuel]). *)
Fixpoint matchAllFrom (r : RegExp) (s : list ascii) (lastIndex fuel : nat)
  : list (nat * nat) :=
  match fuel with
  | 0 => []
  | S fuel' =>
      match exec r s lastIndex with
      | None => []
      | Some (i, e) =>
          (i, e) :: matchAllFrom r s (if e =? i then S e else e) fuel'
      end
  end.

Definition matchAll (r : RegExp) (s : list ascii) (lastIndex : nat) : list (nat * nat) :=
  matchAllFrom r s lastIndex (S (S (length s))).

(** ** The patterns of the parser *)

(** [\/\/|\/\*] *)
Definition COMMENT_OPEN : RegExp := Alt (lit "//") (lit "/*").
(** [\*\/] *)
Definition COMMENT_CLOSE : RegExp := lit "*/".
(** [[a-zA-Z_]\w*] *)
Definition IDENTIFIER : RegExp :=
  Seq (Class false [CRange "a" "z"; CRange "A" "Z"; CChar "_"])
      (Star (Class false [CWord])).
(** [IDENTIFIER(?:\.IDENTIFIER)*] *)
Definition QUALIFIED_IDENTIFIER : RegExp :=
  Seq IDENTIFIER (Star (Seq (Char ".") IDENTIFIER)).
(** [\.?IDENTIFIER(?:\.IDENTIFIER)*] *)
Definition FIELD_TYPE : RegExp :=
  Seq (Opt (Char ".")) (Seq IDENTIFIER (Star (Seq (Char ".") IDENTIFIER))).
Definition REQUIRED : RegExp := lit "required".
(** [required|optional|repeated] *)
Definition FIELD_CARDINALITY : RegExp :=
  Alt REQUIRED (Alt (lit "optional") (lit "repeated")).
(** [^group|message|enum|oneof|reserved|extensions|extend|option|required|optional|repeated] *)
Definition FIELD_DECLARATION_EXCEPTIONS : RegExp :=
  Alt (Seq Bol (lit "group"))
  (Alt (lit "message")
  (Alt (lit "enum")
  (Alt (lit "oneof")
  (Alt (lit "reserved")
  (Alt (lit "extensions")
  (Alt (lit "extend")
  (Alt (lit "option") FIELD_CARDINALITY))))))).
Definition MESSAGE : RegExp := lit "message".
Definition ENUM : RegExp := lit "enum".
(** [^(?:option|reserved)] *)
Definition ENUM_VALUE_NAME_EXCEPTIONS : RegExp :=
  Seq Bol (Alt (lit "option") (lit "reserved")).
Definition PACKAGE : RegExp := lit "package".
Definition RPC : RegExp := lit "rpc".
Definition SERVICE : RegExp := lit "service".

(** ** Line match search: [matchRanges] *)

(** The match of [line] between the offsets [i] and [e]. *)
Definition matchAt (line : TextLine) (i e : nat) : IMatchRange :=
  mkMatchRange
    (String.substring i (e - i) (text line))
    (withStartEnd (lineRange line)
       (withCharacter (start (lineRange line)) i)
       (withCharacter (end_ (lineRange line)) e)).

(** The body of the [for ... of] loop: with a limit of 0 the test
    [limit && ...] stops at [limit] and the match is not pushed. *)
Fixpoint pushMatches (limit : Z) (found : list IMatchRange) (matches : list IMatchRange)
  : list IMatchRange :=
  match found with
  | [] => matches
  | m :: found' =>
      if (limit =? 0)%Z then pushMatches limit found' matches
      else
        let matches' := matches ++ [m] in
        if (Z.of_nat (length matches') >=? limit)%Z then matches'
        else pushMatches limit found' matches'
  end.

(** The limit is an integer here ([Math.floor] changes nothing); the
    callers pass 1 and 2.  [text.slice(0, n)] is [take n]. *)
Definition matchRanges (line : TextLine) (seekRange : Range) (pattern : RegExp)
    (lastIndex : nat) (limit : Z) : list IMatchRange :=
  let regexpLastIndex := Nat.max (character (start seekRange)) lastIndex in
  let limit := if (limit <? 0)%Z then 0%Z else limit in
  let sliced := take (character (end_ seekRange)) (chars (text line)) in
  pushMatches limit
    ((λ '(i, e), matchAt line i e) <$> matchAll pattern sliced regexpLastIndex)
    [].

(** ** Token kinds and the token map *)

Inductive TokenKind :=
| Comment
| Enum
| EnumName
| EnumValueName
| FieldCardinality
| FieldName
| FieldType
| Message
| MessageName
| Package
| PackageName
| Required
| Rpc
| RpcName
| Service
| ServiceName.

Global Instance TokenKind_eq_dec : EqDecision TokenKind.
Proof. solve_decision. Defined.

Definition TokenKind_to_nat (k : TokenKind) : nat :=
  match k with
  | Comment => 0 | Enum => 1 | EnumName => 2 | EnumValueName => 3
  | FieldCardinality => 4 | FieldName => 5 | FieldType => 6 | Message => 7
  | MessageName => 8 | Package => 9 | PackageName => 10 | Required => 11
  | Rpc => 12 | RpcName => 13 | Service => 14 | ServiceName => 15
  end.

Definition TokenKind_of_nat (n : nat) : TokenKind :=
  match n with
  | 0 => Comment | 1 => Enum | 2 => EnumName | 3 => EnumValueName
  | 4 => FieldCardinality | 5 => FieldName | 6 => FieldType | 7 => Message
  | 8 => MessageName | 9 => Package | 10 => PackageName | 11 => Required
  | 12 => Rpc | 13 => RpcName | 14 => Service | _ => ServiceName
  end.

Global Instance TokenKind_countable : Countable TokenKind.
Proof.
  refine (inj_countable' TokenKind_to_nat TokenKind_of_nat _). by intros [].
Defined.

(** [TTokenMap = Map<TokenKind, ITokenRange[]>]. *)
Abbreviation TTokenMap := (gmap TokenKind (list ITokenRange)).

(** [vscode.TextDocument]: the texts of its lines.  [lineAt] throws when the
    line number is not below [lineCount]; [getText] is used by the parser on
    ranges inside one line only and gives the text the line holds there. *)
Definition TextDocument := list string.

Definition lineCount (doc : TextDocument) : nat := length doc.

Definition lineAt (doc : TextDocument) (n : nat) : option TextLine :=
  mkTextLine n <$> doc !! n.

Definition getText (doc : TextDocument) (r : Range) : string :=
  if line (start r) =? line (end_ r) then
    match doc !! line (start r) with
    | Some txt =>
        String.substring (character (start r))
          (character (end_ r) - character (start r)) txt
    | None => ""
    end
  else "".

(** The outcome of one round of a loop: go on with a new state, or leave the
    function with a result. *)
Inductive LoopStep (S R : Type) : Type :=
| Continue (s : S)
| Return (r : R).
Arguments Continue {S R} s.
Arguments Return {S R} r.

(** [ILineComments]. *)
Record ILineComments := mkLineComments {
  commentsClosed : bool;
  commentsRanges : list ITokenRange
}.

(** The local variables of the loop of [_lineComments]. *)
Record LineCommentsLoop := mkLineCommentsLoop {
  commentClosed : bool;
  localLastIndex : nat;
  commentOpenIndex : nat;
  ranges : list ITokenRange
}.

(** ** The token map: class [TokenMap] *)

Module TokenMap.

(** The private fields [#doc], [#lastIndex], [#line] and [#tokens]. *)
Record t := mk {
  doc : TextDocument;
  lastIndex : nat;
  line : TextLine;
  tokens : TTokenMap
}.

Definition setLastIndex (this : t) (i : nat) : t :=
  mk (doc this) i (line this) (tokens this).
Definition setLine (this : t) (l : TextLine) : t :=
  mk (doc this) (lastIndex this) l (tokens this).
Definition setTokens (this : t) (m : TTokenMap) : t :=
  mk (doc this) (lastIndex this) (line this) m.

(** What a lookup task hands back: its result, the array [excludeRanges] as
    the task leaves it, and the session. *)
Definition TaskRun : Type :=
  TResult TTokenMap LookupErrorCode * list ITokenRange * t.

(** [TLookupTask]: a method bound to the session, called with the ranges to
    exclude and the optional search text. *)
Definition TLookupTask : Type :=
  list ITokenRange -> option RegExp -> t -> TaskRun.

(** [constructor(document)]; a document has at least one line. *)
Definition new (document : TextDocument) : t :=
  mk document 0 (mkTextLine 0 (default "" (document !! 0))) ∅.

(** [upsert(appendix)]: the arrays of the appendix are appended to the arrays
    recorded under the same keys, or recorded when the key is new. *)
Definition upsert (this : t) (appendix : TTokenMap) : t :=
  setTokens this (union_with (λ old new, Some (old ++ new)) (tokens this) appendix).

(** The loop [for (const range of searchRanges.value)] of [_token]. *)
Fixpoint _token_loop (this : t) (kind : TokenKind) (searchText : RegExp)
    (searchRanges : list Range) : TResult TTokenMap LookupErrorCode * t :=
  match searchRanges with
  | [] => (error NotFound, this)
  | searchRange :: searchRanges' =>
      match matchRanges (line this) searchRange searchText (lastIndex this) 1 with
      | match_ :: _ =>
          (success {[ kind := [tokenOf match_ true] ]},
           setLastIndex this (character (end_ (range match_))))
      | [] => _token_loop this kind searchText searchRanges'
      end
  end.

Definition _token (this : t) (kind : TokenKind) (excludeRanges : list ITokenRange)
    (searchText : RegExp) : TaskRun :=
  let '(excludeRanges, searchRanges) := excludeLineRanges (line this) excludeRanges in
  match searchRanges with
  | error _ => (error InvalidExcludeRanges, excludeRanges, this)
  | success value =>
      let '(result, this) := _token_loop this kind searchText value in
      (result, excludeRanges, this)
  end.

Definition _enum (this : t) (excludeRanges : list ITokenRange) : TaskRun :=
  _token this Enum excludeRanges ENUM.

Definition _enumName (this : t) (excludeRanges : list ITokenRange)
    (searchText : option RegExp) : TaskRun :=
  _token this EnumName excludeRanges (default IDENTIFIER searchText).

Definition _enumValueName (this : t) (excludeRanges : list ITokenRange)
    (searchText : option RegExp) : TaskRun :=
  let '(token, excludeRanges, this) :=
    _token this EnumValueName excludeRanges (default IDENTIFIER searchText) in
  match token with
  | success value =>
      match (value !! EnumValueName ≫= head : option ITokenRange) with
      | Some first =>
          if test ENUM_VALUE_NAME_EXCEPTIONS (fullMatch first)
          then (error UnexpectedEnumValueName, excludeRanges, this)
          else (token, excludeRanges, this)
      | None => (token, excludeRanges, this)
      end
  | error _ => (token, excludeRanges, this)
  end.

Definition _fieldName (this : t) (excludeRanges : list ITokenRange)
    (searchText : option RegExp) : TaskRun :=
  _token this FieldName excludeRanges (default IDENTIFIER searchText).

Definition _validateFieldType (this : t) (fieldType : IMatchRange)
    (cardinality : option ITokenRange) : TResult unit LookupErrorCode :=
  let token := getText (doc this) (range fieldType) in
  if bool_decide (is_Some cardinality) && String.eqb token "group"
  then error UnexpectedGroup
  else if negb (bool_decide (is_Some cardinality))
          && test FIELD_DECLARATION_EXCEPTIONS token
  then error UnexpectedFieldType
  else success ().

(** One round of the loop [for (const range of searchRanges.value)] of
    [_fieldType], over the local [cardinality] and the session. *)
Definition _fieldType_body (this : t) (cardinality : option ITokenRange)
    (searchRange : Range)
  : LoopStep (option ITokenRange * t) (TResult TTokenMap LookupErrorCode * t) :=
  let matches :=
    matchRanges (line this) searchRange FIELD_TYPE (lastIndex this)
      (match cardinality with Some _ => 1 | None => 2 end) in
  match matches !! 0 with
  | None => Continue (cardinality, this)
  | Some firstMatch =>
      let secondMatch := matches !! 1 in
      let '(cardinality, this, fieldType) :=
        if negb (bool_decide (is_Some cardinality))
           && test FIELD_CARDINALITY (getText (doc this) (range firstMatch))
        then
          let cardinality := tokenOf firstMatch true in
          let this := upsert this {[ FieldCardinality := [cardinality] ]} in
          let this := setLastIndex this (character (end_ (range firstMatch))) in
          (Some cardinality, this, secondMatch)
        else (cardinality, this, Some firstMatch) in
      match fieldType with
      | None => Continue (cardinality, this)
      | Some fieldType =>
          match _validateFieldType this fieldType cardinality with
          | error e => Return (error e, this)
          | success _ =>
              let type := tokenOf fieldType true in
              let this := setLastIndex this (character (end_ (range fieldType))) in
              Return (success {[ FieldType := [type] ]}, this)
          end
      end
  end.

Fixpoint _fieldType_loop (this : t) (cardinality : option ITokenRange)
    (searchRanges : list Range) : TResult TTokenMap LookupErrorCode * t :=
  match searchRanges with
  | [] => (error NotFound, this)
  | searchRange :: searchRanges' =>
      match _fieldType_body this cardinality searchRange with
      | Continue (cardinality, this) => _fieldType_loop this cardinality searchRanges'
      | Return r => r
      end
  end.

Definition _fieldType (this : t) (excludeRanges : list ITokenRange) : TaskRun :=
  let cardinality := tokens this !! FieldCardinality ≫= head in
  let '(excludeRanges, searchRanges) := excludeLineRanges (line this) excludeRanges in
  match searchRanges with
  | error _ => (error InvalidExcludeRanges, excludeRanges, this)
  | success value =>
      let '(result, this) := _fieldType_loop this cardinality value in
      (result, excludeRanges, this)
  end.

Definition _message (this : t) (excludeRanges : list ITokenRange) : TaskRun :=
  _token this Message excludeRanges MESSAGE.

Definition _messageName (this : t) (excludeRanges : list ITokenRange)
    (searchText : option RegExp) : TaskRun :=
  _token this MessageName excludeRanges (default IDENTIFIER searchText).

Definition _package (this : t) (excludeRanges : list ITokenRange) : TaskRun :=
  _token this Package excludeRanges PACKAGE.

Definition _packageName (this : t) (excludeRanges : list ITokenRange)
    (searchText : option RegExp) : TaskRun :=
  _token this PackageName excludeRanges (default QUALIFIED_IDENTIFIER searchText).

Definition _required (this : t) (excludeRanges : list ITokenRange) : TaskRun :=
  _token this Required excludeRanges REQUIRED.

Definition _rpc (this : t) (excludeRanges : list ITokenRange) : TaskRun :=
  _token this Rpc excludeRanges RPC.

Definition _rpcName (this : t) (excludeRanges : list ITokenRange)
    (searchText : option RegExp) : TaskRun :=
  _token this RpcName excludeRanges (default IDENTIFIER searchText).

Definition _service (this : t) (excludeRanges : list ITokenRange) : TaskRun :=
  _token this Service excludeRanges SERVICE.

Definition _serviceName (this : t) (excludeRanges : list ITokenRange)
    (searchText : option RegExp) : TaskRun :=
  _token this ServiceName excludeRanges (default IDENTIFIER searchText).

(** [method.bind(this)] for a method that takes the ranges only (a further
    argument of the call is ignored) and for one that takes the search text
    too. *)
Definition bind1 (method : t -> list ITokenRange -> TaskRun) : TLookupTask :=
  λ excludeRanges _ this, method this excludeRanges.
Definition bind2 (method : t -> list ITokenRange -> option RegExp -> TaskRun)
  : TLookupTask :=
  λ excludeRanges searchText this, method this excludeRanges searchText.

Definition _getTasks (kind : TokenKind) : TResult (list TLookupTask) LookupErrorCode :=
  match kind with
  | Comment | Enum | FieldCardinality | FieldType
  | Message | Package | Rpc | Service => error NotImplemented
  | EnumName => success [bind1 _enum; bind2 _enumName]
  | EnumValueName => success [bind2 _enumValueName]
  | FieldName => success [bind1 _fieldType; bind2 _fieldName]
  | MessageName => success [bind1 _message; bind2 _messageName]
  | PackageName => success [bind1 _package; bind2 _packageName]
  | Required => success [bind1 _required]
  | RpcName => success [bind1 _rpc; bind2 _rpcName]
  | ServiceName => success [bind1 _service; bind2 _serviceName]
  end.

(** The comment range from offset [a] to the end of the line, and from
    offset [a] to offset [b]. *)
Definition commentToEnd (this : t) (a : nat) (c : bool) : ITokenRange :=
  let lineRange := lineRange (line this) in
  let range := withStart lineRange (withCharacter (start lineRange) a) in
  mkTokenRange (mkMatchRange (getText (doc this) range) range) c.

Definition commentBetween (this : t) (a b : nat) : ITokenRange :=
  let lineRange := lineRange (line this) in
  let range :=
    withStartEnd lineRange (withCharacter (start lineRange) a)
      (withCharacter (end_ lineRange) b) in
  mkTokenRange (mkMatchRange (getText (doc this) range) range) true.

(** One round of the [do ... while (match !== null)] loop of
    [_lineComments].  [continue] jumps to the test of the loop, so a round
    without a match is the last one. *)
Definition _lineComments_body (this : t) (v : LineCommentsLoop)
  : LoopStep LineCommentsLoop (TResult TTokenMap LookupErrorCode) :=
  let text := text (line this) in
  let pattern := if commentClosed v then COMMENT_OPEN else COMMENT_CLOSE in
  match exec pattern (chars text) (localLastIndex v) with
  | None =>
      if negb (commentClosed v)
      then Return (success {[ Comment :=
             ranges v ++ [commentToEnd this (commentOpenIndex v) false] ]})
      else Return (success {[ Comment := ranges v ]})
  | Some (index, patternLastIndex) =>
      if negb (commentClosed v) then
        Continue (mkLineCommentsLoop true patternLastIndex (commentOpenIndex v)
                    (ranges v ++ [commentBetween this (commentOpenIndex v) patternLastIndex]))
      else
        let match0 := String.substring index (patternLastIndex - index) text in
        if String.eqb match0 "//" then
          Return (success {[ Comment := ranges v ++ [commentToEnd this index true] ]})
        else if String.eqb match0 "/*" then
          Continue (mkLineCommentsLoop false patternLastIndex index (ranges v))
        else Return (error UnexpectedCommentOpen)
  end.

(** The loop.  Every round that goes on moves the offset forward, so the
    fuel [S (length text)] is never used up (lemma [_lineComments_fuel]). *)
Fixpoint _lineComments_loop (fuel : nat) (this : t) (v : LineCommentsLoop)
  : TResult TTokenMap LookupErrorCode :=
  match fuel with
  | 0 => success {[ Comment := ranges v ]}
  | S fuel' =>
      match _lineComments_body this v with
      | Continue v' => _lineComments_loop fuel' this v'
      | Return r => r
      end
  end.

Definition _lineComments (this : t) (commentClosed : bool)
  : TResult TTokenMap LookupErrorCode :=
  _lineComments_loop (S (String.length (text (line this)))) this
    (mkLineCommentsLoop commentClosed (lastIndex this) 0 []).

(** The array handed to the tasks is the one [upsert] has just recorded when
    [Comment] was a new key; the tasks sort it in place.  The parser itself
    never reads the [Comment] entry of [#tokens], which is kept here as it
    was recorded. *)
Definition _parseCurrentLineComments (this : t) (commentClosed : bool)
  : TResult ILineComments LookupErrorCode * t :=
  match _lineComments this commentClosed with
  | error e => (error e, this)
  | success value =>
      let this := upsert this value in
      let comments := default [] (value !! Comment) in
      let commentClosed :=
        match last comments with
        | Some c => closed c
        | None => commentClosed
        end in
      (success (mkLineComments commentClosed comments), this)
  end.

(** The loop [for (const task of tasksRemained)]: a task that succeeds is
    shifted off [tasks] and its tokens are recorded; [NotFound] leaves the
    loop; any other error leaves [parseFragment].  The state that goes on is
    the session, the tasks still pending and the array of ranges. *)
Fixpoint runTasks (this : t) (tasks : list TLookupTask) (ranges : list ITokenRange)
    (searchText : option RegExp)
  : LoopStep (t * list TLookupTask * list ITokenRange) (LookupErrorCode * t) :=
  match tasks with
  | [] => Continue (this, [], ranges)
  | task :: tasks' =>
      let '(taskRun, ranges, this) := task ranges searchText this in
      match taskRun with
      | success value => runTasks (upsert this value) tasks' ranges searchText
      | error NotFound => Continue (this, task :: tasks', ranges)
      | error e => Return (e, this)
      end
  end.

(** [this.#tokens.get(kind)?.[0].range].  An entry that holds an empty array
    would make the access throw; the tasks record non-empty arrays only. *)
Definition firstRange (this : t) (kind : TokenKind) : option Range :=
  (λ tr : ITokenRange, range tr) <$> (tokens this !! kind ≫= head).

(** One round of the loop over the lines, on the line [lineNumber] with the
    text [txt]: the comments of the line, the pending tasks, the look for the
    requested kind, the reset of [#lastIndex]. *)
Definition parseLine (this : t) (txt : string) (lineNumber : nat)
    (kind : TokenKind) (searchText : option RegExp) (tasks : list TLookupTask)
    (commentClosed : bool)
  : LoopStep (t * list TLookupTask * bool) (TResult Range LookupErrorCode * t) :=
  let this := setLine this (mkTextLine lineNumber txt) in
  match _parseCurrentLineComments this commentClosed with
  | (error e, this) => Return (error e, this)
  | (success comments, this) =>
      let commentClosed := commentsClosed comments in
      match runTasks this tasks (commentsRanges comments) searchText with
      | Return (e, this) => Return (error e, this)
      | Continue (this, tasks, _) =>
          match firstRange this kind with
          | Some value => Return (success value, this)
          | None => Continue (setLastIndex this 0, tasks, commentClosed)
          end
      end
  end.

(** The loop over the lines, from [lineNumber] to the end of the document:
    [lines] are the lines still to visit. *)
Fixpoint parseLines (lines : list string) (lineNumber : nat) (this : t)
    (kind : TokenKind) (searchText : option RegExp) (tasks : list TLookupTask)
    (commentClosed : bool) : TResult Range LookupErrorCode * t :=
  match lines with
  | [] => (error NotFound, this)
  | txt :: lines' =>
      match parseLine this txt lineNumber kind searchText tasks commentClosed with
      | Return r => r
      | Continue (this, tasks, commentClosed) =>
          parseLines lines' (S lineNumber) this kind searchText tasks commentClosed
      end
  end.

Definition parseFragment (this : t) (kind : TokenKind) (lineNumber lastIndex : nat)
    (searchText : option RegExp) : TResult Range LookupErrorCode * t :=
  let this := setLastIndex this lastIndex in
  match _getTasks kind with
  | error e => (error e, this)
  | success tasks =>
      match lineAt (doc this) lineNumber with
      | None => (error LineNumber, this)
      | Some l =>
          let this := setLine this l in
          parseLines (drop lineNumber (doc this)) lineNumber this kind searchText
            tasks true
      end
  end.

End TokenMap.

(** ** Vocabulary for the properties of range exclusion *)

(** The segment between two edges of line [ln]; an empty one is dropped. *)
Definition segment (ln a b : nat) : list Range :=
  if a =? b then [] else [mkRange (mkPosition ln a) (mkPosition ln b)].

(** The segments left of, between and right of the ranges [ts], read from
    offset [a] up to offset [e]. *)
Fixpoint gaps (ln a : nat) (ts : list ITokenRange) (e : nat) : list Range :=
  match ts with
  | [] => segment ln a e
  | t :: ts' => segment ln a (startCharacter t) ++ gaps ln (endCharacter t) ts' e
  end.

(** The edges from [a] over the ranges [ts] to [e] never step back at the
    places the loop inspects. *)
Fixpoint chained (a : nat) (ts : list ITokenRange) (e : nat) : bool :=
  match ts with
  | [] => a <=? e
  | t :: ts' => (a <=? startCharacter t) && chained (endCharacter t) ts' e
  end.

(** Offset [c] belongs to the half-open span of [r]. *)
Definition covers (c : nat) (r : Range) : Prop :=
  character (start r) <= c < character (end_ r).


(** Two ranges of a line do not overlap: one ends where or before the other
    starts.  Touching ranges do not overlap. *)
Definition nonOverlapping (a b : Range) : Prop :=
  character (end_ a) <= character (start b) \/
  character (end_ b) <= character (start a).

Definition overlapping (a b : Range) : Prop :=
  character (start a) < character (end_ b) /\
  character (start b) < character (end_ a).

Definition zeroWidth (r : Range) : Prop :=
  character (start r) = character (end_ r).

(** [P] holds of any two elements at different places of the list. *)
Definition pairwise {A : Type} (P : A -> A -> Prop) (l : list A) : Prop :=
  forall i j x y, i <> j -> l !! i = Some x -> l !! j = Some y -> P x y.

(** The sort never has to order a zero-width range against a wider range
    that starts at the same offset. *)
Definition tieFree (a b : Range) : Prop :=
  character (start a) = character (start b) -> zeroWidth a /\ zeroWidth b.



Definition wfToken (t : ITokenRange) : Prop := startCharacter t <= endCharacter t.
Definition endsBefore (a b : ITokenRange) : Prop := endCharacter a <= startCharacter b.

(** A closed token over the characters [a, b) of a line, with the text the
    document holds there (the [prepareRanges] helper of the test suite). *)
Definition lineToken (l : TextLine) (a b : nat) : ITokenRange :=
  mkTokenRange
    (mkMatchRange (String.substring a (b - a) (text l))
                  (newRange4 (lineNumber l) a (lineNumber l) b))
    true.

(** ** Vocabulary for the properties of the match search *)

(** A match [m] = (start, end) lies in the text of length [n], at or after
    [lastIndex]. *)
Definition matchInside (lastIndex n : nat) (m : nat * nat) : Prop :=
  lastIndex <= m.1 <= m.2 /\ m.2 <= n.

(** [m1] starts before [m2] and ends where or before it starts. *)
Definition matchBefore (m1 m2 : nat * nat) : Prop :=
  m1.1 < m2.1 /\ m1.2 <= m2.1.

(** Every match of the pattern in the window of the line, left to right:
    what the iterator of [matchAll] yields to the loop of [matchRanges]. *)
Definition allMatches (line : TextLine) (seekRange : Range) (pattern : RegExp)
    (lastIndex : nat) : list IMatchRange :=
  (λ '(i, e), matchAt line i e)
    <$> matchAll pattern (take (character (end_ seekRange)) (chars (text line)))
          (Nat.max (character (start seekRange)) lastIndex).

(** ** Vocabulary for the properties of the patterns *)

(** The word [w] stands at offset [i] of [s]. *)
Definition occursAt (w s : string) (i : nat) : Prop :=
  String.substring i (String.length w) s = w.

Global Instance occursAt_dec w s i : Decision (occursAt w s i).
Proof. unfold occursAt. apply _. Defined.



(** A comment opens at offset [i] of [s]; the first opening at or after
    [from] is at [i]; there is none from [from] on.  The same for the
    closing of a block comment. *)
Definition opensAt (s : string) (i : nat) : Prop :=
  occursAt "//" s i \/ occursAt "/*" s i.
Definition firstOpener (s : string) (from i : nat) : Prop :=
  from <= i /\ opensAt s i /\ forall j, from <= j < i -> ~ opensAt s j.
Definition noOpener (s : string) (from : nat) : Prop :=
  forall j, from <= j -> ~ opensAt s j.
Definition firstCloser (s : string) (from i : nat) : Prop :=
  from <= i /\ occursAt "*/" s i /\ forall j, from <= j < i -> ~ occursAt "*/" s j.
Definition noCloser (s : string) (from : nat) : Prop :=
  forall j, from <= j -> ~ occursAt "*/" s j.

(** ** Vocabulary for the properties of the token map *)

(** A task moves the cursor forward or leaves it, and stays on the line and
    the document of the session. *)
Definition advances (task : TokenMap.TLookupTask) : Prop :=
  forall excludeRanges searchText this,
    TokenMap.lastIndex this <= TokenMap.lastIndex (task excludeRanges searchText this).2
    /\ TokenMap.line (task excludeRanges searchText this).2 = TokenMap.line this
    /\ TokenMap.doc (task excludeRanges searchText this).2 = TokenMap.doc this.




(** A task touches no entry of the token map but [FieldCardinality], and
    when it succeeds it hands back exactly one token, of kind [k]. *)
Definition recordsOnly (task : TokenMap.TLookupTask) (k : TokenKind) : Prop :=
  forall excludeRanges searchText this,
    (forall k', k' <> FieldCardinality ->
       TokenMap.tokens (task excludeRanges searchText this).2 !! k'
       = TokenMap.tokens this !! k')
    /\ (forall value,
          (task excludeRanges searchText this).1.1 = success value ->
          exists t : ITokenRange, value = {[ k := [t] ]}).


(** The token spans characters of the line [l]. *)
Definition spanOn (l : TextLine) (t : ITokenRange) : Prop :=
  exists a b,
    a <= b <= String.length (text l)
    /\ range t = mkRange (mkPosition (lineNumber l) a) (mkPosition (lineNumber l) b).

(** What the loop of the comment scanner keeps true of its local state: the
    comments found so far lie on the line, one behind the other, before the
    offset the scan has reached, or before the opening of the comment that
    is open. *)
Definition scanInv (this : TokenMap.t) (v : LineCommentsLoop) : Prop :=
  Forall (spanOn (TokenMap.line this)) (ranges v)
  /\ StronglySorted endsBefore (ranges v)
  /\ if commentClosed v
     then Forall (λ t, endCharacter t <= localLastIndex v) (ranges v)
     else Forall (λ t, endCharacter t <= commentOpenIndex v) (ranges v)
          /\ commentOpenIndex v <= localLastIndex v
          /\ commentOpenIndex v <= String.length (text (TokenMap.line this)).

(** Handed comments that lie on the line of the session, one behind the
    other, a task leaves the array as it is and fails, if it fails, with one
    of the four errors of the lookups. *)
Definition respects (task : TokenMap.TLookupTask) : Prop :=
  forall cs searchText this,
    Forall (spanOn (TokenMap.line this)) cs -> StronglySorted endsBefore cs ->
    (task cs searchText this).1.2 = cs
    /\ forall e,
         (task cs searchText this).1.1 = error e ->
         e ∈ [NotFound; UnexpectedEnumValueName; UnexpectedFieldType; UnexpectedGroup].

(** * The rule mapper: [src/rule-mapper.ts]

    The functions that turn an item of the report of the linter into a range
    of the document.  The line and the column of an item come from the
    report, one-based, and may be any number; they are integers here. *)

(** [document.lineAt(n)] at a number that may be negative: the editor throws
    below 0 and from [lineCount] on. *)
Definition lineAtZ (doc : TextDocument) (n : Z) : option TextLine :=
  if (n <? 0)%Z then None else lineAt doc (Z.to_nat n).

(** [new Range(startLine, startCharacter, endLine, endCharacter)] at numbers
    that may be negative: the constructor of a position throws at a negative
    line or character. *)
Definition newRange4Z (sl sc el ec : Z) : option Range :=
  if ((sl <? 0) || (sc <? 0) || (el <? 0) || (ec <? 0))%Z then None
  else Some (newRange4 (Z.to_nat sl) (Z.to_nat sc) (Z.to_nat el) (Z.to_nat ec)).

(** [text.charAt(index)]: the character as a string, the empty string past
    the end of the text. *)
Definition charAt (s : string) (index : nat) : string := String.substring index 1 s.

(** [\s], over the characters a [string] holds: the codes 9 to 13, the space
    and the no-break space. *)
Definition WHITESPACE : RegExp :=
  Class false [CRange "009" "013"; CChar " "; CChar "160"].

(** [tokenMap.parseFragment(kind, lineNumber, lastIndex, searchText)] at
    numbers that may be negative.  The tasks of the kind are looked up
    first; [lineAt] throws at a negative line; a negative [lastIndex] acts as
    0, in [Math.max(seekRange.start.character, lastIndex)] and as the
    [lastIndex] of a pattern, which [exec] clamps. *)
Definition parseFragmentZ (this : TokenMap.t) (kind : TokenKind)
    (lineNumber lastIndex : Z) (searchText : option RegExp)
  : TResult Range LookupErrorCode :=
  match TokenMap._getTasks kind with
  | error e => error e
  | success _ =>
      if (lineNumber <? 0)%Z then error LineNumber
      else (TokenMap.parseFragment this kind (Z.to_nat lineNumber)
              (Z.to_nat lastIndex) searchText).1
  end.

Module RuleMapper.

(** [IJsonLintsItem], the item of the report. *)
Record IJsonLintsItem := mkItem {
  column : Z;
  filename : string;
  line : Z;
  message : string;
  rule : string
}.

Inductive ParseRangeErrorCode := ItemLine | SearchTextRequired | TokenKindRequired.

(** [IParseRangeError]: the code of a lookup or of the mapper, and the
    item. *)
Record IParseRangeError := mkError {
  code : LookupErrorCode + ParseRangeErrorCode;
  item : IJsonLintsItem
}.

(** [IRangeParserOptions]; the search text is a pattern, as in the token
    map. *)
Record IRangeParserOptions := mkOptions {
  searchText : option RegExp;
  tokenKind : option TokenKind
}.

Definition TDiagnosticRangeParser : Type :=
  TextDocument -> IJsonLintsItem -> IRangeParserOptions
  -> TResult Range IParseRangeError.

(** [defaultRange]: the line of the item, the first line of the document
    when the editor refuses the line. *)
Definition defaultRange (document : TextDocument) (item : IJsonLintsItem) : Range :=
  match lineAtZ document (line item - 1) with
  | Some l => lineRange l
  | None => lineRange (mkTextLine 0 (default "" (document !! 0)))
  end.

(** [tokenRange]: a lookup in a token map of its own, from the line and the
    column of the item. *)
Definition tokenRange : TDiagnosticRangeParser :=
  λ document item options,
    match tokenKind options with
    | None => error (mkError (inr TokenKindRequired) item)
    | Some tokenKind =>
        let tokenMap := TokenMap.new document in
        match parseFragmentZ tokenMap tokenKind (line item - 1) (column item - 1)
                (searchText options) with
        | success value => success value
        | error code => error (mkError (inl code) item)
        end
    end.

(** The loop [for (index = column - 2; index >= 0; index--)] of [indent]:
    [n] indices are left to visit, the next one is [n - 1]. *)
Fixpoint indent_loop (text : string) (n : nat) (startCharacter : Z) : Z :=
  match n with
  | 0 => startCharacter
  | S index =>
      if negb (test WHITESPACE (charAt text index)) then startCharacter
      else indent_loop text index (Z.of_nat index)
  end.

(** [indent]: the white space in front of the column of the item.  A line
    the editor refuses and a range the constructor refuses are caught alike. *)
Definition indent : TDiagnosticRangeParser :=
  λ document item _,
    match lineAtZ document (line item - 1) with
    | None => error (mkError (inr ItemLine) item)
    | Some l =>
        let startCharacter :=
          indent_loop (text l) (Z.to_nat (column item - 2 + 1)) (column item - 1) in
        match newRange4Z (Z.of_nat (lineNumber l)) startCharacter
                (Z.of_nat (lineNumber l)) (column item - 1) with
        | Some value => success value
        | None => error (mkError (inr ItemLine) item)
        end
    end.

End RuleMapper.

(** ** Vocabulary for the properties of a lookup *)

(** The pattern the last task of a kind searches with. *)
Definition kindPattern (kind : TokenKind) (searchText : option RegExp) : RegExp :=
  match kind with
  | PackageName => default QUALIFIED_IDENTIFIER searchText
  | Required => REQUIRED
  | _ => default IDENTIFIER searchText
  end.

(** A task locates the kind [K]: handed comments that lie on the line, one
    behind the other, its success is one closed token of kind [K], a match
    of the pattern of the kind from the cursor on, in one of the ranges the
    comments leave. *)
Definition locates (K : TokenKind) (task : TokenMap.TLookupTask) : Prop :=
  forall cs searchText this value,
    Forall (spanOn (TokenMap.line this)) cs -> StronglySorted endsBefore cs ->
    (task cs searchText this).1.1 = success value ->
    exists m seekRange,
      value = {[ K := [tokenOf m true] ]}
      /\ seekRange ∈ gaps (lineNumber (TokenMap.line this)) 0 cs
                       (String.length (text (TokenMap.line this)))
      /\ m ∈ matchRanges (TokenMap.line this) seekRange (kindPattern K searchText)
               (TokenMap.lastIndex this) 1.

(** The character is white space for [\s]. *)
Definition isWhitespace (c : ascii) : Prop :=
  9 <= nat_of_ascii c <= 13 \/ nat_of_ascii c = 32 \/ nat_of_ascii c = 160.

(** The text holds white space at offset [j]. *)
Definition whitespaceAt (s : string) (j : nat) : Prop :=
  exists c, chars s !! j = Some c /\ isWhitespace c.

(** ** Vocabulary for the further properties *)

(** The comment [c] holds offset [j]. *)
Definition holds (c : ITokenRange) (j : nat) : Prop :=
  startCharacter c <= j < endCharacter c.

(** Where a comment of the scan starts: at offset 0 when it is the comment
    the line was entered in, at an opener at or after the cursor
    otherwise. *)
Definition startsComment (this : TokenMap.t) (entryClosed : bool)
    (i : nat) (c : ITokenRange) : Prop :=
  (entryClosed = false /\ i = 0 /\ startCharacter c = 0)
  \/ (TokenMap.lastIndex this <= startCharacter c
      /\ opensAt (text (TokenMap.line this)) (startCharacter c)).

(** What the scan of a line entered in the state [entryClosed] has
    established at the local state [v]: the comments found are closed and
    start where comments start, and they hold every opener from the cursor
    up to the offset the scan has reached, or up to the opening of the
    comment that is open. *)
Definition scanned (this : TokenMap.t) (entryClosed : bool) (v : LineCommentsLoop)
  : Prop :=
  TokenMap.lastIndex this <= localLastIndex v
  /\ Forall (λ c : ITokenRange, closed c = true) (ranges v)
  /\ (forall i c, ranges v !! i = Some c -> startsComment this entryClosed i c)
  /\ (forall j,
        TokenMap.lastIndex this <= j
        < (if commentClosed v then localLastIndex v else commentOpenIndex v) ->
        opensAt (text (TokenMap.line this)) j ->
        exists c, c ∈ ranges v /\ holds c j)
  /\ (commentClosed v = false ->
        (entryClosed = false /\ ranges v = [] /\ commentOpenIndex v = 0)
        \/ (TokenMap.lastIndex this <= commentOpenIndex v
            /\ opensAt (text (TokenMap.line this)) (commentOpenIndex v))).

(** The outcome of a scan: comments that are closed but for the last, which
    is open only up to the end of the line; that start where comments
    start; that hold every opener from the cursor on. *)
Definition scanResult (this : TokenMap.t) (entryClosed : bool)
    (cs : list ITokenRange) : Prop :=
  (forall i c, cs !! i = Some c -> closed c = false ->
     S i = length cs
     /\ endCharacter c = String.length (text (TokenMap.line this)))
  /\ (forall i c, cs !! i = Some c -> startsComment this entryClosed i c)
  /\ (forall j,
        TokenMap.lastIndex this <= j -> opensAt (text (TokenMap.line this)) j ->
        exists c, c ∈ cs /\ holds c j).

(** The tasks are ready to locate the kind [K]: each records one kind, the
    last one [K] and no other one [K] nor a comment; each moves the cursor
    forward only and respects the comments; the last one locates [K]. *)
Definition ready (K : TokenKind) (tasks : list TokenMap.TLookupTask) : Prop :=
  (exists kinds,
      Forall2 recordsOnly tasks (kinds ++ [K]) /\ (K ∉ kinds) /\ (Comment ∉ kinds))
  /\ K <> FieldCardinality /\ K <> Comment
  /\ Forall advances tasks /\ Forall respects tasks
  /\ (forall task, last tasks = Some task -> locates K task).

(** The comments a session has recorded lie on lines before [n]. *)
Definition commentsBefore (n : nat) (this : TokenMap.t) : Prop :=
  forall c : ITokenRange,
    c ∈ default [] (TokenMap.tokens this !! Comment) -> line (start (range c)) < n.

(** The pattern matches in the window [seekRange] of the line, read in the
    text cut at the end of the window: from offset [i] to offset [e], not
    before the start of the window nor before the cursor [from]. *)
Definition matchIn (l : TextLine) (seekRange : Range) (pattern : RegExp)
    (from i e : nat) : Prop :=
  Nat.max (character (start seekRange)) from <= i <= character (end_ seekRange)
  /\ matcher pattern (take (character (end_ seekRange)) (chars (text l))) i Some
     = Some e.

(** The characters of [s] from [i] up to [e] belong to the class. *)
Definition classRun (negated : bool) (items : list ClassItem) (s : list ascii)
    (i e : nat) : Prop :=
  forall j, i <= j < e -> exists c, s !! j = Some c /\ inClass negated items c = true.

(** The text is an identifier: a letter or an underscore, then letters,
    digits and underscores. *)
Definition isIdentifier (w : string) : Prop :=
  match w with
  | EmptyString => False
  | String c w' =>
      inClass false [CRange "a" "z"; CRange "A" "Z"; CChar "_"] c = true
      /\ Forall (λ c', isWordChar c' = true) (chars w')
  end.

(** The kind the first task of a kind with two tasks records, with the
    keyword it searches, if it searches one. *)
Definition leadOf (kind : TokenKind) : option (TokenKind * option string) :=
  match kind with
  | EnumName => Some (Enum, Some "enum")
  | FieldName => Some (FieldType, None)
  | MessageName => Some (Message, Some "message")
  | PackageName => Some (Package, Some "package")
  | RpcName => Some (Rpc, Some "rpc")
  | ServiceName => Some (Service, Some "service")
  | _ => None
  end.

(** The token is the keyword, when there is one. *)
Definition isLead (keyword : option string) (t : ITokenRange) : Prop :=
  forall kw, keyword = Some kw -> fullMatch t = kw.

(** A task marks the kind [k0]: handed comments that lie on the line, one
    behind the other, its success is one token of kind [k0] on the line,
    the keyword if there is one, and the cursor stands at the end of the
    token. *)
Definition marks (k0 : TokenKind) (keyword : option string)
    (task : TokenMap.TLookupTask) : Prop :=
  forall cs searchText this value,
    Forall (spanOn (TokenMap.line this)) cs -> StronglySorted endsBefore cs ->
    (task cs searchText this).1.1 = success value ->
    exists t0 : ITokenRange,
      value = {[ k0 := [t0] ]}
      /\ isLead keyword t0
      /\ spanOn (TokenMap.line this) t0
      /\ TokenMap.lastIndex (task cs searchText this).2 = endCharacter t0.

(** The token of kind [k0] stands before the offset [a] of line [n]. *)
Definition leads (t0 : ITokenRange) (n a : nat) : Prop :=
  line (start (range t0)) < n
  \/ (line (start (range t0)) = n /\ endCharacter t0 <= a).

(** * Properties *)

(** ** Positions and ranges *)

Lemma isBefore_same_line ln a b :
  isBefore (mkPosition ln a) (mkPosition ln b) = bool_decide (a < b).
Proof.
  unfold isBefore; simpl. rewrite Nat.ltb_irrefl.
  destruct (Nat.ltb_spec a b); case_bool_decide; done || lia.
Qed.

Lemma newRange4_ordered ln a b :
  a <= b ->
  newRange4 ln a ln b = mkRange (mkPosition ln a) (mkPosition ln b).
Proof.
  intros Hab. unfold newRange4, newRange. rewrite isBefore_same_line.
  case_bool_decide; [done|]. by replace b with a by lia.
Qed.

(** A well-formed range contained in the range of a line lies on that line,
    between its two ends. *)
Lemma contains_lineRange (l : TextLine) (r : Range) :
  Range_wf r ->
  contains (lineRange l) r = true ->
  line (start r) = lineNumber l /\ line (end_ r) = lineNumber l /\
  character (start r) <= character (end_ r) <= String.length (text l).
Proof.
  destruct r as [[sl sc] [el ec]], l as [ln txt].
  unfold Range_wf, contains, containsPosition, lineRange, isBefore; simpl.
  intros Hwf Hc.
  repeat match goal with
  | H : context [?a <? ?b] |- _ => destruct (Nat.ltb_spec a b); simpl in H
  end; try done; lia.
Qed.

(** ** The stable sort *)

Section ArraySortFacts.
Context {A : Type} (key : A -> nat).

Lemma sortInsert_perm (cmp : A -> A -> Z) x l : sortInsert cmp x l ≡ₚ x :: l.
Proof.
  induction l as [|y l IH]; simpl; [done|].
  destruct (Z.leb_spec (cmp x y) 0); [done|].
  rewrite IH. apply Permutation_swap.
Qed.

Lemma sort_perm (cmp : A -> A -> Z) l : sort cmp l ≡ₚ l.
Proof.
  induction l as [|x l IH]; simpl; [done|].
  by rewrite sortInsert_perm, IH.
Qed.

Lemma sortInsert_sorted x l :
  StronglySorted (keyLe key) l -> StronglySorted (keyLe key) (sortInsert (byKey key) x l).
Proof.
  induction 1 as [|y l Hl IH Hy]; simpl.
  - repeat constructor.
  - unfold byKey at 1. destruct (Z.leb_spec (Z.of_nat (key x) - Z.of_nat (key y)) 0).
    + constructor; [by constructor|].
      constructor; [unfold keyLe; lia|].
      eapply Forall_impl; [exact Hy|]. unfold keyLe; intros; simpl in *; lia.
    + constructor; [done|].
      rewrite sortInsert_perm. constructor; [unfold keyLe; lia|done].
Qed.

Lemma sort_sorted l : StronglySorted (keyLe key) (sort (byKey key) l).
Proof.
  induction l as [|x l IH]; simpl; [constructor|by apply sortInsert_sorted].
Qed.

(** An array already in order is left as it is. *)
Lemma sort_of_sorted l : StronglySorted (keyLe key) l -> sort (byKey key) l = l.
Proof.
  induction 1 as [|x l Hl IH Hx]; simpl; [done|].
  rewrite IH. destruct Hx as [|y l' Hy _]; simpl; [done|].
  unfold byKey, keyLe in *.
  destruct (Z.leb_spec (Z.of_nat (key x) - Z.of_nat (key y)) 0); [done|lia].
Qed.

(** Stability: the elements with a given key keep their relative order. *)
Lemma sortInsert_filter (P : A -> bool) x l :
  (forall y, P x = true -> P y = false -> key x <> key y) ->
  (forall y, In y l -> P x = true -> P y = true -> key x <= key y) ->
  List.filter P (sortInsert (byKey key) x l) = List.filter P (x :: l).
Proof.
  intros Hne. induction l as [|y l IH]; intros Hle; simpl; [done|].
  unfold byKey at 1.
  destruct (Z.leb_spec (Z.of_nat (key x) - Z.of_nat (key y)) 0); [done|].
  simpl. rewrite IH by (intros; apply Hle; simpl; auto). simpl.
  destruct (P x) eqn:Hx, (P y) eqn:Hy; try done.
  specialize (Hle y (or_introl eq_refl) eq_refl Hy). lia.
Qed.

Lemma sort_stable k l :
  List.filter (λ a, key a =? k) (sort (byKey key) l) = List.filter (λ a, key a =? k) l.
Proof.
  induction l as [|x l IH]; simpl; [done|].
  rewrite sortInsert_filter; simpl.
  - by rewrite IH.
  - intros y Hx%Nat.eqb_eq Hy%Nat.eqb_neq. lia.
  - intros y _ Hx%Nat.eqb_eq Hy%Nat.eqb_eq. lia.
Qed.

End ArraySortFacts.

(** ** Range exclusion *)

Lemma lineEdges_even lr ts : Nat.Even (length (lineEdges lr ts)).
Proof.
  unfold lineEdges. simpl. rewrite length_app. simpl.
  assert (Nat.Even (length (ts ≫= λ t : ITokenRange, [startCharacter t; endCharacter t]))) as [k Hk].
  { induction ts as [|t ts [k Hk]]; [by exists 0|].
    exists (S k). rewrite bind_cons, length_app, Hk. simpl. lia. }
  exists (S k). lia.
Qed.

Lemma segment_newRange4 ln a b value :
  a <= b ->
  (if a =? b then value else value ++ [newRange4 ln a ln b]) = value ++ segment ln a b.
Proof.
  intros Hab. unfold segment. destruct (Nat.eqb_spec a b).
  - by rewrite app_nil_r.
  - by rewrite newRange4_ordered.
Qed.

Lemma edgesLoop_step ln a b rest value :
  edgesLoop ln (a :: b :: rest) value =
    if b <? a then error RangeIntersection
    else edgesLoop ln rest (if a =? b then value else value ++ [newRange4 ln a ln b]).
Proof. done. Qed.

(** What the loop over the edges computes. *)
Lemma edgesLoop_chained ln a ts e value :
  edgesLoop ln (a :: (ts ≫= λ t : ITokenRange, [startCharacter t; endCharacter t]) ++ [e]) value
  = if chained a ts e then success (value ++ gaps ln a ts e)
    else error RangeIntersection.
Proof.
  revert a value. induction ts as [|t ts IH]; intros a value.
  - cbn [mbind list_bind app chained gaps]. rewrite edgesLoop_step.
    destruct (Nat.ltb_spec e a), (Nat.leb_spec a e); try lia; [done|].
    by rewrite segment_newRange4.
  - rewrite bind_cons, <-app_assoc. cbn [app chained gaps].
    rewrite edgesLoop_step.
    destruct (Nat.ltb_spec (startCharacter t) a), (Nat.leb_spec a (startCharacter t));
      try lia; [done|]. cbn [andb].
    rewrite segment_newRange4 by done. rewrite IH.
    destruct (chained _ _ _); [|done]. by rewrite <-app_assoc.
Qed.

Lemma excludeLineRanges_contained l ts :
  forallb (λ t : ITokenRange, contains (lineRange l) (range t)) ts = true ->
  excludeLineRanges l ts =
    (sort byStartCharacter ts,
     if chained 0 (sort byStartCharacter ts) (String.length (text l))
     then success (gaps (lineNumber l) 0 (sort byStartCharacter ts) (String.length (text l)))
     else error RangeIntersection).
Proof.
  intros Hc. unfold excludeLineRanges. rewrite Hc. cbn [negb].
  unfold lineEdges, lineRange. cbn [start end_ character].
  by rewrite edgesLoop_chained.
Qed.

Lemma forallb_contained l (ts : list ITokenRange) :
  forallb (λ t : ITokenRange, contains (lineRange l) (range t)) ts = true <->
  Forall (λ t : ITokenRange, contains (lineRange l) (range t) = true) ts.
Proof.
  induction ts as [|t ts IH]; simpl; [by split|].
  rewrite andb_true_iff, Forall_cons, IH. done.
Qed.

Lemma excludeLineRanges_beyond l ts :
  ¬ Forall (λ t : ITokenRange, contains (lineRange l) (range t) = true) ts ->
  excludeLineRanges l ts = (ts, error RangeBeyondLine).
Proof.
  intros Hn. unfold excludeLineRanges.
  destruct (forallb _ ts) eqn:Hc; [|done].
  by apply forallb_contained in Hc.
Qed.

(** C6 fails on a line without text: the only segment has no width and is
    dropped, so the result is the empty list and not the range of the line. *)
Lemma excludeLineRanges_no_ranges_empty_line :
  excludeLineRanges (mkTextLine 3 "") [] = ([], success [])
  /\ (excludeLineRanges (mkTextLine 3 "") []).2
       <> success [lineRange (mkTextLine 3 "")].
Proof. split; [reflexivity|discriminate]. Qed.

(** C6, amended: without excluded ranges the result is the one-element list
    holding the range of the line when the line has text, and the empty list
    when the line has none; the (empty) argument array is unchanged. *)
Theorem excludeLineRanges_no_ranges (l : TextLine) :
  excludeLineRanges l [] =
    ([], success (if decide (text l = "") then [] else [lineRange l])).
Proof.
  rewrite excludeLineRanges_contained by done. cbn [sort foldr chained gaps].
  unfold segment, lineRange. destruct l as [ln [|c txt]]; done.
Qed.

(** C10: when every excluded range is contained in the line, the array the
    caller passed is left sorted by start character, whether the call then
    succeeds or reports [RangeIntersection]: it holds the same elements, in
    ascending order of start, elements of equal start in their former order.
    When some range is not contained, the array is untouched and the call
    reports [RangeBeyondLine]. *)
Theorem excludeLineRanges_sorts_argument (l : TextLine) (ts : list ITokenRange) :
  (Forall (λ t : ITokenRange, contains (lineRange l) (range t) = true) ts ->
     (excludeLineRanges l ts).1 = sort byStartCharacter ts
     /\ (excludeLineRanges l ts).1 ≡ₚ ts
     /\ StronglySorted (λ a b, startCharacter a <= startCharacter b)
          (excludeLineRanges l ts).1
     /\ (forall k, List.filter (λ t, startCharacter t =? k) (excludeLineRanges l ts).1
                   = List.filter (λ t, startCharacter t =? k) ts)
     /\ ((excludeLineRanges l ts).2 = error RangeIntersection
         \/ exists value, (excludeLineRanges l ts).2 = success value))
  /\ (¬ Forall (λ t : ITokenRange, contains (lineRange l) (range t) = true) ts ->
        excludeLineRanges l ts = (ts, error RangeBeyondLine)).
Proof.
  split; [|apply excludeLineRanges_beyond].
  intros Hc%forallb_contained. rewrite excludeLineRanges_contained by done.
  cbn [fst snd]. split_and!.
  - done.
  - apply sort_perm.
  - apply (sort_sorted startCharacter).
  - intros k. apply (sort_stable startCharacter).
  - destruct (chained _ _ _); eauto.
Qed.

(** ** Properties of lists that hold of any two places *)

Section Pairwise.
Context {A : Type} (P : A -> A -> Prop).

Lemma pairwise_cons x l :
  pairwise P (x :: l) <-> Forall (λ y, P x y /\ P y x) l /\ pairwise P l.
Proof.
  split.
  - intros H. split.
    + apply Forall_lookup. intros k y Hk. split.
      * by apply (H 0 (S k)).
      * by apply (H (S k) 0).
    + intros i j a b Hij Hi Hj. apply (H (S i) (S j)); auto.
  - intros [Hx Hl] i j a b Hij Hi Hj.
    rewrite Forall_lookup in Hx.
    destruct i as [|i], j as [|j]; simpl in *; simplify_eq.
    + by apply (Hx j).
    + by apply (Hx i).
    + apply (Hl i j); auto.
Qed.

Lemma pairwise_nil : pairwise P [].
Proof. by intros i j x y _ ?. Qed.

Lemma pairwise_perm l l' : l ≡ₚ l' -> pairwise P l -> pairwise P l'.
Proof.
  induction 1 as [|x l l' Hp IH|x y l|l l' l'' _ IH1 _ IH2]; [done|..].
  - rewrite !pairwise_cons. intros [Hx Hl]. split; [by rewrite <-Hp|auto].
  - rewrite !pairwise_cons, !Forall_cons. tauto.
  - auto.
Qed.

End Pairwise.

Lemma StronglySorted_pairwise {A} (P : A -> A -> Prop) l :
  StronglySorted P l -> pairwise (λ x y, P x y \/ P y x) l.
Proof.
  induction 1 as [|x l _ IH Hx]; [by intros i j ?? _ ?|].
  apply pairwise_cons. split; [|done].
  eapply Forall_impl; [exact Hx|]. simpl. tauto.
Qed.

(** A pairwise property of a concrete list, decided by computation. *)
Ltac pairwise_concrete :=
  repeat (apply pairwise_cons; split;
          [rewrite ?Forall_cons, ?Forall_nil; split_and?; try done;
           vm_compute; intros; lia|]);
  apply pairwise_nil.


(** ** The chain of edges *)

Lemma chained_bounds a ts e :
  chained a ts e = true -> Forall wfToken ts ->
  a <= e /\ Forall (λ t, a <= startCharacter t /\ endCharacter t <= e) ts.
Proof.
  revert a. induction ts as [|t ts IH]; intros a; simpl.
  - intros ?%Nat.leb_le _. auto.
  - intros [Ha%Nat.leb_le Hc]%andb_true_iff [Ht Hts]%Forall_cons.
    destruct (IH _ Hc Hts) as [He Hall]. unfold wfToken in Ht.
    split; [lia|]. constructor; [lia|].
    eapply Forall_impl; [exact Hall|]. simpl. lia.
Qed.

Lemma chained_sorted a ts e :
  chained a ts e = true -> Forall wfToken ts -> StronglySorted endsBefore ts.
Proof.
  revert a. induction ts as [|t ts IH]; intros a; simpl; [constructor|].
  intros [_ Hc]%andb_true_iff [Ht Hts]%Forall_cons.
  constructor; [eauto|].
  destruct (chained_bounds _ _ _ Hc Hts) as [_ Hall].
  eapply Forall_impl; [exact Hall|]. unfold endsBefore. simpl. lia.
Qed.

Lemma chained_intro a ts e :
  a <= e ->
  Forall (λ t, a <= startCharacter t /\ wfToken t /\ endCharacter t <= e) ts ->
  StronglySorted endsBefore ts ->
  chained a ts e = true.
Proof.
  revert a. induction ts as [|t ts IH]; intros a Hae; simpl.
  - intros _ _. by apply Nat.leb_le.
  - intros [(Ha & Hw & He) Hts]%Forall_cons [Hs Ht]%StronglySorted_inv.
    apply andb_true_iff. split; [by apply Nat.leb_le|].
    apply IH; [done| |done].
    rewrite Forall_forall in Hts, Ht |- *. intros y Hy.
    specialize (Hts y Hy). specialize (Ht y Hy). unfold endsBefore in Ht. tauto.
Qed.

(** Sorted by start, pairwise apart and free of ties: each range ends before
    the next one starts. *)
Lemma sorted_apart_endsBefore (ts : list ITokenRange) :
  Forall wfToken ts ->
  StronglySorted (keyLe startCharacter) ts ->
  pairwise (λ a b : ITokenRange,
              nonOverlapping (range a) (range b) /\ tieFree (range a) (range b)) ts ->
  StronglySorted endsBefore ts.
Proof.
  induction ts as [|t ts IH]; [constructor|].
  intros [Ht Hts]%Forall_cons [Hs Hle]%StronglySorted_inv [Hp Hpw]%pairwise_cons.
  constructor; [auto|].
  rewrite Forall_forall in Hts, Hle, Hp |- *. intros y Hy.
  specialize (Hts y Hy). specialize (Hle y Hy). destruct (Hp y Hy) as [[Hno Htie] _].
  unfold endsBefore, keyLe, wfToken, nonOverlapping, tieFree, zeroWidth,
    startCharacter, endCharacter in *.
  destruct Hno as [?|?]; [done|]. lia.
Qed.

Lemma pairwise_and {A} (P Q : A -> A -> Prop) l :
  pairwise P l -> pairwise Q l -> pairwise (λ x y, P x y /\ Q x y) l.
Proof. intros HP HQ i j x y ???. split; [eapply HP|eapply HQ]; eauto. Qed.

Lemma pairwise_Forall {A} (W : A -> Prop) (P : A -> A -> Prop) l :
  Forall W l -> pairwise P l -> pairwise (λ x y, W x /\ W y /\ P x y) l.
Proof.
  rewrite Forall_lookup. intros HW HP i j x y ? Hi Hj.
  split_and!; [by eapply HW|by eapply HW|by eapply HP].
Qed.



(** ** Coverage of the line *)






Lemma gaps_shape ln a ts e :
  chained a ts e = true -> Forall wfToken ts ->
  Forall (λ v, line (start v) = ln /\ line (end_ v) = ln /\
               a <= character (start v) /\ character (start v) < character (end_ v) /\
               character (end_ v) <= e) (gaps ln a ts e).
Proof.
  assert (forall x y, x <= y ->
    Forall (λ v, line (start v) = ln /\ line (end_ v) = ln /\
               x <= character (start v) /\ character (start v) < character (end_ v) /\
               character (end_ v) <= y) (segment ln x y)) as Hseg.
  { intros x y Hxy. unfold segment. destruct (Nat.eqb_spec x y); [constructor|].
    repeat constructor; simpl; lia. }
  revert a. induction ts as [|t ts IH]; intros a Hc Hw.
  - simpl in *. apply Hseg. by apply Nat.leb_le.
  - pose proof (chained_bounds _ _ _ Hc Hw) as [Hae [[Hat Hte] _]%Forall_cons].
    simpl in Hc. apply andb_true_iff in Hc as [_ Hc].
    apply Forall_cons in Hw as [Ht Hw]. unfold wfToken in Ht.
    simpl. apply Forall_app. split.
    + eapply Forall_impl; [apply Hseg; lia|]. simpl. lia.
    + eapply Forall_impl; [apply IH; done|]. simpl. lia.
Qed.

Lemma gaps_sorted ln a ts e :
  chained a ts e = true -> Forall wfToken ts ->
  StronglySorted (λ v w, character (end_ v) <= character (start w)) (gaps ln a ts e).
Proof.
  assert (forall x y, StronglySorted (λ v w, character (end_ v) <= character (start w))
                        (segment ln x y)) as Hseg.
  { intros x y. unfold segment. destruct (x =? y); repeat constructor. }
  revert a. induction ts as [|t ts IH]; intros a Hc Hw; simpl; [apply Hseg|].
  pose proof (chained_bounds _ _ _ Hc Hw) as [Hae [[Hat Hte] _]%Forall_cons].
  simpl in Hc. apply andb_true_iff in Hc as [_ Hc].
  apply Forall_cons in Hw as [Ht Hw]. unfold wfToken in Ht.
  pose proof (gaps_shape ln _ _ _ Hc Hw) as Hsh.
  unfold segment. destruct (a =? startCharacter t); simpl; [by apply IH|].
  constructor; [by apply IH|].
  eapply Forall_impl; [exact Hsh|]. simpl. lia.
Qed.

Lemma gaps_apart ln a ts e :
  chained a ts e = true -> Forall wfToken ts ->
  Forall (λ v, Forall (λ t : ITokenRange, nonOverlapping v (range t)) ts) (gaps ln a ts e).
Proof.
  revert a. induction ts as [|t ts IH]; intros a Hc Hw.
  - apply Forall_forall. intros; constructor.
  - pose proof (chained_bounds _ _ _ Hc Hw) as [Hae [[Hat Hte] _]%Forall_cons].
    simpl in Hc. apply andb_true_iff in Hc as [_ Hc].
    apply Forall_cons in Hw as [Ht Hw]. unfold wfToken in Ht.
    pose proof (gaps_shape ln _ _ _ Hc Hw) as Hsh.
    pose proof (chained_bounds _ _ _ Hc Hw) as [_ Hb].
    simpl. apply Forall_app. split.
    + unfold segment. destruct (a =? startCharacter t); constructor; [|constructor].
      constructor; [left; done|].
      eapply Forall_impl; [exact Hb|]. intros y [? ?]. left. simpl.
      unfold startCharacter, endCharacter in *. lia.
    + specialize (IH _ Hc Hw).
      rewrite Forall_forall in IH, Hsh |- *. intros v Hv.
      constructor; [|by apply IH].
      right. specialize (Hsh v Hv). unfold endCharacter in *. lia.
Qed.


(** ** The contract of [excludeLineRanges] *)

Lemma contained_tokens l (ts : list ITokenRange) :
  Forall (λ t : ITokenRange, Range_wf (range t)) ts ->
  Forall (λ t : ITokenRange, contains (lineRange l) (range t) = true) ts ->
  Forall (λ t, 0 <= startCharacter t /\ wfToken t /\
               endCharacter t <= String.length (text l)) ts.
Proof.
  rewrite !Forall_forall. intros Hw Hc t Ht.
  destruct (contains_lineRange l (range t)) as (_ & _ & ?); [auto..|].
  unfold wfToken, startCharacter, endCharacter. lia.
Qed.

Lemma contained_wfToken l (ts : list ITokenRange) :
  Forall (λ t : ITokenRange, Range_wf (range t)) ts ->
  Forall (λ t : ITokenRange, contains (lineRange l) (range t) = true) ts ->
  Forall wfToken ts.
Proof.
  intros Hw Hc. eapply Forall_impl; [by apply (contained_tokens l)|]. simpl. tauto.
Qed.

Lemma sorted_chained l (ts : list ITokenRange) :
  Forall (λ t : ITokenRange, Range_wf (range t)) ts ->
  Forall (λ t : ITokenRange, contains (lineRange l) (range t) = true) ts ->
  pairwise (λ a b : ITokenRange, nonOverlapping (range a) (range b)) ts ->
  pairwise (λ a b : ITokenRange, tieFree (range a) (range b)) ts ->
  chained 0 (sort byStartCharacter ts) (String.length (text l)) = true.
Proof.
  intros Hw Hc Hno Htie.
  pose proof (contained_tokens l ts Hw Hc) as Hb.
  apply chained_intro; [lia|by rewrite sort_perm|].
  apply sorted_apart_endsBefore.
  - rewrite sort_perm. eapply Forall_impl; [exact Hb|]. simpl. tauto.
  - apply (sort_sorted startCharacter).
  - eapply pairwise_perm; [symmetry; apply sort_perm|]. by apply pairwise_and.
Qed.


(** C7: with well-formed ranges, an excluded range that is not contained in
    the range of the line makes the call fail with [RangeBeyondLine]; when
    all are contained and two of them overlap, it fails with
    [RangeIntersection].  Neither case returns a success value. *)
Theorem excludeLineRanges_rejects (l : TextLine) (ts : list ITokenRange) :
  Forall (λ t : ITokenRange, Range_wf (range t)) ts ->
  (Exists (λ t : ITokenRange, contains (lineRange l) (range t) = false) ts ->
     (excludeLineRanges l ts).2 = error RangeBeyondLine)
  /\ (Forall (λ t : ITokenRange, contains (lineRange l) (range t) = true) ts ->
      (exists i j (x y : ITokenRange),
          i <> j /\ ts !! i = Some x /\ ts !! j = Some y /\
          overlapping (range x) (range y)) ->
      (excludeLineRanges l ts).2 = error RangeIntersection).
Proof.
  intros Hw. split.
  - intros Hex. rewrite excludeLineRanges_beyond; [done|].
    intros Hall. apply Exists_exists in Hex as (t & Ht & Hf).
    rewrite Forall_forall in Hall. specialize (Hall t Ht). congruence.
  - intros Hc (i & j & x & y & Hij & Hi & Hj & Hov).
    rewrite excludeLineRanges_contained by by apply forallb_contained.
    cbn [snd]. destruct (chained _ _ _) eqn:Hch; [exfalso|done].
    apply chained_sorted in Hch;
      [|rewrite sort_perm; by apply (contained_wfToken l)].
    apply StronglySorted_pairwise in Hch.
    eapply pairwise_perm in Hch; [|apply sort_perm].
    specialize (Hch i j x y Hij Hi Hj).
    unfold endsBefore, overlapping, startCharacter, endCharacter in *. lia.
Qed.

Lemma excludeLineRanges_rejects_witness :
  (excludeLineRanges (mkTextLine 0 "int32 id = 1;")
     [lineToken (mkTextLine 0 "int32 id = 1;") 6 20]).2 = error RangeBeyondLine
  /\ (excludeLineRanges (mkTextLine 0 "int32 id = 1;")
        [lineToken (mkTextLine 0 "int32 id = 1;") 2 9;
         lineToken (mkTextLine 0 "int32 id = 1;") 0 5]).2 = error RangeIntersection.
Proof.
  split.
  - apply excludeLineRanges_rejects.
    + repeat constructor.
    + apply Exists_cons_hd. reflexivity.
  - apply excludeLineRanges_rejects.
    + repeat constructor.
    + repeat constructor.
    + exists 0, 1, (lineToken (mkTextLine 0 "int32 id = 1;") 2 9),
        (lineToken (mkTextLine 0 "int32 id = 1;") 0 5).
      repeat split; try done; vm_compute; lia.
Defined.




(** ** The matcher *)

Lemma length_chars s : length (chars s) = String.length s.
Proof. unfold chars. induction s; simpl; congruence. Qed.

(** A successful match hands an offset between the start and the end of the
    text to its continuation. *)
Lemma repeatMatcher_bounds (m : nat -> Continuation -> option nat) (n : nat) :
  (forall i k e, m i k = Some e -> exists j, i <= j <= Nat.max i n /\ k j = Some e) ->
  forall fuel i k e,
    repeatMatcher m k fuel i = Some e ->
    exists j, i <= j <= Nat.max i n /\ k j = Some e.
Proof.
  intros Hm. induction fuel as [|fuel IH]; intros i k e; simpl.
  - intros Hk. exists i. split; [lia|done].
  - destruct (m i _) as [e'|] eqn:Hmi.
    + intros [= ->]. apply Hm in Hmi as (j & Hj & Hk).
      destruct (Nat.ltb_spec i j); [|done].
      apply IH in Hk as (j' & Hj' & Hk). exists j'. split; [lia|done].
    + intros Hk. exists i. split; [lia|done].
Qed.

Lemma matcher_bounds r s i k e :
  matcher r s i k = Some e ->
  exists j, i <= j <= Nat.max i (length s) /\ k j = Some e.
Proof.
  revert i k e. induction r as [|c|neg items|r1 IH1 r2 IH2|r1 IH1 r2 IH2|r IH| |];
    intros i k e; cbn [matcher].
  - intros Hk. exists i. split; [lia|done].
  - destruct (s !! i) as [c'|] eqn:Hi; [|done].
    apply lookup_lt_Some in Hi. destruct (Ascii.eqb c c'); [|done].
    intros Hk. exists (S i). split; [lia|done].
  - destruct (s !! i) as [c'|] eqn:Hi; [|done].
    apply lookup_lt_Some in Hi. destruct (inClass neg items c'); [|done].
    intros Hk. exists (S i). split; [lia|done].
  - intros (j & Hj & (j' & Hj' & Hk)%IH2)%IH1. exists j'. split; [lia|done].
  - destruct (matcher r1 s i k) as [e'|] eqn:H1.
    + intros [= ->]. by apply IH1.
    + apply IH2.
  - apply repeatMatcher_bounds. intros i' k' e'. apply IH.
  - destruct (i =? 0); [|done]. intros Hk. exists i. split; [lia|done].
  - destruct (i =? length s); [|done]. intros Hk. exists i. split; [lia|done].
Qed.

(** The matcher consults its continuation only between the start and the
    end of the text. *)
Lemma repeatMatcher_ext (m : nat -> Continuation -> option nat) (n : nat) :
  (forall i k k', (forall j, i <= j <= Nat.max i n -> k j = k' j) -> m i k = m i k') ->
  forall fuel i k k',
    (forall j, i <= j <= Nat.max i n -> k j = k' j) ->
    repeatMatcher m k fuel i = repeatMatcher m k' fuel i.
Proof.
  intros Hm. induction fuel as [|fuel IH]; intros i k k' Hk; simpl.
  - apply Hk. lia.
  - rewrite (Hm i _ (λ j, if i <? j then repeatMatcher m k' fuel j else None)).
    + rewrite (Hk i) by lia. done.
    + intros j Hj. destruct (Nat.ltb_spec i j); [|done].
      apply IH. intros j' Hj'. apply Hk. lia.
Qed.

Lemma matcher_ext r s i k k' :
  (forall j, i <= j <= Nat.max i (length s) -> k j = k' j) ->
  matcher r s i k = matcher r s i k'.
Proof.
  revert i k k'. induction r as [|c|neg items|r1 IH1 r2 IH2|r1 IH1 r2 IH2|r IH| |];
    intros i k k' Hk; cbn [matcher].
  - apply Hk. lia.
  - destruct (s !! i) as [c'|] eqn:Hi; [|done].
    apply lookup_lt_Some in Hi. destruct (Ascii.eqb c c'); [|done]. apply Hk. lia.
  - destruct (s !! i) as [c'|] eqn:Hi; [|done].
    apply lookup_lt_Some in Hi. destruct (inClass neg items c'); [|done]. apply Hk. lia.
  - apply IH1. intros j Hj. apply IH2. intros j' Hj'. apply Hk. lia.
  - rewrite (IH1 i k k' Hk), (IH2 i k k' Hk). done.
  - apply repeatMatcher_ext with (n := length s); [|done].
    intros i' k1 k2. apply IH.
  - destruct (i =? 0); [|done]. apply Hk. lia.
  - destruct (i =? length s); [|done]. apply Hk. lia.
Qed.

(** The fuel of the star is never used up: more fuel changes nothing. *)
Lemma repeatMatcher_fuel r s k fuel fuel' i :
  length s - i < fuel -> length s - i < fuel' ->
  repeatMatcher (matcher r s) k fuel i = repeatMatcher (matcher r s) k fuel' i.
Proof.
  revert fuel' i. induction fuel as [|fuel IH]; intros fuel' i Hf Hf'; [lia|].
  destruct fuel' as [|fuel']; [lia|]. simpl.
  rewrite (matcher_ext r s i _ (λ j, if i <? j then repeatMatcher (matcher r s) k fuel' j else None));
    [done|].
  intros j Hj. destruct (Nat.ltb_spec i j); [|done]. apply IH; lia.
Qed.

Lemma matcher_Star_fuel r s i k fuel :
  length s - i < fuel ->
  repeatMatcher (matcher r s) k fuel i = matcher (Star r) s i k.
Proof. intros Hf. cbn [matcher]. apply repeatMatcher_fuel; lia. Qed.

(** ** The search *)

Lemma searchFrom_Some r s i fuel j e :
  searchFrom r s i fuel = Some (j, e) ->
  i <= j <= i + fuel /\ matcher r s j Some = Some e /\
  forall j', i <= j' < j -> matcher r s j' Some = None.
Proof.
  revert i. induction fuel as [|fuel IH]; intros i; simpl.
  - destruct (matcher r s i Some) eqn:Hm; [|done].
    intros [= <- <-]. split_and!; [lia..|done|intros; lia].
  - destruct (matcher r s i Some) eqn:Hm.
    + intros [= <- <-]. split_and!; [lia..|done|intros; lia].
    + intros (Hj & He & Hn)%IH. split_and!; [lia..|done|].
      intros j' Hj'. destruct (decide (j' = i)) as [->|]; [done|]. apply Hn. lia.
Qed.

Lemma searchFrom_None r s i fuel :
  searchFrom r s i fuel = None ->
  forall j, i <= j <= i + fuel -> matcher r s j Some = None.
Proof.
  revert i. induction fuel as [|fuel IH]; intros i; simpl.
  - destruct (matcher r s i Some) eqn:Hm; [done|].
    intros _ j Hj. by replace j with i by lia.
  - destruct (matcher r s i Some) eqn:Hm; [done|].
    intros Hn j Hj. destruct (decide (j = i)) as [->|]; [done|].
    apply (IH _ Hn). lia.
Qed.

Lemma searchFrom_found r s i fuel j e :
  i <= j <= i + fuel -> matcher r s j Some = Some e ->
  (forall j', i <= j' < j -> matcher r s j' Some = None) ->
  searchFrom r s i fuel = Some (j, e).
Proof.
  revert i. induction fuel as [|fuel IH]; intros i Hj He Hn; simpl.
  - replace i with j by lia. by rewrite He.
  - destruct (decide (j = i)) as [->|Hne]; [by rewrite He|].
    rewrite Hn by lia. apply IH; [lia|done|]. intros; apply Hn; lia.
Qed.

(** [exec]: the match starts at or after [lastIndex] and lies in the text;
    no earlier offset from [lastIndex] on admits a match. *)
Lemma exec_Some r s lastIndex i e :
  exec r s lastIndex = Some (i, e) ->
  lastIndex <= i <= e /\ e <= length s /\ matcher r s i Some = Some e /\
  forall j, lastIndex <= j < i -> matcher r s j Some = None.
Proof.
  unfold exec. destruct (Nat.ltb_spec (length s) lastIndex); [done|].
  intros (Hi & He & Hn)%searchFrom_Some.
  destruct (matcher_bounds _ _ _ _ _ He) as (j & Hj & [= ->]).
  split_and!; [lia..|done|done].
Qed.

Lemma exec_None r s lastIndex :
  exec r s lastIndex = None ->
  forall j, lastIndex <= j <= length s -> matcher r s j Some = None.
Proof.
  unfold exec. destruct (Nat.ltb_spec (length s) lastIndex); [intros; lia|].
  intros Hn j Hj. apply (searchFrom_None _ _ _ _ Hn). lia.
Qed.

(** ** All the matches *)

Lemma matchAllFrom_inside r s lastIndex fuel :
  Forall (matchInside lastIndex (length s)) (matchAllFrom r s lastIndex fuel).
Proof.
  revert lastIndex. induction fuel as [|fuel IH]; intros lastIndex; simpl; [constructor|].
  destruct (exec r s lastIndex) as [[i e]|] eqn:Hx; [|constructor].
  apply exec_Some in Hx as (Hi & He & _).
  constructor; [unfold matchInside; simpl; lia|].
  eapply Forall_impl; [apply IH|]. unfold matchInside. intros [i' e'] ?; simpl in *.
  destruct (Nat.eqb_spec e i); lia.
Qed.

Lemma matchAllFrom_sorted r s lastIndex fuel :
  StronglySorted matchBefore (matchAllFrom r s lastIndex fuel).
Proof.
  revert lastIndex. induction fuel as [|fuel IH]; intros lastIndex; simpl; [constructor|].
  destruct (exec r s lastIndex) as [[i e]|] eqn:Hx; [|constructor].
  apply exec_Some in Hx as (Hi & He & _).
  constructor; [apply IH|].
  eapply Forall_impl; [apply matchAllFrom_inside|].
  unfold matchInside, matchBefore. intros [i' e'] ?; simpl in *.
  destruct (Nat.eqb_spec e i); lia.
Qed.

(** The fuel of [matchAll] is never used up. *)
Lemma matchAllFrom_fuel r s lastIndex fuel fuel' :
  S (length s) - lastIndex < fuel -> S (length s) - lastIndex < fuel' ->
  matchAllFrom r s lastIndex fuel = matchAllFrom r s lastIndex fuel'.
Proof.
  revert lastIndex fuel'. induction fuel as [|fuel IH]; intros lastIndex fuel' Hf Hf'; [lia|].
  destruct fuel' as [|fuel']; [lia|]. simpl.
  destruct (exec r s lastIndex) as [[i e]|] eqn:Hx; [|done].
  apply exec_Some in Hx as (Hi & He & _). f_equal.
  apply IH; destruct (Nat.eqb_spec e i); lia.
Qed.

Lemma matchAll_fuel r s lastIndex fuel :
  S (length s) < fuel -> matchAllFrom r s lastIndex fuel = matchAll r s lastIndex.
Proof. intros Hf. unfold matchAll. apply matchAllFrom_fuel; lia. Qed.

(** ** Line match search *)

Lemma pushMatches_zero found matches : pushMatches 0 found matches = matches.
Proof. induction found as [|m found IH]; simpl; done. Qed.

Lemma pushMatches_take limit found matches :
  (0 < limit)%Z -> (Z.of_nat (length matches) < limit)%Z ->
  pushMatches limit found matches
  = matches ++ take (Z.to_nat limit - length matches) found.
Proof.
  intros Hl. revert matches. induction found as [|m found IH]; intros matches Hm; simpl.
  - by rewrite take_nil, app_nil_r.
  - destruct (Z.eqb_spec limit 0); [lia|].
    rewrite length_app. simpl.
    destruct (Z.geb_spec (Z.of_nat (length matches + 1)) limit).
    + replace (Z.to_nat limit - length matches) with 1 by lia. done.
    + rewrite IH by (rewrite length_app; simpl; lia).
      rewrite length_app. simpl. rewrite <-app_assoc. simpl.
      replace (Z.to_nat limit - length matches)
        with (S (Z.to_nat limit - (length matches + 1))) by lia.
      done.
Qed.

(** What [matchRanges] returns: nothing for a limit of 0 or less, the first
    [limit] matches of the window otherwise. *)
Lemma matchRanges_eq line seekRange pattern lastIndex limit :
  matchRanges line seekRange pattern lastIndex limit
  = if decide (limit <= 0)%Z then []
    else take (Z.to_nat limit) (allMatches line seekRange pattern lastIndex).
Proof.
  unfold matchRanges, allMatches. case_decide as Hl.
  - destruct (Z.ltb_spec limit 0); [apply pushMatches_zero|].
    replace limit with 0%Z by lia. apply pushMatches_zero.
  - destruct (Z.ltb_spec limit 0); [lia|].
    rewrite pushMatches_take by (simpl; lia). simpl. by rewrite Nat.sub_0_r.
Qed.

Lemma matchAt_range line i e :
  i <= e ->
  range (matchAt line i e)
  = mkRange (mkPosition (lineNumber line) i) (mkPosition (lineNumber line) e).
Proof. intros Hie. simpl. by apply newRange4_ordered. Qed.

(** Every match of the window starts at or after both the start of the
    window and [lastIndex], and ends inside the window and the line. *)
Lemma allMatches_elem line seekRange pattern lastIndex m :
  m ∈ allMatches line seekRange pattern lastIndex ->
  exists i e,
    m = matchAt line i e
    /\ Nat.max (character (start seekRange)) lastIndex <= i <= e
    /\ e <= character (end_ seekRange) /\ e <= String.length (text line).
Proof.
  unfold allMatches, matchAll.
  intros ([i e] & -> & Hin)%list_elem_of_fmap.
  pose proof (matchAllFrom_inside pattern
    (take (character (end_ seekRange)) (chars (text line)))
    (Nat.max (character (start seekRange)) lastIndex)
    (S (S (length (take (character (end_ seekRange)) (chars (text line))))))) as Hall.
  rewrite Forall_forall in Hall. specialize (Hall _ Hin).
  unfold matchInside in Hall. rewrite length_take, length_chars in Hall. simpl in Hall.
  exists i, e. split; [done|]. lia.
Qed.

Lemma allMatches_sorted line seekRange pattern lastIndex :
  StronglySorted
    (λ m1 m2 : IMatchRange,
       character (start (range m1)) < character (start (range m2))
       /\ character (end_ (range m1)) <= character (start (range m2)))
    (allMatches line seekRange pattern lastIndex).
Proof.
  unfold allMatches, matchAll.
  set (s := take _ _). set (li := Nat.max _ _). set (fuel := S (S (length s))).
  pose proof (matchAllFrom_sorted pattern s li fuel) as Hs.
  pose proof (matchAllFrom_inside pattern s li fuel) as Hi.
  induction Hs as [|[i e] l Hs IH Hx]; [constructor|].
  apply Forall_cons in Hi as [[Hie _] Hi]. simpl in Hie.
  csimpl. constructor; [by apply IH|].
  rewrite Forall_fmap. rewrite Forall_forall in Hx, Hi |- *.
  intros [i' e'] Hin. specialize (Hx _ Hin). destruct (Hi _ Hin) as [Hie' _].
  unfold matchBefore in Hx. cbn [fst snd] in Hx, Hie'.
  unfold compose. rewrite !matchAt_range by lia. simpl. lia.
Qed.

Lemma StronglySorted_take {A} (R : A -> A -> Prop) n l :
  StronglySorted R l -> StronglySorted R (take n l).
Proof.
  intros Hs. revert n. induction Hs as [|x l Hs IH Hx]; intros [|n]; simpl;
    try constructor; [apply IH|].
  rewrite Forall_forall in Hx |- *. intros y Hy%subseteq_take. auto.
Qed.

Lemma matchRanges_sublist line seekRange pattern lastIndex limit m :
  m ∈ matchRanges line seekRange pattern lastIndex limit ->
  m ∈ allMatches line seekRange pattern lastIndex.
Proof.
  rewrite matchRanges_eq. case_decide; [by intros ?%elem_of_nil|].
  apply subseteq_take.
Qed.

Lemma matchRanges_elem line seekRange pattern lastIndex limit m :
  m ∈ matchRanges line seekRange pattern lastIndex limit ->
  exists i e,
    m = matchAt line i e
    /\ Nat.max (character (start seekRange)) lastIndex <= i <= e
    /\ e <= character (end_ seekRange) /\ e <= String.length (text line).
Proof. intros Hm. eapply allMatches_elem, matchRanges_sublist, Hm. Qed.

(** With a positive limit: at most [limit] matches, the leftmost ones of the
    window, each inside the window, in left-to-right order. *)
Lemma matchRanges_limited l seekRange pattern lastIndex limit :
  (0 < limit)%Z ->
  (Z.of_nat (length (matchRanges l seekRange pattern lastIndex limit)) <= limit)%Z
  /\ matchRanges l seekRange pattern lastIndex limit
     = take (Z.to_nat limit) (allMatches l seekRange pattern lastIndex)
  /\ Forall (λ m : IMatchRange,
       line (start (range m)) = lineNumber l
       /\ line (end_ (range m)) = lineNumber l
       /\ Nat.max (character (start seekRange)) lastIndex <= character (start (range m))
       /\ character (start (range m)) <= character (end_ (range m))
       /\ character (end_ (range m)) <= character (end_ seekRange))
       (matchRanges l seekRange pattern lastIndex limit)
  /\ StronglySorted
       (λ m1 m2 : IMatchRange,
          character (start (range m1)) < character (start (range m2))
          /\ character (end_ (range m1)) <= character (start (range m2)))
       (matchRanges l seekRange pattern lastIndex limit).
Proof.
  intros Hl. split_and!.
  - rewrite matchRanges_eq. case_decide; [lia|]. rewrite length_take. lia.
  - rewrite matchRanges_eq. by case_decide; [lia|].
  - apply Forall_forall. intros m (i & e & -> & Hi & He & _)%matchRanges_elem.
    rewrite matchAt_range by lia. simpl. lia.
  - rewrite matchRanges_eq. case_decide; [lia|].
    apply StronglySorted_take, allMatches_sorted.
Qed.

(** C8 at a limit of 0: the call returns no match at all, whatever the line,
    the window, the pattern and the starting offset are, where the
    specification has a limit of 0 mean every match.  On the line [string foo] the window holds two
    identifiers; a limit of 5 returns both, a limit of 0 none. *)
Theorem matchRanges_limit_zero :
  (forall line seekRange pattern lastIndex,
     matchRanges line seekRange pattern lastIndex 0 = [])
  /\ allMatches (mkTextLine 0 "string foo") (lineRange (mkTextLine 0 "string foo"))
       IDENTIFIER 0
     = [matchAt (mkTextLine 0 "string foo") 0 6; matchAt (mkTextLine 0 "string foo") 7 10]
  /\ matchRanges (mkTextLine 0 "string foo") (lineRange (mkTextLine 0 "string foo"))
       IDENTIFIER 0 5
     = [matchAt (mkTextLine 0 "string foo") 0 6; matchAt (mkTextLine 0 "string foo") 7 10]
  /\ matchRanges (mkTextLine 0 "string foo") (lineRange (mkTextLine 0 "string foo"))
       IDENTIFIER 0 0 = [].
Proof.
  split_and!; [|reflexivity..].
  intros line seekRange pattern lastIndex. by rewrite matchRanges_eq.
Qed.

(** ** Words and patterns *)

Lemma chars_inj s1 s2 : chars s1 = chars s2 -> s1 = s2.
Proof.
  intros H. rewrite <-(String.string_of_list_ascii_of_string s1),
    <-(String.string_of_list_ascii_of_string s2). unfold chars in H. by rewrite H.
Qed.

Lemma chars_substring i n s :
  chars (String.substring i n s) = take n (drop i (chars s)).
Proof.
  revert i n. induction s as [|c s IH]; intros [|i] [|n]; simpl; try done.
  f_equal. apply (IH 0 n).
Qed.

Lemma occursAt_chars w s i :
  occursAt w s i <-> take (String.length w) (drop i (chars s)) = chars w.
Proof.
  unfold occursAt. rewrite <-chars_substring. split; [by intros ->|apply chars_inj].
Qed.

Lemma take_drop_cons {A} (l : list A) i n x w :
  take (S n) (drop i l) = x :: w <-> l !! i = Some x /\ take n (drop (S i) l) = w.
Proof.
  destruct (l !! i) as [y|] eqn:Hi.
  - rewrite (drop_S _ _ _ Hi). simpl. split.
    + by intros [= -> ->].
    + by intros [[= ->] ->].
  - rewrite drop_ge by by apply lookup_ge_None. simpl. split; [done|by intros [? _]].
Qed.

(** A literal pattern matches exactly where its word stands. *)
Lemma occursAt_cons c w s i :
  occursAt (String c w) s i <-> chars s !! i = Some c /\ occursAt w s (S i).
Proof.
  rewrite !occursAt_chars. cbn [String.length chars String.list_ascii_of_string].
  apply take_drop_cons.
Qed.

Lemma matcher_lit w s i k :
  matcher (lit w) (chars s) i k
  = if decide (occursAt w s i) then k (i + String.length w) else None.
Proof.
  revert i. induction w as [|c w IH]; intros i; cbn [lit matcher String.length].
  - rewrite Nat.add_0_r. case_decide as H; [done|].
    exfalso. apply H, occursAt_chars. done.
  - destruct (decide (occursAt (String c w) s i)) as [H|H].
    + apply occursAt_cons in H as [Hi H]. rewrite Hi.
      destruct (Ascii.eqb_spec c c); [|done].
      rewrite IH, decide_True by done. f_equal. lia.
    + destruct (chars s !! i) as [c'|] eqn:Hi; [|done].
      destruct (Ascii.eqb_spec c c') as [<-|Hne]; [|done].
      rewrite IH, decide_False; [done|].
      intros Hw. apply H, occursAt_cons. done.
Qed.





Lemma occursAt_bound w s j :
  occursAt w s j -> w <> "" -> j + String.length w <= String.length s.
Proof.
  intros H%occursAt_chars Hw. apply (f_equal length) in H.
  rewrite length_take, length_drop, !length_chars in H.
  destruct w as [|c w]; [done|]. cbn [String.length] in *. lia.
Qed.


Lemma exists_or_iff {A} (P Q : A -> Prop) :
  (exists j, P j \/ Q j) <-> (exists j, P j) \/ (exists j, Q j).
Proof.
  split.
  - intros [j [H|H]]; [left|right]; by exists j.
  - intros [[j H]|[j H]]; exists j; auto.
Qed.







(** ** The comment patterns *)

Lemma exec_found r s lastIndex i e :
  lastIndex <= i <= length s ->
  matcher r s i Some = Some e ->
  (forall j, lastIndex <= j < i -> matcher r s j Some = None) ->
  exec r s lastIndex = Some (i, e).
Proof.
  intros Hi He Hn. unfold exec.
  destruct (Nat.ltb_spec (length s) lastIndex); [lia|].
  apply searchFrom_found; [lia|done..].
Qed.

Lemma exec_not_found r s lastIndex :
  (forall j, lastIndex <= j <= length s -> matcher r s j Some = None) ->
  exec r s lastIndex = None.
Proof.
  intros Hn. destruct (exec r s lastIndex) as [[i e]|] eqn:Hx; [|done].
  apply exec_Some in Hx as (Hi & He & Hm & _).
  rewrite Hn in Hm by lia. done.
Qed.

Lemma matcher_COMMENT_OPEN s j :
  matcher COMMENT_OPEN (chars s) j Some
  = if decide (opensAt s j) then Some (j + 2) else None.
Proof.
  unfold COMMENT_OPEN, opensAt. cbn [matcher]. rewrite !matcher_lit.
  cbn [String.length].
  destruct (decide (occursAt "//" s j)), (decide (occursAt "/*" s j));
    case_decide; tauto.
Qed.

Lemma matcher_COMMENT_CLOSE s j :
  matcher COMMENT_CLOSE (chars s) j Some
  = if decide (occursAt "*/" s j) then Some (j + 2) else None.
Proof. unfold COMMENT_CLOSE. by rewrite matcher_lit. Qed.

Lemma opensAt_bound s i : opensAt s i -> i + 2 <= String.length s.
Proof. intros [H|H]; by apply (occursAt_bound _ _ _ H). Qed.

Lemma exec_COMMENT_OPEN_found s from i :
  firstOpener s from i -> exec COMMENT_OPEN (chars s) from = Some (i, i + 2).
Proof.
  intros (Hi & Ho & Hn). pose proof (opensAt_bound _ _ Ho).
  apply exec_found.
  - rewrite length_chars. lia.
  - by rewrite matcher_COMMENT_OPEN, decide_True.
  - intros j Hj. rewrite matcher_COMMENT_OPEN, decide_False; [done|by apply Hn].
Qed.

Lemma exec_COMMENT_OPEN_none s from :
  noOpener s from -> exec COMMENT_OPEN (chars s) from = None.
Proof.
  intros Hn. apply exec_not_found. intros j Hj.
  rewrite matcher_COMMENT_OPEN, decide_False; [done|apply Hn; lia].
Qed.

Lemma exec_COMMENT_CLOSE_found s from i :
  firstCloser s from i -> exec COMMENT_CLOSE (chars s) from = Some (i, i + 2).
Proof.
  intros (Hi & Ho & Hn).
  assert (i + 2 <= String.length s) by by apply (occursAt_bound _ _ _ Ho).
  apply exec_found.
  - rewrite length_chars. lia.
  - by rewrite matcher_COMMENT_CLOSE, decide_True.
  - intros j Hj. rewrite matcher_COMMENT_CLOSE, decide_False; [done|by apply Hn].
Qed.

Lemma exec_COMMENT_CLOSE_none s from :
  noCloser s from -> exec COMMENT_CLOSE (chars s) from = None.
Proof.
  intros Hn. apply exec_not_found. intros j Hj.
  rewrite matcher_COMMENT_CLOSE, decide_False; [done|apply Hn; lia].
Qed.

(** What a match of the opening pattern is: one of the two openers, two
    characters long, the first one from [from] on. *)
Lemma exec_COMMENT_OPEN_Some s from i e :
  exec COMMENT_OPEN (chars s) from = Some (i, e) ->
  e = i + 2 /\ firstOpener s from i.
Proof.
  intros (Hi & He & Hm & Hn)%exec_Some.
  rewrite matcher_COMMENT_OPEN in Hm. case_decide as Ho; [|done].
  injection Hm as <-. split; [done|]. split_and!; [lia|done|].
  intros j Hj Hoj. specialize (Hn j Hj).
  by rewrite matcher_COMMENT_OPEN, decide_True in Hn.
Qed.

Lemma exec_COMMENT_CLOSE_Some s from i e :
  exec COMMENT_CLOSE (chars s) from = Some (i, e) ->
  e = i + 2 /\ firstCloser s from i.
Proof.
  intros (Hi & He & Hm & Hn)%exec_Some.
  rewrite matcher_COMMENT_CLOSE in Hm. case_decide as Ho; [|done].
  injection Hm as <-. split; [done|]. split_and!; [lia|done|].
  intros j Hj Hoj. specialize (Hn j Hj).
  by rewrite matcher_COMMENT_CLOSE, decide_True in Hn.
Qed.

(** ** The comment scanner *)

Section LineComments.
Context (this : TokenMap.t) (v : LineCommentsLoop).
Let txt := text (TokenMap.line this).

Lemma _lineComments_body_line_comment i :
  commentClosed v = true ->
  firstOpener txt (localLastIndex v) i -> occursAt "//" txt i ->
  TokenMap._lineComments_body this v
  = Return (success {[ Comment :=
      ranges v ++ [TokenMap.commentToEnd this i true] ]}).
Proof.
  intros Hc Hf Ho. unfold TokenMap._lineComments_body. rewrite Hc.
  fold txt. rewrite (exec_COMMENT_OPEN_found _ _ _ Hf). cbn [negb].
  replace (i + 2 - i) with 2 by lia.
  unfold occursAt in Ho. cbn [String.length] in Ho. by rewrite Ho.
Qed.

Lemma _lineComments_body_block_open i :
  commentClosed v = true ->
  firstOpener txt (localLastIndex v) i -> occursAt "/*" txt i ->
  TokenMap._lineComments_body this v
  = Continue (mkLineCommentsLoop false (i + 2) i (ranges v)).
Proof.
  intros Hc Hf Ho. unfold TokenMap._lineComments_body. rewrite Hc.
  fold txt. rewrite (exec_COMMENT_OPEN_found _ _ _ Hf). cbn [negb].
  replace (i + 2 - i) with 2 by lia.
  unfold occursAt in Ho. cbn [String.length] in Ho. by rewrite Ho.
Qed.

Lemma _lineComments_body_no_opener :
  commentClosed v = true -> noOpener txt (localLastIndex v) ->
  TokenMap._lineComments_body this v = Return (success {[ Comment := ranges v ]}).
Proof.
  intros Hc Hn. unfold TokenMap._lineComments_body. rewrite Hc.
  fold txt. by rewrite (exec_COMMENT_OPEN_none _ _ Hn).
Qed.

Lemma _lineComments_body_still_open :
  commentClosed v = false -> noCloser txt (localLastIndex v) ->
  TokenMap._lineComments_body this v
  = Return (success {[ Comment :=
      ranges v ++ [TokenMap.commentToEnd this (commentOpenIndex v) false] ]}).
Proof.
  intros Hc Hn. unfold TokenMap._lineComments_body. rewrite Hc.
  fold txt. by rewrite (exec_COMMENT_CLOSE_none _ _ Hn).
Qed.

Lemma _lineComments_body_block_close j :
  commentClosed v = false -> firstCloser txt (localLastIndex v) j ->
  TokenMap._lineComments_body this v
  = Continue (mkLineCommentsLoop true (j + 2) (commentOpenIndex v)
      (ranges v ++ [TokenMap.commentBetween this (commentOpenIndex v) (j + 2)])).
Proof.
  intros Hc Hf. unfold TokenMap._lineComments_body. rewrite Hc.
  fold txt. by rewrite (exec_COMMENT_CLOSE_found _ _ _ Hf).
Qed.

(** A round that goes on moves the offset forward, inside the line. *)
Lemma _lineComments_body_Continue v' :
  TokenMap._lineComments_body this v = Continue v' ->
  localLastIndex v < localLastIndex v' <= String.length txt.
Proof.
  unfold TokenMap._lineComments_body. fold txt.
  destruct (commentClosed v) eqn:Hc; cbn [negb].
  - destruct (exec _ _ _) as [[i e]|] eqn:Hx; [|done].
    apply exec_COMMENT_OPEN_Some in Hx as [-> (Hi & Ho%opensAt_bound & _)].
    repeat case_match; try done. intros [= <-]. simpl. lia.
  - destruct (exec _ _ _) as [[i e]|] eqn:Hx; [|done].
    apply exec_COMMENT_CLOSE_Some in Hx as [-> (Hi & Ho & _)].
    assert (i + 2 <= String.length txt) by by apply (occursAt_bound _ _ _ Ho).
    intros [= <-]. simpl. lia.
Qed.

(** The pattern of the openers matches nothing but the two openers: the
    scanner never reports [UnexpectedCommentOpen]. *)
Lemma _lineComments_body_no_error e :
  TokenMap._lineComments_body this v <> Return (error e).
Proof.
  unfold TokenMap._lineComments_body. fold txt.
  destruct (commentClosed v) eqn:Hc; cbn [negb].
  - destruct (exec _ _ _) as [[i e']|] eqn:Hx; [|done].
    apply exec_COMMENT_OPEN_Some in Hx as [-> (Hi & [Ho|Ho] & _)];
      unfold occursAt in Ho; cbn [String.length] in Ho;
      replace (i + 2 - i) with 2 by lia; by rewrite Ho.
  - by destruct (exec _ _ _) as [[i e']|].
Qed.

End LineComments.

(** The fuel of the scanner is never used up. *)
Lemma _lineComments_fuel fuel fuel' this v :
  String.length (text (TokenMap.line this)) - localLastIndex v < fuel ->
  String.length (text (TokenMap.line this)) - localLastIndex v < fuel' ->
  TokenMap._lineComments_loop fuel this v = TokenMap._lineComments_loop fuel' this v.
Proof.
  revert fuel' v. induction fuel as [|fuel IH]; intros fuel' v Hf Hf'; [lia|].
  destruct fuel' as [|fuel']; [lia|]. simpl.
  destruct (TokenMap._lineComments_body this v) as [v'|r] eqn:Hb; [|done].
  apply _lineComments_body_Continue in Hb. apply IH; lia.
Qed.

Lemma _lineComments_more_fuel fuel this commentClosed :
  String.length (text (TokenMap.line this)) < fuel ->
  TokenMap._lineComments_loop fuel this
    (mkLineCommentsLoop commentClosed (TokenMap.lastIndex this) 0 [])
  = TokenMap._lineComments this commentClosed.
Proof. intros Hf. unfold TokenMap._lineComments. apply _lineComments_fuel; simpl; lia. Qed.

Lemma _lineComments_loop_no_error fuel this v e :
  TokenMap._lineComments_loop fuel this v <> error e.
Proof.
  revert v. induction fuel as [|fuel IH]; intros v; simpl; [done|].
  destruct (TokenMap._lineComments_body this v) as [v'|r] eqn:Hb; [apply IH|].
  intros ->. by apply _lineComments_body_no_error in Hb.
Qed.

Lemma noOpener_exec s from :
  exec COMMENT_OPEN (chars s) from = None -> noOpener s from.
Proof.
  intros Hx j Hj Ho. pose proof (opensAt_bound _ _ Ho).
  pose proof (exec_None _ _ _ Hx j) as Hm. rewrite length_chars in Hm.
  rewrite matcher_COMMENT_OPEN, decide_True in Hm by done.
  by specialize (Hm ltac:(lia)).
Qed.

Lemma noCloser_exec s from :
  exec COMMENT_CLOSE (chars s) from = None -> noCloser s from.
Proof.
  intros Hx j Hj Ho.
  assert (j + 2 <= String.length s) by by apply (occursAt_bound _ _ _ Ho).
  pose proof (exec_None _ _ _ Hx j) as Hm. rewrite length_chars in Hm.
  rewrite matcher_COMMENT_CLOSE, decide_True in Hm by done.
  by specialize (Hm ltac:(lia)).
Qed.

Lemma contains_lineRange_span l a b :
  a <= b <= String.length (text l) ->
  contains (lineRange l)
    (mkRange (mkPosition (lineNumber l) a) (mkPosition (lineNumber l) b)) = true.
Proof.
  intros Hab. unfold contains, containsPosition, lineRange. cbn [start end_].
  rewrite !isBefore_same_line.
  repeat case_bool_decide; done || lia.
Qed.

Lemma commentBetween_range this a b :
  a <= b ->
  range (TokenMap.commentBetween this a b)
  = mkRange (mkPosition (lineNumber (TokenMap.line this)) a)
            (mkPosition (lineNumber (TokenMap.line this)) b).
Proof. intros Hab. simpl. by apply newRange4_ordered. Qed.

Lemma commentToEnd_range this a c :
  a <= String.length (text (TokenMap.line this)) ->
  range (TokenMap.commentToEnd this a c)
  = mkRange (mkPosition (lineNumber (TokenMap.line this)) a)
            (mkPosition (lineNumber (TokenMap.line this))
               (String.length (text (TokenMap.line this)))).
Proof. intros Ha. simpl. by apply newRange4_ordered. Qed.


Lemma _parseCurrentLineComments_success this commentClosed cs :
  TokenMap._lineComments this commentClosed = success {[ Comment := cs ]} ->
  TokenMap._parseCurrentLineComments this commentClosed
  = (success (mkLineComments
                (match last cs with Some c => closed c | None => commentClosed end) cs),
     TokenMap.upsert this {[ Comment := cs ]}).
Proof.
  intros H. unfold TokenMap._parseCurrentLineComments. rewrite H.
  by rewrite lookup_singleton_eq.
Qed.

Lemma _lineComments_body_shape this v r :
  TokenMap._lineComments_body this v = Return r ->
  exists cs, r = success {[ Comment := cs ]}.
Proof.
  intros Hb. destruct r as [value|e]; [|by apply _lineComments_body_no_error in Hb].
  revert Hb. unfold TokenMap._lineComments_body.
  repeat case_match; intros ?; simplify_eq; by eexists.
Qed.

Lemma _lineComments_shape this commentClosed :
  exists cs, TokenMap._lineComments this commentClosed = success {[ Comment := cs ]}.
Proof.
  unfold TokenMap._lineComments.
  generalize (mkLineCommentsLoop commentClosed (TokenMap.lastIndex this) 0 []).
  generalize (S (String.length (text (TokenMap.line this)))).
  intros fuel. induction fuel as [|fuel IH]; intros v; simpl; [by eexists|].
  destruct (TokenMap._lineComments_body this v) as [v'|r] eqn:Hb; [apply IH|].
  by apply _lineComments_body_shape in Hb.
Qed.

Lemma _parseCurrentLineComments_shape this commentClosed :
  exists cs closed',
    TokenMap._parseCurrentLineComments this commentClosed
    = (success (mkLineComments closed' cs), TokenMap.upsert this {[ Comment := cs ]}).
Proof.
  destruct (_lineComments_shape this commentClosed) as [cs Hcs].
  exists cs. eexists. by apply _parseCurrentLineComments_success.
Qed.



(** ** The comments of a line and range exclusion *)

Lemma StronglySorted_snoc {A} (R : A -> A -> Prop) l x :
  StronglySorted R l -> Forall (λ y, R y x) l -> StronglySorted R (l ++ [x]).
Proof.
  induction 1 as [|y l Hs IH Hy]; intros Hx; simpl; [repeat constructor|].
  apply Forall_cons in Hx as [Hyx Hx].
  constructor; [by apply IH|]. apply Forall_app. split; [done|by constructor].
Qed.

Lemma spanOn_commentBetween this a b :
  a <= b <= String.length (text (TokenMap.line this)) ->
  spanOn (TokenMap.line this) (TokenMap.commentBetween this a b).
Proof. intros Hab. exists a, b. split; [done|]. apply commentBetween_range. lia. Qed.

Lemma spanOn_commentToEnd this a c :
  a <= String.length (text (TokenMap.line this)) ->
  spanOn (TokenMap.line this) (TokenMap.commentToEnd this a c).
Proof.
  intros Ha. exists a, (String.length (text (TokenMap.line this))).
  split; [lia|]. by apply commentToEnd_range.
Qed.

(** The comments added in a round start where the scan stands or further. *)
Lemma scanInv_snoc this (cs : list ITokenRange) (t : ITokenRange) bound :
  Forall (spanOn (TokenMap.line this)) cs ->
  StronglySorted endsBefore cs ->
  Forall (λ t, endCharacter t <= bound) cs ->
  spanOn (TokenMap.line this) t -> bound <= startCharacter t ->
  Forall (spanOn (TokenMap.line this)) (cs ++ [t])
  /\ StronglySorted endsBefore (cs ++ [t]).
Proof.
  intros Hsp Hs Hb Ht Hbt. split.
  - apply Forall_app. split; [done|by constructor].
  - apply StronglySorted_snoc; [done|].
    eapply Forall_impl; [exact Hb|]. unfold endsBefore. simpl. lia.
Qed.

Lemma _lineComments_body_inv this v :
  scanInv this v ->
  match TokenMap._lineComments_body this v with
  | Continue v' => scanInv this v'
  | Return r =>
      exists cs,
        r = success {[ Comment := cs ]}
        /\ Forall (spanOn (TokenMap.line this)) cs
        /\ StronglySorted endsBefore cs
  end.
Proof.
  intros (Hsp & Hs & Hst).
  set (len := String.length (text (TokenMap.line this))) in *.
  destruct (commentClosed v) eqn:Hc.
  - destruct (exec COMMENT_OPEN (chars (text (TokenMap.line this))) (localLastIndex v))
      as [[i e]|] eqn:Hx.
    + apply exec_COMMENT_OPEN_Some in Hx as [-> Hf].
      pose proof Hf as (Hi & Ho & _). pose proof (opensAt_bound _ _ Ho) as Hb.
      fold len in Hb.
      destruct Ho as [Ho|Ho].
      * rewrite (_lineComments_body_line_comment this v i) by done.
        eexists. split; [done|].
        apply (scanInv_snoc this _ _ (localLastIndex v)); try done.
        -- apply spanOn_commentToEnd. fold len. lia.
        -- unfold startCharacter. rewrite commentToEnd_range by (fold len; lia).
           simpl. lia.
      * rewrite (_lineComments_body_block_open this v i) by done.
        split_and!; [done..|]. simpl. split_and!; [|lia|fold len; lia].
        eapply Forall_impl; [exact Hst|]. simpl. lia.
    + rewrite _lineComments_body_no_opener; [|done|by apply noOpener_exec].
      by exists (ranges v).
  - destruct Hst as (Hst & Hol & Hlen).
    destruct (exec COMMENT_CLOSE (chars (text (TokenMap.line this))) (localLastIndex v))
      as [[j e]|] eqn:Hx.
    + apply exec_COMMENT_CLOSE_Some in Hx as [-> Hf].
      pose proof Hf as (Hj & Ho & _).
      assert (j + 2 <= len) as Hb by by apply (occursAt_bound _ _ _ Ho).
      rewrite (_lineComments_body_block_close this v j) by done.
      destruct (scanInv_snoc this (ranges v)
                  (TokenMap.commentBetween this (commentOpenIndex v) (j + 2))
                  (commentOpenIndex v)) as [Hsp' Hs']; try done.
      * apply spanOn_commentBetween. fold len. lia.
      * unfold startCharacter. rewrite commentBetween_range by lia. simpl. lia.
      * split_and!; [done..|]. simpl. apply Forall_app. split.
        -- eapply Forall_impl; [exact Hst|]. simpl. lia.
        -- constructor; [|constructor]. unfold endCharacter.
           rewrite commentBetween_range by lia. simpl. lia.
    + rewrite _lineComments_body_still_open; [|done|by apply noCloser_exec].
      eexists. split; [done|].
      apply (scanInv_snoc this _ _ (commentOpenIndex v)); try done.
      * by apply spanOn_commentToEnd.
      * unfold startCharacter. rewrite commentToEnd_range by done. simpl. lia.
Qed.

Lemma _lineComments_loop_inv fuel this v :
  scanInv this v ->
  exists cs,
    TokenMap._lineComments_loop fuel this v = success {[ Comment := cs ]}
    /\ Forall (spanOn (TokenMap.line this)) cs
    /\ StronglySorted endsBefore cs.
Proof.
  revert v. induction fuel as [|fuel IH]; intros v Hinv; simpl.
  - destruct Hinv as (? & ? & _). by exists (ranges v).
  - pose proof (_lineComments_body_inv this v Hinv) as Hb.
    destruct (TokenMap._lineComments_body this v) as [v'|r]; [by apply IH|done].
Qed.

(** The comments of a line lie on the line, one behind the other. *)
Lemma _lineComments_spans this commentClosed :
  exists cs,
    TokenMap._lineComments this commentClosed = success {[ Comment := cs ]}
    /\ Forall (spanOn (TokenMap.line this)) cs
    /\ StronglySorted endsBefore cs.
Proof.
  apply _lineComments_loop_inv. split_and!; [constructor..|].
  simpl. destruct commentClosed; [constructor|].
  split_and!; [constructor|lia..].
Qed.

(** Range exclusion accepts such an array as it is: the sort leaves it in
    place and the edges never step back. *)
Lemma excludeLineRanges_spans l (cs : list ITokenRange) :
  Forall (spanOn l) cs -> StronglySorted endsBefore cs ->
  excludeLineRanges l cs
  = (cs, success (gaps (lineNumber l) 0 cs (String.length (text l)))).
Proof.
  intros Hsp Hs.
  assert (Forall (λ t, 0 <= startCharacter t /\ wfToken t
                       /\ endCharacter t <= String.length (text l)) cs) as Hb.
  { eapply Forall_impl; [exact Hsp|]. intros t (a & b & Hab & Hr).
    unfold wfToken, startCharacter, endCharacter. rewrite Hr. simpl. lia. }
  assert (sort byStartCharacter cs = cs) as Hsort.
  { apply (sort_of_sorted startCharacter).
    clear Hsp. induction Hs as [|t cs Hs IH Ht]; [constructor|].
    apply Forall_cons in Hb as [(_ & Hw & _) Hb].
    constructor; [by apply IH|].
    eapply Forall_impl; [exact Ht|]. unfold endsBefore, keyLe, wfToken in *.
    simpl. lia. }
  rewrite excludeLineRanges_contained.
  - rewrite Hsort, chained_intro; [done|lia|done..].
  - apply forallb_contained. eapply Forall_impl; [exact Hsp|].
    intros t (a & b & Hab & ->). by apply contains_lineRange_span.
Qed.

(** ** The lookup tasks *)

Lemma matchRanges_end l seekRange pattern lastIndex limit m :
  m ∈ matchRanges l seekRange pattern lastIndex limit ->
  lastIndex <= character (start (range m))
  /\ character (start (range m)) <= character (end_ (range m)).
Proof.
  intros (i & e & -> & Hi & _)%matchRanges_elem.
  rewrite matchAt_range by lia. simpl. lia.
Qed.

(** The outcome of [_token]'s loop: a token of the requested kind for the
    first search range with a match, the cursor at the end of the match; or
    [NotFound] with the session as it was. *)
Lemma _token_loop_spec this kind pattern searchRanges :
  (exists m seekRange,
      seekRange ∈ searchRanges
      /\ m ∈ matchRanges (TokenMap.line this) seekRange pattern (TokenMap.lastIndex this) 1
      /\ TokenMap._token_loop this kind pattern searchRanges
         = (success {[ kind := [tokenOf m true] ]},
            TokenMap.setLastIndex this (character (end_ (range m)))))
  \/ TokenMap._token_loop this kind pattern searchRanges = (error NotFound, this).
Proof.
  induction searchRanges as [|sr rest IH]; [by right|]. simpl.
  destruct (matchRanges _ sr _ _ _) as [|m ms] eqn:Hm.
  - destruct IH as [(m & sr' & Hin & Hm' & ->)| ->]; [left|by right].
    exists m, sr'. split_and!; [by right|done..].
  - left. exists m, sr. split_and!; [by left|rewrite Hm; by left|done].
Qed.

Lemma _token_spec this kind excludeRanges pattern :
  (exists m seekRange,
      m ∈ matchRanges (TokenMap.line this) seekRange pattern (TokenMap.lastIndex this) 1
      /\ TokenMap._token this kind excludeRanges pattern
         = (success {[ kind := [tokenOf m true] ]},
            (excludeLineRanges (TokenMap.line this) excludeRanges).1,
            TokenMap.setLastIndex this (character (end_ (range m)))))
  \/ (exists e,
      (e = NotFound \/ e = InvalidExcludeRanges)
      /\ TokenMap._token this kind excludeRanges pattern
         = (error e, (excludeLineRanges (TokenMap.line this) excludeRanges).1, this)).
Proof.
  unfold TokenMap._token.
  destruct (excludeLineRanges _ _) as [excl [value|err]]; simpl.
  - destruct (_token_loop_spec this kind pattern value)
      as [(m & sr & _ & Hm & ->)| ->].
    + left. by exists m, sr.
    + right. exists NotFound. auto.
  - right. exists InvalidExcludeRanges. auto.
Qed.


(** ** The cursor *)

Lemma _token_advances kind pattern :
  forall excludeRanges this,
    TokenMap.lastIndex this
      <= TokenMap.lastIndex (TokenMap._token this kind excludeRanges pattern).2
    /\ TokenMap.line (TokenMap._token this kind excludeRanges pattern).2
       = TokenMap.line this
    /\ TokenMap.doc (TokenMap._token this kind excludeRanges pattern).2
       = TokenMap.doc this.
Proof.
  intros excl this.
  destruct (_token_spec this kind excl pattern) as [(m & sr & Hm & ->)|(e & _ & ->)];
    [|done].
  apply matchRanges_end in Hm. simpl. split; [lia|done].
Qed.

Lemma matchRanges_second l seekRange pattern lastIndex limit a b :
  (0 < limit)%Z ->
  matchRanges l seekRange pattern lastIndex limit !! 0 = Some a ->
  matchRanges l seekRange pattern lastIndex limit !! 1 = Some b ->
  character (end_ (range a)) <= character (end_ (range b)).
Proof.
  intros Hl Ha Hb.
  destruct (matchRanges_limited l seekRange pattern lastIndex limit Hl)
    as (_ & _ & _ & Hs).
  pose proof (matchRanges_end l seekRange pattern lastIndex limit b
                (list_elem_of_lookup_2 _ _ _ Hb)) as [_ Hbe].
  destruct (matchRanges l seekRange pattern lastIndex limit) as [|a' [|b' ms]];
    simplify_eq/=.
  apply StronglySorted_inv in Hs as [_ [[_ Hab] _]%Forall_cons]. lia.
Qed.

Lemma _fieldType_body_advances this cardinality searchRange :
  match TokenMap._fieldType_body this cardinality searchRange with
  | Continue (_, this') | Return (_, this') =>
      TokenMap.lastIndex this <= TokenMap.lastIndex this'
      /\ TokenMap.line this' = TokenMap.line this
      /\ TokenMap.doc this' = TokenMap.doc this
  end.
Proof.
  unfold TokenMap._fieldType_body.
  set (limit := match cardinality with Some _ => 1%Z | None => 2%Z end).
  assert (0 < limit)%Z as Hl by (unfold limit; destruct cardinality; lia).
  set (ms := matchRanges _ _ _ _ _).
  destruct (ms !! 0) as [first|] eqn:H0; [|done].
  pose proof (matchRanges_end _ _ _ _ _ _ (list_elem_of_lookup_2 _ _ _ H0)) as [Hf1 Hf2].
  destruct (negb _ && _).
  - destruct (ms !! 1) as [second|] eqn:H1; [|simpl; split; [lia|done]].
    pose proof (matchRanges_second _ _ _ _ _ _ _ Hl H0 H1) as Hs.
    destruct (TokenMap._validateFieldType _ _ _); simpl; (split; [lia|done]).
  - destruct (TokenMap._validateFieldType _ _ _); simpl; (split; [lia|done]).
Qed.

Lemma _fieldType_loop_advances this cardinality searchRanges :
  TokenMap.lastIndex this
    <= TokenMap.lastIndex (TokenMap._fieldType_loop this cardinality searchRanges).2
  /\ TokenMap.line (TokenMap._fieldType_loop this cardinality searchRanges).2
     = TokenMap.line this
  /\ TokenMap.doc (TokenMap._fieldType_loop this cardinality searchRanges).2
     = TokenMap.doc this.
Proof.
  revert this cardinality. induction searchRanges as [|sr rest IH];
    intros this cardinality; [done|]. simpl.
  pose proof (_fieldType_body_advances this cardinality sr) as Hb.
  destruct (TokenMap._fieldType_body this cardinality sr) as [[c this']|[r this']].
  - destruct (IH this' c) as (? & -> & ->). split; [lia|tauto].
  - exact Hb.
Qed.

Lemma _fieldType_advances : advances (TokenMap.bind1 TokenMap._fieldType).
Proof.
  intros excl st this. unfold TokenMap.bind1, TokenMap._fieldType.
  destruct (excludeLineRanges _ _) as [excl' [value|err]]; [|done].
  pose proof (_fieldType_loop_advances this
                (TokenMap.tokens this !! FieldCardinality ≫= head) value) as H.
  by destruct (TokenMap._fieldType_loop _ _ _).
Qed.

Lemma _enumValueName_advances : advances (TokenMap.bind2 TokenMap._enumValueName).
Proof.
  intros excl st this. unfold TokenMap.bind2, TokenMap._enumValueName.
  pose proof (_token_advances EnumValueName (default IDENTIFIER st) excl this) as H.
  destruct (TokenMap._token _ _ _ _) as [[[value|e] excl'] this']; [|done].
  by repeat case_match.
Qed.

Lemma _getTasks_advances kind tasks :
  TokenMap._getTasks kind = success tasks -> Forall advances tasks.
Proof.
  destruct kind; intros H; simplify_eq/=;
    repeat (apply Forall_cons_2 || apply Forall_nil_2);
    try apply _fieldType_advances; try apply _enumValueName_advances;
    intros excl st this; apply _token_advances.
Qed.

Lemma upsert_lastIndex this appendix :
  TokenMap.lastIndex (TokenMap.upsert this appendix) = TokenMap.lastIndex this.
Proof. done. Qed.

Lemma runTasks_advances this tasks ranges searchText :
  Forall advances tasks ->
  match TokenMap.runTasks this tasks ranges searchText with
  | Continue (this', _, _) | Return (_, this') =>
      TokenMap.lastIndex this <= TokenMap.lastIndex this'
      /\ TokenMap.line this' = TokenMap.line this
      /\ TokenMap.doc this' = TokenMap.doc this
  end.
Proof.
  intros Hall. revert this ranges.
  induction Hall as [|task tasks Ht _ IH]; intros this ranges; [done|]. simpl.
  destruct (Ht ranges searchText this) as (Hle & Hline & Hdoc).
  destruct (task ranges searchText this) as [[[value|e] ranges'] this']; simpl in *.
  - specialize (IH (TokenMap.upsert this' value) ranges').
    destruct (TokenMap.runTasks _ _ _ _) as [[[this'' ?] ?]|[? this'']];
      simpl in IH; (split; [lia|]); destruct IH as (_ & -> & ->); by rewrite Hline, Hdoc.
  - by destruct e.
Qed.

(** C9: for the task list of any kind, every task leaves the cursor
    [#lastIndex] at or after the offset it had before the task ran, whether
    the task succeeds or fails, for every session, array of ranges and search
    text; hence running the tasks still pending on a line, from any point of
    the list, never moves the cursor back; the scan of the comments of a
    line leaves the cursor where it is.  (The cursor goes back to 0 only in
    the reset between two lines.) *)
Theorem lastIndex_never_decreases (kind : TokenKind)
    (tasks : list TokenMap.TLookupTask) :
  TokenMap._getTasks kind = success tasks ->
  (forall task excludeRanges searchText this,
      task ∈ tasks ->
      TokenMap.lastIndex this
        <= TokenMap.lastIndex (task excludeRanges searchText this).2)
  /\ (forall n this excludeRanges searchText,
      match TokenMap.runTasks this (drop n tasks) excludeRanges searchText with
      | Continue (this', _, _) | Return (_, this') =>
          TokenMap.lastIndex this <= TokenMap.lastIndex this'
      end)
  /\ (forall this commentClosed,
      TokenMap.lastIndex (TokenMap._parseCurrentLineComments this commentClosed).2
      = TokenMap.lastIndex this).
Proof.
  intros Hall. apply _getTasks_advances in Hall. split_and!.
  - intros task excl st this Hin. rewrite Forall_forall in Hall.
    by destruct (Hall task Hin excl st this).
  - intros n this excl st.
    pose proof (runTasks_advances this (drop n tasks) excl st
                  (Forall_drop _ n _ Hall)) as H.
    destruct (TokenMap.runTasks _ _ _ _) as [[[? ?] ?]|[? ?]]; tauto.
  - intros this commentClosed.
    by destruct (_parseCurrentLineComments_shape this commentClosed) as (cs & c & ->).
Qed.

Lemma lastIndex_never_decreases_witness :
  (forall task excludeRanges searchText this,
      task ∈ [TokenMap.bind1 TokenMap._fieldType; TokenMap.bind2 TokenMap._fieldName] ->
      TokenMap.lastIndex this
        <= TokenMap.lastIndex (task excludeRanges searchText this).2)
  /\ (forall n this excludeRanges searchText,
      match TokenMap.runTasks this
              (drop n [TokenMap.bind1 TokenMap._fieldType;
                       TokenMap.bind2 TokenMap._fieldName])
              excludeRanges searchText with
      | Continue (this', _, _) | Return (_, this') =>
          TokenMap.lastIndex this <= TokenMap.lastIndex this'
      end)
  /\ (forall this commentClosed,
      TokenMap.lastIndex (TokenMap._parseCurrentLineComments this commentClosed).2
      = TokenMap.lastIndex this).
Proof. apply (lastIndex_never_decreases FieldName). reflexivity. Defined.

(** ** Field-type resolution *)

Lemma upsert_lookup this kind (ts : list ITokenRange) :
  TokenMap.tokens (TokenMap.upsert this {[ kind := ts ]}) !! kind
  = Some (default [] (TokenMap.tokens this !! kind) ++ ts).
Proof.
  unfold TokenMap.upsert. cbn [TokenMap.tokens TokenMap.setTokens].
  rewrite lookup_union_with, lookup_singleton_eq.
  by destruct (TokenMap.tokens this !! kind).
Qed.

Lemma upsert_lookup_ne this kind kind' (ts : list ITokenRange) :
  kind <> kind' ->
  TokenMap.tokens (TokenMap.upsert this {[ kind := ts ]}) !! kind'
  = TokenMap.tokens this !! kind'.
Proof.
  intros Hne. unfold TokenMap.upsert. cbn [TokenMap.tokens TokenMap.setTokens].
  rewrite lookup_union_with, lookup_singleton_ne by done.
  by destruct (TokenMap.tokens this !! kind').
Qed.




(** ** The scan over the lines *)

Lemma _lineComments_no_error this commentClosed e :
  TokenMap._lineComments this commentClosed <> error e.
Proof. apply _lineComments_loop_no_error. Qed.

Lemma _parseCurrentLineComments_no_error this commentClosed e this' :
  TokenMap._parseCurrentLineComments this commentClosed <> (error e, this').
Proof.
  unfold TokenMap._parseCurrentLineComments.
  destruct (TokenMap._lineComments this commentClosed) eqn:H; [done|].
  by apply _lineComments_no_error in H.
Qed.

Lemma runTasks_success this task tasks ranges searchText value ranges' this' :
  task ranges searchText this = (success value, ranges', this') ->
  TokenMap.runTasks this (task :: tasks) ranges searchText
  = TokenMap.runTasks (TokenMap.upsert this' value) tasks ranges' searchText.
Proof. intros H. simpl. by rewrite H. Qed.

Lemma runTasks_not_found this task tasks ranges searchText ranges' this' :
  task ranges searchText this = (error NotFound, ranges', this') ->
  TokenMap.runTasks this (task :: tasks) ranges searchText
  = Continue (this', task :: tasks, ranges').
Proof. intros H. simpl. by rewrite H. Qed.

Lemma runTasks_abort this task tasks ranges searchText e ranges' this' :
  task ranges searchText this = (error e, ranges', this') -> e <> NotFound ->
  TokenMap.runTasks this (task :: tasks) ranges searchText = Return (e, this').
Proof. intros H He. simpl. rewrite H. by destruct e. Qed.

(** An error that leaves the loop of the tasks is the error of one of the
    tasks, and is not [NotFound]. *)
Lemma runTasks_Return this tasks ranges searchText e this' :
  TokenMap.runTasks this tasks ranges searchText = Return (e, this') ->
  e <> NotFound
  /\ exists task excludeRanges this0,
       task ∈ tasks /\ (task excludeRanges searchText this0).1.1 = error e.
Proof.
  revert this ranges. induction tasks as [|task tasks IH]; intros this ranges; [done|].
  simpl. destruct (task ranges searchText this) as [[[value|e'] ranges'] this1] eqn:Ht.
  - intros (He & task' & excl & this0 & Hin & Hr)%IH. split; [done|].
    exists task', excl, this0. split; [by right|done].
  - intros Hr. assert (e' = e /\ e <> NotFound) as [-> He]
      by (destruct e'; simplify_eq; done).
    split; [done|]. exists task, ranges, this. split; [by left|by rewrite Ht].
Qed.

(** The tasks still pending after a line are a tail of those pending
    before. *)
Lemma runTasks_Continue this tasks ranges searchText this' tasks' ranges' :
  TokenMap.runTasks this tasks ranges searchText = Continue (this', tasks', ranges') ->
  tasks' `suffix_of` tasks.
Proof.
  revert this ranges. induction tasks as [|task tasks IH]; intros this ranges; simpl.
  - by intros [= _ <- _].
  - destruct (task ranges searchText this) as [[[value|e] ranges1] this1].
    + intros H%IH. by apply suffix_cons_r.
    + destruct e; try done. by intros [= _ <- _].
Qed.

Lemma parseLine_Return this txt lineNumber kind searchText tasks commentClosed r this' :
  TokenMap.parseLine this txt lineNumber kind searchText tasks commentClosed
  = Return (r, this') ->
  match r with
  | success value => TokenMap.firstRange this' kind = Some value
  | error e =>
      e <> NotFound
      /\ exists task excludeRanges this0,
           task ∈ tasks /\ (task excludeRanges searchText this0).1.1 = error e
  end.
Proof.
  unfold TokenMap.parseLine.
  destruct (TokenMap._parseCurrentLineComments _ _) as [[comments|e] this1] eqn:Hc.
  - destruct (TokenMap.runTasks _ _ _ _) as [[[this2 tasks2] ranges2]|[e this2]] eqn:Hr.
    + destruct (TokenMap.firstRange this2 kind) eqn:Hf; [|done].
      by intros [= <- <-].
    + intros [= <- <-]. by apply runTasks_Return in Hr.
  - by apply _parseCurrentLineComments_no_error in Hc.
Qed.

Lemma parseLine_Continue this txt lineNumber kind searchText tasks commentClosed
    this' tasks' commentClosed' :
  TokenMap.parseLine this txt lineNumber kind searchText tasks commentClosed
  = Continue (this', tasks', commentClosed') ->
  tasks' `suffix_of` tasks /\ TokenMap.lastIndex this' = 0.
Proof.
  unfold TokenMap.parseLine.
  destruct (TokenMap._parseCurrentLineComments _ _) as [[comments|e] this1] eqn:Hc;
    [|done].
  destruct (TokenMap.runTasks _ _ _ _) as [[[this2 tasks2] ranges2]|[e this2]] eqn:Hr;
    [|done].
  destruct (TokenMap.firstRange this2 kind); [done|].
  intros [= <- <- <-]. split; [by apply runTasks_Continue in Hr|done].
Qed.

Lemma parseLines_error lines lineNumber this kind searchText tasks commentClosed e this' :
  TokenMap.parseLines lines lineNumber this kind searchText tasks commentClosed
  = (error e, this') ->
  e = NotFound
  \/ exists task excludeRanges this0,
       task ∈ tasks /\ (task excludeRanges searchText this0).1.1 = error e.
Proof.
  revert lineNumber this tasks commentClosed.
  induction lines as [|txt lines IH]; intros lineNumber this tasks commentClosed; simpl.
  - intros [= <- _]. by left.
  - destruct (TokenMap.parseLine _ _ _ _ _ _ _) as [[[this1 tasks1] cc1]|[r this1]] eqn:Hl.
    + apply parseLine_Continue in Hl as [Hs _].
      intros [->|(task & excl & this0 & Hin & Hr)]%IH; [by left|right].
      exists task, excl, this0. split; [|done].
      destruct Hs as [k ->]. apply elem_of_app. by right.
    + intros [= -> ->]. apply parseLine_Return in Hl as [_ H]. by right.
Qed.

(** ** What the tasks record *)

Lemma _token_recordsOnly kind pattern excludeRanges this :
  (forall k', TokenMap.tokens (TokenMap._token this kind excludeRanges pattern).2 !! k'
              = TokenMap.tokens this !! k')
  /\ (forall value,
        (TokenMap._token this kind excludeRanges pattern).1.1 = success value ->
        exists t : ITokenRange, value = {[ kind := [t] ]}).
Proof.
  destruct (_token_spec this kind excludeRanges pattern)
    as [(m & sr & _ & ->)|(e & _ & ->)]; simpl.
  - split; [done|]. intros value [= <-]. by eexists.
  - split; [done|]. by intros value [=].
Qed.

Lemma _enumValueName_recordsOnly :
  recordsOnly (TokenMap.bind2 TokenMap._enumValueName) EnumValueName.
Proof.
  intros excl st this. unfold TokenMap.bind2, TokenMap._enumValueName.
  destruct (_token_recordsOnly EnumValueName (default IDENTIFIER st) excl this)
    as [Ht Hv].
  destruct (TokenMap._token _ _ _ _) as [[[value|e] excl'] this']; simpl in *.
  - destruct (Hv value eq_refl) as [t ->].
    repeat case_match; simpl; (split; [auto|]); intros v [= <-]; by eexists.
  - split; [auto|]. by intros v [=].
Qed.

Lemma _fieldType_body_tokens this cardinality searchRange :
  match TokenMap._fieldType_body this cardinality searchRange with
  | Continue (_, this') =>
      forall k', k' <> FieldCardinality ->
        TokenMap.tokens this' !! k' = TokenMap.tokens this !! k'
  | Return (r, this') =>
      (forall k', k' <> FieldCardinality ->
         TokenMap.tokens this' !! k' = TokenMap.tokens this !! k')
      /\ forall value, r = success value ->
           exists t : ITokenRange, value = {[ FieldType := [t] ]}
  end.
Proof.
  unfold TokenMap._fieldType_body.
  destruct (_ !! 0) as [first|]; [|done].
  destruct (negb _ && _).
  - destruct (_ !! 1) as [second|].
    + destruct (TokenMap._validateFieldType _ _ _); simpl.
      * split; [intros; by apply upsert_lookup_ne|].
        intros v [= <-]. by eexists.
      * split; [intros; by apply upsert_lookup_ne|]. by intros v [=].
    + simpl. intros; by apply upsert_lookup_ne.
  - destruct (TokenMap._validateFieldType _ _ _); simpl.
    + split; [done|]. intros v [= <-]. by eexists.
    + split; [done|]. by intros v [=].
Qed.

Lemma _fieldType_loop_tokens this cardinality searchRanges :
  (forall k', k' <> FieldCardinality ->
     TokenMap.tokens (TokenMap._fieldType_loop this cardinality searchRanges).2 !! k'
     = TokenMap.tokens this !! k')
  /\ forall value,
       (TokenMap._fieldType_loop this cardinality searchRanges).1 = success value ->
       exists t : ITokenRange, value = {[ FieldType := [t] ]}.
Proof.
  revert this cardinality. induction searchRanges as [|sr rest IH];
    intros this cardinality; simpl; [by split|].
  pose proof (_fieldType_body_tokens this cardinality sr) as Hb.
  destruct (TokenMap._fieldType_body this cardinality sr) as [[c this']|[r this']].
  - destruct (IH this' c) as [Ht Hv]. split; [|done].
    intros k' Hk. rewrite Ht by done. by apply Hb.
  - exact Hb.
Qed.

Lemma _fieldType_recordsOnly : recordsOnly (TokenMap.bind1 TokenMap._fieldType) FieldType.
Proof.
  intros excl st this. unfold TokenMap.bind1, TokenMap._fieldType.
  destruct (excludeLineRanges _ _) as [excl' [value|err]]; simpl.
  - pose proof (_fieldType_loop_tokens this
                  (TokenMap.tokens this !! FieldCardinality ≫= head) value) as H.
    by destruct (TokenMap._fieldType_loop _ _ _).
  - split; [done|]. by intros v [=].
Qed.






(** ** Worked examples *)

(** The name of a message, not the keyword nor the whole line. *)
Example parseFragment_message_name :
  (TokenMap.parseFragment (TokenMap.new ["message TrickyMsgName {"])
     MessageName 0 0 None).1
  = success (mkRange (mkPosition 0 8) (mkPosition 0 21)).
Proof. vm_compute. reflexivity. Qed.

(** Cardinality, type and name of a field, found in that order. *)
Example parseFragment_field_name :
  let run :=
    TokenMap.parseFragment (TokenMap.new ["  required string foo = 1; // required"])
      FieldName 0 0 None in
  run.1 = success (mkRange (mkPosition 0 18) (mkPosition 0 21))
  /\ TokenMap.firstRange run.2 FieldCardinality
     = Some (mkRange (mkPosition 0 2) (mkPosition 0 10))
  /\ TokenMap.firstRange run.2 FieldType
     = Some (mkRange (mkPosition 0 11) (mkPosition 0 17))
  /\ TokenMap.lastIndex run.2 = 21.
Proof. vm_compute. done. Qed.

(** A block comment over two lines: the name is found behind its end. *)
Example parseFragment_behind_block_comment :
  (TokenMap.parseFragment
     (TokenMap.new ["/* opening comment"; "message closing */ message Foo {"])
     MessageName 0 0 None).1
  = success (mkRange (mkPosition 1 27) (mkPosition 1 30)).
Proof. vm_compute. reflexivity. Qed.

(** Text behind [//] is not searched: the scan moves to the next line. *)
Example parseFragment_skips_line_comment :
  (TokenMap.parseFragment
     (TokenMap.new ["// message Hidden"; "message Shown {}"])
     MessageName 0 0 None).1
  = success (mkRange (mkPosition 1 8) (mkPosition 1 13)).
Proof. vm_compute. reflexivity. Qed.

Example parseFragment_enum_value_option :
  (TokenMap.parseFragment (TokenMap.new ["  option allow_alias = true;"])
     EnumValueName 0 0 None).1
  = error UnexpectedEnumValueName
  /\ (TokenMap.parseFragment (TokenMap.new ["  reserved 2, 3;"])
        EnumValueName 0 0 None).1
     = error UnexpectedEnumValueName
  /\ (TokenMap.parseFragment (TokenMap.new ["  UNKNOWN = 0;"])
        EnumValueName 0 0 None).1
     = success (mkRange (mkPosition 0 2) (mkPosition 0 9)).
Proof. vm_compute. done. Qed.

Example parseFragment_field_type_errors :
  (TokenMap.parseFragment (TokenMap.new ["message Inner {}"]) FieldName 0 0 None).1
  = error UnexpectedFieldType
  /\ (TokenMap.parseFragment (TokenMap.new ["optional group Result = 1 {"])
        FieldName 0 0 None).1
     = error UnexpectedGroup.
Proof. vm_compute. done. Qed.

Example parseFragment_not_found_and_line_number :
  (TokenMap.parseFragment (TokenMap.new ["syntax = 1;"; ""]) ServiceName 0 0 None).1
  = error NotFound
  /\ (TokenMap.parseFragment (TokenMap.new ["syntax = 1;"; ""]) ServiceName 2 0 None).1
     = error LineNumber
  /\ (TokenMap.parseFragment (TokenMap.new ["syntax = 1;"; ""]) FieldType 0 0 None).1
     = error NotImplemented.
Proof. vm_compute. done. Qed.

(** ** The errors a scan can end with *)

Lemma _token_respects kind pattern cs this :
  Forall (spanOn (TokenMap.line this)) cs -> StronglySorted endsBefore cs ->
  (TokenMap._token this kind cs pattern).1.2 = cs
  /\ forall e,
       (TokenMap._token this kind cs pattern).1.1 = error e -> e = NotFound.
Proof.
  intros Hsp Hs. unfold TokenMap._token.
  rewrite (excludeLineRanges_spans _ _ Hsp Hs).
  destruct (_token_loop_spec this kind pattern
              (gaps (lineNumber (TokenMap.line this)) 0 cs
                 (String.length (text (TokenMap.line this)))))
    as [(m & sr & _ & _ & Heq)|Heq]; rewrite Heq; simpl.
  - split; [done|]. by intros e [=].
  - split; [done|]. by intros e [= <-].
Qed.

Lemma _validateFieldType_errors this fieldType cardinality e :
  TokenMap._validateFieldType this fieldType cardinality = error e ->
  e = UnexpectedGroup \/ e = UnexpectedFieldType.
Proof.
  unfold TokenMap._validateFieldType. repeat case_match; intros [=]; auto.
Qed.

Lemma _fieldType_loop_errors this cardinality searchRanges e :
  (TokenMap._fieldType_loop this cardinality searchRanges).1 = error e ->
  e = NotFound \/ e = UnexpectedGroup \/ e = UnexpectedFieldType.
Proof.
  revert this cardinality. induction searchRanges as [|sr rest IH];
    intros this cardinality; simpl; [intros [= <-]; auto|].
  destruct (TokenMap._fieldType_body this cardinality sr) as [[c this']|[r this']] eqn:Hb;
    [apply IH|].
  simpl. intros ->. revert Hb. unfold TokenMap._fieldType_body.
  repeat case_match; intros ?; simplify_eq;
    match goal with
    | H : TokenMap._validateFieldType _ _ _ = error _ |- _ =>
        apply _validateFieldType_errors in H; tauto
    end.
Qed.

Lemma _getTasks_respects kind tasks :
  TokenMap._getTasks kind = success tasks -> Forall respects tasks.
Proof.
  assert (forall k pattern, respects
            (λ excl _ this, TokenMap._token this k excl pattern)) as H1.
  { intros k pattern cs st this Hsp Hs.
    destruct (_token_respects k pattern cs this Hsp Hs) as [Hc He].
    split; [done|]. intros e ->%He. by left. }
  assert (forall k pattern, respects
            (λ excl st this, TokenMap._token this k excl (default pattern st))) as H2.
  { intros k pattern cs st this Hsp Hs.
    destruct (_token_respects k (default pattern st) cs this Hsp Hs) as [Hc He].
    split; [done|]. intros e ->%He. by left. }
  assert (respects (TokenMap.bind2 TokenMap._enumValueName)) as H3.
  { intros cs st this Hsp Hs. unfold TokenMap.bind2, TokenMap._enumValueName.
    destruct (_token_respects EnumValueName (default IDENTIFIER st) cs this Hsp Hs)
      as [Hc He].
    destruct (TokenMap._token _ _ _ _) as [[[value|e'] excl'] this']; simpl in *.
    - repeat case_match; simpl; (split; [done|]); intros e [=]; subst.
      right; by left.
    - split; [done|]. intros e [= <-]. rewrite (He e') by done. by left. }
  assert (respects (TokenMap.bind1 TokenMap._fieldType)) as H4.
  { intros cs st this Hsp Hs. unfold TokenMap.bind1, TokenMap._fieldType.
    rewrite (excludeLineRanges_spans _ _ Hsp Hs).
    pose proof (_fieldType_loop_errors this
      (TokenMap.tokens this !! FieldCardinality ≫= head)
      (gaps (lineNumber (TokenMap.line this)) 0 cs
         (String.length (text (TokenMap.line this))))) as He.
    destruct (TokenMap._fieldType_loop _ _ _) as [r this']; simpl in *.
    split; [done|]. intros e ->.
    destruct (He e eq_refl) as [-> | [-> | ->]];
      repeat (apply elem_of_cons; (by left) || right). }
  destruct kind; intros H; simplify_eq/=;
    repeat (apply Forall_cons_2 || apply Forall_nil_2);
    try apply H1; try apply H2; try apply H3; try apply H4.
Qed.

Lemma runTasks_errors this tasks cs searchText :
  Forall advances tasks -> Forall respects tasks ->
  Forall (spanOn (TokenMap.line this)) cs -> StronglySorted endsBefore cs ->
  match TokenMap.runTasks this tasks cs searchText with
  | Return (e, _) => e ∈ [UnexpectedEnumValueName; UnexpectedFieldType; UnexpectedGroup]
  | Continue (_, _, cs') => cs' = cs
  end.
Proof.
  intros Ha Hr. revert this. induction tasks as [|task tasks IH]; intros this Hsp Hs;
    [done|].
  apply Forall_cons in Ha as [Hta Ha]. apply Forall_cons in Hr as [Htr Hr].
  simpl. destruct (Hta cs searchText this) as (_ & Hline & _).
  destruct (Htr cs searchText this Hsp Hs) as [Hcs He].
  destruct (task cs searchText this) as [[[value|e] cs'] this']; simpl in *; subst cs'.
  - apply IH; [done|done| |done].
    change (TokenMap.line (TokenMap.upsert this' value)) with (TokenMap.line this').
    by rewrite Hline.
  - specialize (He e eq_refl).
    repeat (apply elem_of_cons in He as [->|He]; [done || by repeat constructor|]).
    by apply elem_of_nil in He.
Qed.

(** A call of [parseFragment] never ends with [InvalidExcludeRanges] nor with
    [UnexpectedCommentOpen]: the comments the scanner hands to the tasks
    always meet the contract of range exclusion. *)
Lemma parseLines_errors lines lineNumber this kind searchText tasks commentClosed e :
  Forall advances tasks -> Forall respects tasks ->
  (TokenMap.parseLines lines lineNumber this kind searchText tasks commentClosed).1
  = error e ->
  e ∈ [NotFound; UnexpectedEnumValueName; UnexpectedFieldType; UnexpectedGroup].
Proof.
  revert lineNumber this tasks commentClosed.
  induction lines as [|txt lines IH]; intros lineNumber this tasks commentClosed Ha Hr;
    simpl; [intros [= <-]; by left|].
  destruct (TokenMap.parseLine this txt lineNumber kind searchText tasks commentClosed)
    as [[[this1 tasks1] cc1]|[r this1]] eqn:Hl.
  - apply parseLine_Continue in Hl as [[k ->] _].
    apply IH; by eapply Forall_app.
  - simpl. intros ->. revert Hl. unfold TokenMap.parseLine.
    destruct (_lineComments_spans
                (TokenMap.setLine this (mkTextLine lineNumber txt)) commentClosed)
      as (cs & Hcs & Hsp & Hs).
    rewrite (_parseCurrentLineComments_success _ _ _ Hcs).
    cbn [commentsRanges commentsClosed].
    pose proof (runTasks_errors
      (TokenMap.upsert (TokenMap.setLine this (mkTextLine lineNumber txt))
         {[ Comment := cs ]}) tasks cs searchText Ha Hr Hsp Hs) as Hrun.
    destruct (TokenMap.runTasks _ _ _ _) as [[[this2 tasks2] cs2]|[e2 this2]].
    + by destruct (TokenMap.firstRange this2 kind).
    + intros [= <- _]. by right.
Qed.

Lemma parseFragment_errors this kind lineNumber lastIndex searchText e :
  (TokenMap.parseFragment this kind lineNumber lastIndex searchText).1 = error e ->
  e ∈ [NotImplemented; LineNumber; NotFound;
       UnexpectedEnumValueName; UnexpectedFieldType; UnexpectedGroup].
Proof.
  unfold TokenMap.parseFragment.
  destruct (TokenMap._getTasks kind) as [tasks|e'] eqn:Hk.
  - destruct (lineAt _ lineNumber) as [l|].
    + intros He. apply parseLines_errors in He;
        [|by eapply _getTasks_advances|by eapply _getTasks_respects].
      by do 2 right.
    + intros [= <-]. right; by left.
  - intros [= <-]. destruct kind; simplify_eq/=; by left.
Qed.

(** The keyword tests look for the words inside the texts: a field type
    whose name holds [message] is refused, one whose name holds [group]
    behind its start is accepted, a type whose name holds [optional] is taken
    for a cardinality, and an enum value whose name starts with [option] is
    refused. *)
Example parseFragment_keywords_inside_names :
  (TokenMap.parseFragment (TokenMap.new ["  error_message text = 1;"])
     FieldName 0 0 None).1
  = error UnexpectedFieldType
  /\ (TokenMap.parseFragment (TokenMap.new ["  mygroup members = 2;"])
        FieldName 0 0 None).1
     = success (mkRange (mkPosition 0 10) (mkPosition 0 17))
  /\ TokenMap.firstRange
       (TokenMap.parseFragment (TokenMap.new ["  my_optional_type value = 3;"])
          FieldName 0 0 None).2 FieldCardinality
     = Some (mkRange (mkPosition 0 2) (mkPosition 0 18))
  /\ (TokenMap.parseFragment (TokenMap.new ["  optional_value = 4;"])
        EnumValueName 0 0 None).1
     = error UnexpectedEnumValueName.
Proof. vm_compute. done. Qed.

(** * Further properties *)

(** ** The line match search, further *)

Lemma matchAllFrom_matcher r s lastIndex fuel i e :
  (i, e) ∈ matchAllFrom r s lastIndex fuel ->
  lastIndex <= i <= e /\ e <= length s /\ matcher r s i Some = Some e.
Proof.
  revert lastIndex. induction fuel as [|fuel IH]; intros lastIndex; simpl;
    [by intros ?%elem_of_nil|].
  destruct (exec r s lastIndex) as [[i' e']|] eqn:Hx; [|by intros ?%elem_of_nil].
  apply exec_Some in Hx as (Hi & He & Hm & _).
  intros [[= -> ->]|Hin]%elem_of_cons; [done|].
  apply IH in Hin as (Hi' & He' & Hm'). split_and!; [|lia|done..].
  destruct (Nat.eqb_spec e' i'); lia.
Qed.

(** Every match the search returns is a match of the pattern in the text
    cut at the end of the window. *)
Lemma matchRanges_matcher l seekRange pattern lastIndex limit m :
  m ∈ matchRanges l seekRange pattern lastIndex limit ->
  exists i e,
    m = matchAt l i e
    /\ Nat.max (character (start seekRange)) lastIndex <= i <= e
    /\ e <= character (end_ seekRange) /\ e <= String.length (text l)
    /\ matcher pattern (take (character (end_ seekRange)) (chars (text l))) i Some
       = Some e.
Proof.
  intros Hm%matchRanges_sublist. unfold allMatches, matchAll in Hm.
  apply list_elem_of_fmap in Hm as ([i e] & -> & Hin).
  apply matchAllFrom_matcher in Hin as (Hi & He & Hmt).
  rewrite length_take, length_chars in He.
  exists i, e. split_and!; [done|lia..|done].
Qed.

Lemma getText_matchAt doc l i e :
  lineAt doc (lineNumber l) = Some l -> i <= e ->
  getText doc (range (matchAt l i e)) = fullMatch (matchAt l i e).
Proof.
  intros Hl Hie. rewrite matchAt_range by done.
  unfold lineAt in Hl. apply fmap_Some in Hl as (txt & Hd & Hl).
  unfold getText. simpl. rewrite Nat.eqb_refl, Hd. rewrite Hl. done.
Qed.

Lemma length_substring i n s :
  i + n <= String.length s -> String.length (String.substring i n s) = n.
Proof.
  revert i n. induction s as [|c s IH]; intros [|i] [|n]; simpl; intros H;
    try lia; try done.
  - f_equal. apply (IH 0 n). simpl. lia.
  - apply (IH i 0). lia.
  - apply (IH i (S n)). lia.
Qed.



(** X2: the text and the range of a match agree.  For a line of the
    document, the text recorded with a match that [matchRanges] returns is
    the text the document holds at the range of the match, and the range is
    as wide as the text is long. *)
Theorem matchRanges_text (doc : TextDocument) (l : TextLine) (seekRange : Range)
    (pattern : RegExp) (lastIndex : nat) (limit : Z) (m : IMatchRange) :
  lineAt doc (lineNumber l) = Some l ->
  m ∈ matchRanges l seekRange pattern lastIndex limit ->
  getText doc (range m) = fullMatch m
  /\ String.length (fullMatch m)
     = character (end_ (range m)) - character (start (range m)).
Proof.
  intros Hl (i & e & -> & Hi & He & He' & _)%matchRanges_matcher.
  split; [apply getText_matchAt; [done|lia]|].
  rewrite matchAt_range by lia. simpl. apply length_substring. lia.
Qed.

Lemma matchRanges_text_witness :
  let doc := ["syntax = 1;"; "message Foo {"] in
  let l := mkTextLine 1 "message Foo {" in
  getText doc (range (matchAt l 8 11)) = fullMatch (matchAt l 8 11)
  /\ String.length (fullMatch (matchAt l 8 11))
     = character (end_ (range (matchAt l 8 11)))
       - character (start (range (matchAt l 8 11))).
Proof.
  cbv zeta.
  apply (matchRanges_text ["syntax = 1;"; "message Foo {"]
           (mkTextLine 1 "message Foo {") (lineRange (mkTextLine 1 "message Foo {"))
           IDENTIFIER 8 1).
  - reflexivity.
  - vm_compute. apply list_elem_of_here.
Defined.

(** ** Range exclusion, further *)

(** What a successful call has established. *)
Lemma excludeLineRanges_success l (ts : list ITokenRange) value :
  Forall (λ t : ITokenRange, Range_wf (range t)) ts ->
  (excludeLineRanges l ts).2 = success value ->
  Forall (λ t : ITokenRange, contains (lineRange l) (range t) = true) ts
  /\ chained 0 (sort byStartCharacter ts) (String.length (text l)) = true
  /\ Forall wfToken (sort byStartCharacter ts)
  /\ value = gaps (lineNumber l) 0 (sort byStartCharacter ts) (String.length (text l)).
Proof.
  intros Hw Hs.
  destruct (decide (Forall (λ t : ITokenRange,
              contains (lineRange l) (range t) = true) ts)) as [Hc|Hc].
  - rewrite excludeLineRanges_contained in Hs by by apply forallb_contained.
    cbn [snd] in Hs. destruct (chained _ _ _) eqn:Hch; [|done].
    injection Hs as <-. split_and!; [done..| |done].
    rewrite sort_perm. by apply (contained_wfToken l).
  - by rewrite excludeLineRanges_beyond in Hs.
Qed.

(** X3: a search in what range exclusion leaves.  When [excludeLineRanges]
    succeeds on well-formed ranges, every match [matchRanges] finds in one
    of the ranges of the result lies on the line, inside that range, and
    overlaps none of the excluded ranges. *)
Theorem matchRanges_avoids_excluded (l : TextLine) (ts : list ITokenRange)
    (value : list Range) (seekRange : Range) (pattern : RegExp)
    (lastIndex : nat) (limit : Z) (m : IMatchRange) :
  Forall (λ t : ITokenRange, Range_wf (range t)) ts ->
  (excludeLineRanges l ts).2 = success value ->
  seekRange ∈ value ->
  m ∈ matchRanges l seekRange pattern lastIndex limit ->
  contains (lineRange l) (range m) = true
  /\ character (start seekRange) <= character (start (range m))
  /\ character (end_ (range m)) <= character (end_ seekRange)
  /\ Forall (λ t : ITokenRange, nonOverlapping (range m) (range t)) ts.
Proof.
  intros Hw Hs Hin Hm.
  apply excludeLineRanges_success in Hs as (Hc & Hch & Hws & ->); [|done].
  pose proof (gaps_apart (lineNumber l) 0 _ _ Hch Hws) as Hap.
  rewrite Forall_forall in Hap. specialize (Hap _ Hin).
  apply matchRanges_matcher in Hm as (i & e & -> & Hi & He & He' & _).
  rewrite matchAt_range by lia. cbn [start end_ character].
  split_and!; [apply contains_lineRange_span; lia|lia..|].
  rewrite <-(sort_perm byStartCharacter ts).
  eapply Forall_impl; [exact Hap|]. unfold nonOverlapping. simpl. lia.
Qed.

Lemma matchRanges_avoids_excluded_witness :
  let l := mkTextLine 7 "/* int32 a */ int32 b = 2; // int32 c" in
  let ts := [lineToken l 27 37; lineToken l 0 13] in
  let m := matchAt l 14 19 in
  contains (lineRange l) (range m) = true
  /\ character (start (newRange4 7 13 7 27)) <= character (start (range m))
  /\ character (end_ (range m)) <= character (end_ (newRange4 7 13 7 27))
  /\ Forall (λ t : ITokenRange, nonOverlapping (range m) (range t)) ts.
Proof.
  cbv zeta.
  apply (matchRanges_avoids_excluded
           (mkTextLine 7 "/* int32 a */ int32 b = 2; // int32 c")
           [lineToken (mkTextLine 7 "/* int32 a */ int32 b = 2; // int32 c") 27 37;
            lineToken (mkTextLine 7 "/* int32 a */ int32 b = 2; // int32 c") 0 13]
           [newRange4 7 13 7 27] (newRange4 7 13 7 27) IDENTIFIER 0 1).
  - repeat constructor.
  - reflexivity.
  - apply list_elem_of_here.
  - vm_compute. apply list_elem_of_here.
Defined.

(** X4: excluded ranges that cover the whole line leave nothing to search.
    For well-formed ranges contained in the line, pairwise non-overlapping,
    with no zero-width range starting where a wider one starts, that cover
    every offset of the line, the result is the empty array. *)
Theorem excludeLineRanges_whole_line (l : TextLine) (ts : list ITokenRange) :
  Forall (λ t : ITokenRange, Range_wf (range t)) ts ->
  Forall (λ t : ITokenRange, contains (lineRange l) (range t) = true) ts ->
  pairwise (λ a b : ITokenRange, nonOverlapping (range a) (range b)) ts ->
  pairwise (λ a b : ITokenRange, tieFree (range a) (range b)) ts ->
  (forall c, c < String.length (text l) ->
     exists t : ITokenRange, t ∈ ts /\ covers c (range t)) ->
  (excludeLineRanges l ts).2 = success [].
Proof.
  intros Hw Hc Hno Htie Hcov.
  pose proof (sorted_chained l ts Hw Hc Hno Htie) as Hch.
  assert (Forall wfToken (sort byStartCharacter ts)) as Hws
    by (rewrite sort_perm; by apply (contained_wfToken l)).
  rewrite excludeLineRanges_contained by by apply forallb_contained.
  cbn [snd]. rewrite Hch. f_equal.
  pose proof (gaps_shape (lineNumber l) 0 _ _ Hch Hws) as Hsh.
  pose proof (gaps_apart (lineNumber l) 0 _ _ Hch Hws) as Hap.
  destruct (gaps _ _ _ _) as [|v vs]; [done|exfalso].
  apply Forall_cons in Hsh as [(_ & _ & _ & Hlt & Hle) _].
  apply Forall_cons in Hap as [Hap _].
  destruct (Hcov (character (start v))) as (t & Hin & Hcv); [lia|].
  rewrite Forall_forall in Hap.
  specialize (Hap t). rewrite sort_perm in Hap. specialize (Hap Hin).
  unfold nonOverlapping, covers in *. lia.
Qed.

Lemma excludeLineRanges_whole_line_witness :
  let l := mkTextLine 4 "/* a *//* b */// c" in
  (excludeLineRanges l [lineToken l 7 14; lineToken l 14 18; lineToken l 0 7]).2
  = success [].
Proof.
  cbv zeta.
  apply excludeLineRanges_whole_line.
  - repeat constructor.
  - repeat constructor.
  - pairwise_concrete.
  - pairwise_concrete.
  - intros c Hc. simpl in Hc.
    destruct (decide (c < 7)); [|destruct (decide (c < 14))].
    + eexists. split; [do 2 apply list_elem_of_further; apply list_elem_of_here|].
      unfold covers. simpl. lia.
    + eexists. split; [apply list_elem_of_here|]. unfold covers. simpl. lia.
    + eexists. split; [apply list_elem_of_further, list_elem_of_here|].
      unfold covers. simpl. lia.
Defined.

(** ** Range exclusion, called again *)

(** X5: a second call with the array the first call has left gives the
    same result and leaves the array as it is, and the array a call leaves
    is a reordering of the one it was handed.  So the tasks of a line,
    handed the same array one after the other, search the same ranges. *)
Theorem excludeLineRanges_again (l : TextLine) (ts : list ITokenRange) :
  excludeLineRanges l (excludeLineRanges l ts).1 = excludeLineRanges l ts
  /\ (excludeLineRanges l ts).1 ≡ₚ ts.
Proof.
  destruct (decide (Forall (λ t : ITokenRange,
              contains (lineRange l) (range t) = true) ts)) as [Hc|Hc].
  - rewrite (excludeLineRanges_contained l ts) by by apply forallb_contained.
    cbn [fst]. split; [|apply sort_perm].
    rewrite excludeLineRanges_contained
      by (apply forallb_contained; by rewrite sort_perm).
    assert (sort byStartCharacter (sort byStartCharacter ts) = sort byStartCharacter ts)
      as -> by apply (sort_of_sorted startCharacter), (sort_sorted startCharacter).
    done.
  - rewrite (excludeLineRanges_beyond l ts) by done. cbn [fst].
    split; [by apply excludeLineRanges_beyond|done].
Qed.

Lemma startsComment_snoc this entryClosed (cs : list ITokenRange) c :
  (forall i c', cs !! i = Some c' -> startsComment this entryClosed i c') ->
  startsComment this entryClosed (length cs) c ->
  forall i c', (cs ++ [c]) !! i = Some c' -> startsComment this entryClosed i c'.
Proof.
  intros Hcs Hc i c' Hi.
  apply lookup_app_Some in Hi as [Hi|[Hlen Hi]]; [by apply Hcs|].
  apply list_lookup_singleton_Some in Hi as [Hz ->].
  by replace i with (length cs) by lia.
Qed.

Lemma holds_snoc (cs : list ITokenRange) c j :
  (exists c', c' ∈ cs /\ holds c' j) \/ holds c j ->
  exists c', c' ∈ cs ++ [c] /\ holds c' j.
Proof.
  intros [(c' & Hin & Hh)|Hh].
  - exists c'. split; [|done]. apply elem_of_app. by left.
  - exists c. split; [|done]. apply elem_of_app. right. by apply list_elem_of_singleton.
Qed.

Lemma scanResult_closed this entryClosed (cs : list ITokenRange) :
  Forall (λ c : ITokenRange, closed c = true) cs ->
  (forall i c, cs !! i = Some c -> startsComment this entryClosed i c) ->
  (forall j,
     TokenMap.lastIndex this <= j -> opensAt (text (TokenMap.line this)) j ->
     exists c, c ∈ cs /\ holds c j) ->
  scanResult this entryClosed cs.
Proof.
  intros Hcl Hst Hcov. split_and!; [|done..].
  intros i c Hi Hc. rewrite Forall_lookup in Hcl. specialize (Hcl i c Hi). congruence.
Qed.

Lemma _lineComments_body_scanned this entryClosed v :
  scanInv this v -> scanned this entryClosed v ->
  match TokenMap._lineComments_body this v with
  | Continue v' => scanned this entryClosed v'
  | Return r => exists cs, r = success {[ Comment := cs ]} /\ scanResult this entryClosed cs
  end.
Proof.
  intros (Hsp & Hs & Hst) (Hle & Hcl & Hstart & Hcov & Hopen).
  set (txt := text (TokenMap.line this)) in *.
  set (len := String.length txt) in *.
  destruct (commentClosed v) eqn:Hc.
  - clear Hopen.
    destruct (exec COMMENT_OPEN (chars txt) (localLastIndex v)) as [[i e]|] eqn:Hx.
    + apply exec_COMMENT_OPEN_Some in Hx as [-> Hf].
      pose proof Hf as (Hi & Ho & Hfirst). pose proof (opensAt_bound _ _ Ho) as Hb.
      fold len in Hb.
      assert (forall j, TokenMap.lastIndex this <= j < i -> opensAt txt j ->
                exists c, c ∈ ranges v /\ holds c j) as Hcov'.
      { intros j Hj Hoj. destruct (decide (j < localLastIndex v)).
        - apply Hcov; [lia|done].
        - exfalso. apply (Hfirst j); [lia|done]. }
      destruct Ho as [Ho|Ho].
      * rewrite (_lineComments_body_line_comment this v i) by done.
        eexists. split; [done|].
        assert (range (TokenMap.commentToEnd this i true)
                = mkRange (mkPosition (lineNumber (TokenMap.line this)) i)
                    (mkPosition (lineNumber (TokenMap.line this)) len)) as Hr
          by (apply commentToEnd_range; fold txt len; lia).
        apply scanResult_closed.
        -- apply Forall_app. split; [done|]. by repeat constructor.
        -- apply startsComment_snoc; [done|].
           right. unfold startCharacter. rewrite Hr. simpl. split; [lia|by left].
        -- intros j Hj Hoj. apply holds_snoc.
           destruct (decide (j < i)); [left; apply Hcov'; [lia|done]|right].
           assert (j + 2 <= len) by apply (opensAt_bound _ _ Hoj).
           unfold holds, startCharacter, endCharacter. rewrite Hr. simpl. lia.
      * rewrite (_lineComments_body_block_open this v i) by done.
        split_and!; simpl; [lia|done|done|done|].
        intros _. right. split; [lia|by right].
    + rewrite _lineComments_body_no_opener; [|done|by apply noOpener_exec].
      exists (ranges v). split; [done|]. apply scanResult_closed; [done..|].
      intros j Hj Hoj. destruct (decide (j < localLastIndex v)).
      * apply Hcov; [lia|done].
      * exfalso. apply noOpener_exec in Hx. apply (Hx j); [lia|done].
  - destruct Hst as (Hst & Hol & Hlen). fold txt len in Hlen.
    specialize (Hopen eq_refl).
    destruct (exec COMMENT_CLOSE (chars txt) (localLastIndex v)) as [[j e]|] eqn:Hx.
    + apply exec_COMMENT_CLOSE_Some in Hx as [-> Hf].
      pose proof Hf as (Hj & Ho & _).
      assert (j + 2 <= len) as Hb by by apply (occursAt_bound _ _ _ Ho).
      rewrite (_lineComments_body_block_close this v j) by done.
      assert (range (TokenMap.commentBetween this (commentOpenIndex v) (j + 2))
              = mkRange (mkPosition (lineNumber (TokenMap.line this)) (commentOpenIndex v))
                  (mkPosition (lineNumber (TokenMap.line this)) (j + 2))) as Hr
        by (apply commentBetween_range; lia).
      split_and!; simpl; [lia| | | |done].
      * apply Forall_app. split; [done|]. by repeat constructor.
      * apply startsComment_snoc; [done|].
        unfold startsComment, startCharacter. rewrite Hr. simpl.
        destruct Hopen as [(-> & -> & ->)|[? ?]]; [by left|by right].
      * intros j' Hj' Hoj. apply holds_snoc.
        destruct (decide (j' < commentOpenIndex v)); [left; apply Hcov; [lia|done]|right].
        unfold holds, startCharacter, endCharacter. rewrite Hr. simpl. lia.
    + rewrite _lineComments_body_still_open; [|done|by apply noCloser_exec].
      eexists. split; [done|].
      assert (range (TokenMap.commentToEnd this (commentOpenIndex v) false)
              = mkRange (mkPosition (lineNumber (TokenMap.line this)) (commentOpenIndex v))
                  (mkPosition (lineNumber (TokenMap.line this)) len)) as Hr
        by (by apply commentToEnd_range).
      split_and!.
      * intros i c Hi Hcf.
        apply lookup_app_Some in Hi as [Hi|[Hlen' Hi]].
        -- rewrite Forall_lookup in Hcl. specialize (Hcl i c Hi). congruence.
        -- apply list_lookup_singleton_Some in Hi as [Hz <-].
           rewrite length_app. simpl. split; [lia|].
           unfold endCharacter. by rewrite Hr.
      * apply startsComment_snoc; [done|].
        unfold startsComment, startCharacter. rewrite Hr. simpl.
        destruct Hopen as [(-> & -> & ->)|[? ?]]; [by left|by right].
      * intros j Hj Hoj. apply holds_snoc.
        destruct (decide (j < commentOpenIndex v)); [left; apply Hcov; [lia|done]|right].
        assert (j + 2 <= len) by apply (opensAt_bound _ _ Hoj).
        unfold holds, startCharacter, endCharacter. rewrite Hr. simpl. lia.
Qed.

Lemma _lineComments_loop_scanned fuel this entryClosed v :
  String.length (text (TokenMap.line this)) - localLastIndex v < fuel ->
  scanInv this v -> scanned this entryClosed v ->
  exists cs,
    TokenMap._lineComments_loop fuel this v = success {[ Comment := cs ]}
    /\ Forall (spanOn (TokenMap.line this)) cs
    /\ StronglySorted endsBefore cs
    /\ scanResult this entryClosed cs.
Proof.
  revert v. induction fuel as [|fuel IH]; intros v Hf Hinv Hsc; [lia|]. simpl.
  pose proof (_lineComments_body_inv this v Hinv) as Hb.
  pose proof (_lineComments_body_scanned this entryClosed v Hinv Hsc) as Hb'.
  destruct (TokenMap._lineComments_body this v) as [v'|r] eqn:Hbody.
  - apply _lineComments_body_Continue in Hbody. apply IH; [lia|done..].
  - destruct Hb as (cs & -> & Hsp & Hs). destruct Hb' as (cs' & Heq & Hres).
    exists cs. split_and!; [done..|].
    assert (cs' = cs) as <-; [|done].
    apply (f_equal (λ r : TResult TTokenMap LookupErrorCode,
                      match r with success m => m !! Comment | error _ => None end))
      in Heq.
    rewrite !lookup_singleton_eq in Heq. congruence.
Qed.

(** The scan of a whole line, whatever the state of entry. *)
Lemma _lineComments_scanResult this entryClosed :
  exists cs,
    TokenMap._lineComments this entryClosed = success {[ Comment := cs ]}
    /\ Forall (spanOn (TokenMap.line this)) cs
    /\ StronglySorted endsBefore cs
    /\ scanResult this entryClosed cs.
Proof.
  apply _lineComments_loop_scanned; simpl.
  - lia.
  - split_and!; [constructor..|].
    simpl. destruct entryClosed; [constructor|].
    split_and!; [constructor|lia..].
  - split_and!; simpl; [lia|apply Forall_nil_2|by intros i c ?| |].
    + destruct entryClosed; intros j ??; lia.
    + intros ->. by left.
Qed.

(** X6: the comments of a whole line.  Whatever the session and the state
    the line is entered in, [_lineComments] succeeds.  The comments it
    returns lie on the line, one behind the other; only the last one can be
    open, and then it runs to the end of the line; each starts at an opener
    ([//] or [/*]) at or after the cursor, except the first one of a line
    entered inside a block comment, which starts at offset 0; and every
    opener at or after the cursor lies inside one of the comments. *)
Theorem lineComments_sound_complete (this : TokenMap.t) (entryClosed : bool) :
  exists cs,
    TokenMap._lineComments this entryClosed = success {[ Comment := cs ]}
    /\ Forall (spanOn (TokenMap.line this)) cs
    /\ StronglySorted endsBefore cs
    /\ (forall i c, cs !! i = Some c -> closed c = false ->
          S i = length cs
          /\ endCharacter c = String.length (text (TokenMap.line this)))
    /\ (forall i c, cs !! i = Some c -> startsComment this entryClosed i c)
    /\ (forall j,
          TokenMap.lastIndex this <= j -> opensAt (text (TokenMap.line this)) j ->
          exists c, c ∈ cs /\ holds c j).
Proof.
  destruct (_lineComments_scanResult this entryClosed)
    as (cs & Hcs & Hsp & Hs & Hopen & Hstart & Hcov).
  by exists cs.
Qed.

(** X7: what the tasks of a line are handed.  [_parseCurrentLineComments]
    succeeds, records the comments of the line and hands them on with the
    state for the next line: the [closed] flag of the last comment, or the
    state of entry when the line has no comment.  Range exclusion accepts
    the comments as they are and leaves the array unchanged; a range it
    leaves to search overlaps no comment and holds no comment opener at or
    after the cursor. *)
Theorem comments_leave_searchable_ranges (this : TokenMap.t) (commentClosed : bool) :
  exists cs closed' value,
    TokenMap._parseCurrentLineComments this commentClosed
    = (success (mkLineComments closed' cs), TokenMap.upsert this {[ Comment := cs ]})
    /\ closed' = match last cs with Some c => closed c | None => commentClosed end
    /\ excludeLineRanges (TokenMap.line this) cs = (cs, success value)
    /\ Forall (λ seekRange,
         Forall (λ c : ITokenRange, nonOverlapping seekRange (range c)) cs
         /\ forall j,
              TokenMap.lastIndex this <= j -> covers j seekRange ->
              ~ opensAt (text (TokenMap.line this)) j) value.
Proof.
  destruct (_lineComments_scanResult this commentClosed)
    as (cs & Hcs & Hsp & Hs & _ & _ & Hcov).
  exists cs. eexists. eexists. split_and!.
  - by apply _parseCurrentLineComments_success.
  - done.
  - by apply excludeLineRanges_spans.
  - assert (Forall wfToken cs) as Hw.
    { eapply Forall_impl; [exact Hsp|]. intros t (a & b & Hab & Hr).
      unfold wfToken, startCharacter, endCharacter. rewrite Hr. simpl. lia. }
    assert (chained 0 cs (String.length (text (TokenMap.line this))) = true) as Hch.
    { apply chained_intro; [lia| |done].
      eapply Forall_impl; [exact Hsp|]. intros t (a & b & Hab & Hr).
      unfold wfToken, startCharacter, endCharacter. rewrite Hr. simpl. lia. }
    pose proof (gaps_apart (lineNumber (TokenMap.line this)) 0 _ _ Hch Hw) as Hap.
    eapply Forall_impl; [exact Hap|]. intros seekRange Hseek. split; [done|].
    intros j Hj Hcv Ho. destruct (Hcov j Hj Ho) as (c & Hin & Hh).
    rewrite Forall_forall in Hseek. specialize (Hseek c Hin).
    unfold nonOverlapping, covers, holds, startCharacter, endCharacter in *. lia.
Qed.

(** ** The first match *)

Lemma matchRanges_one l seekRange pattern lastIndex :
  character (end_ seekRange) <= String.length (text l) ->
  match matchRanges l seekRange pattern lastIndex 1 with
  | [] => forall i e, ~ matchIn l seekRange pattern lastIndex i e
  | m :: _ =>
      exists i e,
        m = matchAt l i e /\ i <= e /\ e <= character (end_ seekRange)
        /\ matchIn l seekRange pattern lastIndex i e
        /\ forall j e', matchIn l seekRange pattern lastIndex j e' -> i <= j
  end.
Proof.
  intros Hend. rewrite matchRanges_eq. case_decide; [lia|].
  unfold allMatches, matchAll, matchIn.
  set (s := take (character (end_ seekRange)) (chars (text l))).
  set (from := Nat.max (character (start seekRange)) lastIndex).
  assert (length s = character (end_ seekRange)) as Hlen
    by (unfold s; rewrite length_take, length_chars; lia).
  cbn [matchAllFrom].
  destruct (exec pattern s from) as [[i e]|] eqn:Hx; simpl.
  - apply exec_Some in Hx as (Hi & He & Hm & Hmin).
    exists i, e. split_and!; [done|lia|lia|lia|lia|done|].
    intros j e' [Hj Hm']. destruct (decide (i <= j)); [done|].
    rewrite Hmin in Hm' by lia. done.
  - intros i e [Hi Hm]. rewrite (exec_None _ _ _ Hx i) in Hm by lia. done.
Qed.

Lemma _token_loop_first this K pattern searchRanges :
  Forall (λ s, character (end_ s) <= String.length (text (TokenMap.line this)))
    searchRanges ->
  match TokenMap._token_loop this K pattern searchRanges with
  | (success value, this') =>
      exists before seekRange after i e,
        searchRanges = before ++ seekRange :: after
        /\ (forall s j e', s ∈ before ->
              ~ matchIn (TokenMap.line this) s pattern (TokenMap.lastIndex this) j e')
        /\ i <= e <= character (end_ seekRange)
        /\ matchIn (TokenMap.line this) seekRange pattern (TokenMap.lastIndex this) i e
        /\ (forall j e',
              matchIn (TokenMap.line this) seekRange pattern (TokenMap.lastIndex this) j e' ->
              i <= j)
        /\ value = {[ K := [tokenOf (matchAt (TokenMap.line this) i e) true] ]}
        /\ this' = TokenMap.setLastIndex this e
  | (error err, this') =>
      err = NotFound /\ this' = this
      /\ forall s j e', s ∈ searchRanges ->
           ~ matchIn (TokenMap.line this) s pattern (TokenMap.lastIndex this) j e'
  end.
Proof.
  induction searchRanges as [|sr rest IH]; intros Hb; simpl.
  { split_and!; [done..|]. by intros s j e' ?%elem_of_nil. }
  apply Forall_cons in Hb as [Hsr Hb]. specialize (IH Hb).
  pose proof (matchRanges_one (TokenMap.line this) sr pattern
                (TokenMap.lastIndex this) Hsr) as Hone.
  destruct (matchRanges _ sr _ _ _) as [|m ms].
  - destruct (TokenMap._token_loop this K pattern rest) as [[value|err] this'].
    + destruct IH as (before & seek & after & i & e & -> & Hno & [? ?] & ? & ? & ? & ?).
      exists (sr :: before), seek, after, i, e. split_and!; [done| |done..].
      intros s j e' [->|Hin]%elem_of_cons; [apply Hone|by apply Hno].
    + destruct IH as (-> & -> & Hno). split_and!; [done..|].
      intros s j e' [->|Hin]%elem_of_cons; [apply Hone|by apply Hno].
  - destruct Hone as (i & e & -> & Hie & He & Hin & Hmin).
    exists [], sr, rest, i, e. split_and!; [done| |lia|lia|done|done|done|].
    + by intros s j e' ?%elem_of_nil.
    + by rewrite matchAt_range by lia.
Qed.

(** X8: [_token] finds the first match.  Handed comments that lie on the
    line of the session, one behind the other, the task leaves the array as
    it is.  When it succeeds it returns one closed token of the requested
    kind: a match of the pattern at or after the cursor in one of the
    ranges the comments leave, the leftmost of all such matches, overlapping
    no comment; the cursor moves to the end of the token.  When it fails it
    fails with [NotFound], the session is unchanged, and the pattern has no
    match at or after the cursor in any of the ranges the comments leave. *)
Theorem token_first_match (this : TokenMap.t) (K : TokenKind)
    (cs : list ITokenRange) (pattern : RegExp) :
  Forall (spanOn (TokenMap.line this)) cs -> StronglySorted endsBefore cs ->
  let l := TokenMap.line this in
  let searchable := gaps (lineNumber l) 0 cs (String.length (text l)) in
  match TokenMap._token this K cs pattern with
  | (success value, cs', this') =>
      cs' = cs
      /\ exists seekRange i e,
           seekRange ∈ searchable /\ i <= e
           /\ matchIn l seekRange pattern (TokenMap.lastIndex this) i e
           /\ (forall s j e',
                 s ∈ searchable ->
                 matchIn l s pattern (TokenMap.lastIndex this) j e' -> i <= j)
           /\ Forall (λ c : ITokenRange,
                nonOverlapping (range (matchAt l i e)) (range c)) cs
           /\ value = {[ K := [tokenOf (matchAt l i e) true] ]}
           /\ this' = TokenMap.setLastIndex this e
  | (error err, cs', this') =>
      err = NotFound /\ cs' = cs /\ this' = this
      /\ forall s j e',
           s ∈ searchable -> ~ matchIn l s pattern (TokenMap.lastIndex this) j e'
  end.
Proof.
  intros Hsp Hs. cbv zeta. unfold TokenMap._token.
  rewrite (excludeLineRanges_spans _ _ Hsp Hs).
  set (l := TokenMap.line this).
  assert (Forall wfToken cs) as Hw.
  { eapply Forall_impl; [exact Hsp|]. intros t (a & b & Hab & Hr).
    unfold wfToken, startCharacter, endCharacter. rewrite Hr. simpl. lia. }
  assert (chained 0 cs (String.length (text l)) = true) as Hch.
  { apply chained_intro; [lia| |done].
    eapply Forall_impl; [exact Hsp|]. intros t (a & b & Hab & Hr).
    unfold wfToken, startCharacter, endCharacter. rewrite Hr. subst l. simpl. lia. }
  pose proof (gaps_shape (lineNumber l) 0 _ _ Hch Hw) as Hshape.
  pose proof (gaps_sorted (lineNumber l) 0 _ _ Hch Hw) as Hsorted.
  pose proof (gaps_apart (lineNumber l) 0 _ _ Hch Hw) as Hapart.
  pose proof (_token_loop_first this K pattern
                (gaps (lineNumber l) 0 cs (String.length (text l)))) as Hloop.
  destruct (TokenMap._token_loop _ _ _ _) as [[value|err] this'].
  - destruct Hloop as (before & seek & after & i & e & Heq & Hno & Hie & Hin & Hmin
                       & -> & ->).
    { eapply Forall_impl; [exact Hshape|]. simpl. tauto. }
    split; [done|]. exists seek, i, e.
    assert (seek ∈ gaps (lineNumber l) 0 cs (String.length (text l))) as Hseek
      by (rewrite Heq; apply elem_of_app; right; by left).
    split_and!; [done|lia|done| | |done|done].
    + intros s j e' Hsin Hm. rewrite Heq in Hsin, Hsorted.
      apply elem_of_app in Hsin as [Hsin|[->|Hsin]%elem_of_cons].
      * by apply Hno in Hm.
      * by apply Hmin in Hm.
      * apply StronglySorted_app_1_r, StronglySorted_inv in Hsorted as [_ Hafter].
        rewrite Forall_forall in Hafter. specialize (Hafter s Hsin).
        destruct Hin as [Hin _], Hm as [Hm _]. lia.
    + rewrite Forall_forall in Hapart. specialize (Hapart seek Hseek).
      eapply Forall_impl; [exact Hapart|]. intros c Hc.
      destruct Hin as [Hin _]. rewrite matchAt_range by lia.
      unfold nonOverlapping in *. simpl. lia.
  - destruct Hloop as (-> & -> & Hno); [|done].
    eapply Forall_impl; [exact Hshape|]. simpl. tauto.
Qed.

Lemma token_first_match_witness :
  let this :=
    TokenMap.setLastIndex
      (TokenMap.setLine (TokenMap.new ["/* name */ string name = 1; // name"])
         (mkTextLine 0 "/* name */ string name = 1; // name")) 17 in
  let l := TokenMap.line this in
  let cs := [lineToken l 0 10; lineToken l 28 35] in
  match TokenMap._token this FieldName cs (lit "name") with
  | (success value, _, this') =>
      value = {[ FieldName := [tokenOf (matchAt l 18 22) true] ]}
      /\ TokenMap.lastIndex this' = 22
  | (error _, _, _) => False
  end
  /\ match TokenMap._token this FieldName cs (lit "name") with
     | (success value, cs', this') =>
         cs' = cs
         /\ exists seekRange i e,
              seekRange ∈ gaps (lineNumber l) 0 cs (String.length (text l))
              /\ i <= e
              /\ matchIn l seekRange (lit "name") (TokenMap.lastIndex this) i e
              /\ (forall s j e',
                    s ∈ gaps (lineNumber l) 0 cs (String.length (text l)) ->
                    matchIn l s (lit "name") (TokenMap.lastIndex this) j e' -> i <= j)
              /\ Forall (λ c : ITokenRange,
                   nonOverlapping (range (matchAt l i e)) (range c)) cs
              /\ value = {[ FieldName := [tokenOf (matchAt l i e) true] ]}
              /\ this' = TokenMap.setLastIndex this e
     | (error err, cs', this') =>
         err = NotFound /\ cs' = cs /\ this' = this
         /\ forall s j e',
              s ∈ gaps (lineNumber l) 0 cs (String.length (text l)) ->
              ~ matchIn l s (lit "name") (TokenMap.lastIndex this) j e'
     end.
Proof.
  cbv zeta. split; [vm_compute; done|].
  apply (token_first_match
           (TokenMap.setLastIndex
              (TokenMap.setLine (TokenMap.new ["/* name */ string name = 1; // name"])
                 (mkTextLine 0 "/* name */ string name = 1; // name")) 17)
           FieldName).
  - apply Forall_cons_2; [|apply Forall_cons_2; [|apply Forall_nil_2]];
      (eexists _, _; split; [|reflexivity]; simpl; lia).
  - apply SSorted_cons; [apply SSorted_cons; [apply SSorted_nil|apply Forall_nil_2]|].
    apply Forall_cons_2; [|apply Forall_nil_2]. unfold endsBefore. vm_compute. lia.
Defined.

(** ** Where a lookup finds its token *)

Lemma _token_locates K pattern cs this value :
  Forall (spanOn (TokenMap.line this)) cs -> StronglySorted endsBefore cs ->
  (TokenMap._token this K cs pattern).1.1 = success value ->
  exists m seekRange,
    value = {[ K := [tokenOf m true] ]}
    /\ seekRange ∈ gaps (lineNumber (TokenMap.line this)) 0 cs
                     (String.length (text (TokenMap.line this)))
    /\ m ∈ matchRanges (TokenMap.line this) seekRange pattern (TokenMap.lastIndex this) 1.
Proof.
  intros Hsp Hs. unfold TokenMap._token.
  rewrite (excludeLineRanges_spans _ _ Hsp Hs).
  destruct (_token_loop_spec this K pattern
              (gaps (lineNumber (TokenMap.line this)) 0 cs
                 (String.length (text (TokenMap.line this)))))
    as [(m & sr & Hin & Hm & Heq)|Heq]; rewrite Heq; simpl; [|done].
  intros [= <-]. by exists m, sr.
Qed.

Lemma _getTasks_locates K tasks :
  TokenMap._getTasks K = success tasks ->
  exists front task, tasks = front ++ [task] /\ locates K task.
Proof.
  assert (forall k pattern, (forall st, pattern = kindPattern k st) ->
            locates k (λ excl _ this, TokenMap._token this k excl pattern)) as H1.
  { intros k pattern Hp cs st this value Hsp Hs Hv.
    rewrite <-(Hp st). by apply _token_locates. }
  assert (forall k pattern, (forall st, default pattern st = kindPattern k st) ->
            locates k (λ excl st this, TokenMap._token this k excl (default pattern st)))
    as H2.
  { intros k pattern Hp cs st this value Hsp Hs Hv.
    rewrite <-(Hp st). by apply _token_locates. }
  assert (locates EnumValueName (TokenMap.bind2 TokenMap._enumValueName)) as H3.
  { intros cs st this value Hsp Hs. unfold TokenMap.bind2, TokenMap._enumValueName.
    pose proof (_token_locates EnumValueName (default IDENTIFIER st) cs this) as Ht.
    destruct (TokenMap._token _ _ _ _) as [[[value'|e'] excl'] this']; simpl in *.
    - repeat case_match; simpl; intros [=]; subst; by apply Ht.
    - done. }
  destruct K; intros H; simplify_eq/=.
  - exists [TokenMap.bind1 TokenMap._enum], (TokenMap.bind2 TokenMap._enumName).
    split; [done|]. by apply (H2 EnumName).
  - exists [], (TokenMap.bind2 TokenMap._enumValueName). by split.
  - exists [TokenMap.bind1 TokenMap._fieldType], (TokenMap.bind2 TokenMap._fieldName).
    split; [done|]. by apply (H2 FieldName).
  - exists [TokenMap.bind1 TokenMap._message], (TokenMap.bind2 TokenMap._messageName).
    split; [done|]. by apply (H2 MessageName).
  - exists [TokenMap.bind1 TokenMap._package], (TokenMap.bind2 TokenMap._packageName).
    split; [done|]. by apply (H2 PackageName).
  - exists [], (TokenMap.bind1 TokenMap._required). split; [done|].
    by apply (H1 Required).
  - exists [TokenMap.bind1 TokenMap._rpc], (TokenMap.bind2 TokenMap._rpcName).
    split; [done|]. by apply (H2 RpcName).
  - exists [TokenMap.bind1 TokenMap._service], (TokenMap.bind2 TokenMap._serviceName).
    split; [done|]. by apply (H2 ServiceName).
Qed.

Lemma _getTasks_ready K tasks :
  TokenMap._getTasks K = success tasks -> ready K tasks.
Proof.
  intros Hk. split_and!.
  - assert (forall k pattern, recordsOnly
              (λ excl _ this, TokenMap._token this k excl pattern) k) as H1.
    { intros k pattern excl st this.
      destruct (_token_recordsOnly k pattern excl this) as [Ht Hv]. split; auto. }
    assert (forall k pattern, recordsOnly
              (λ excl st this, TokenMap._token this k excl (default pattern st)) k) as H2.
    { intros k pattern excl st this.
      destruct (_token_recordsOnly k (default pattern st) excl this) as [Ht Hv].
      split; auto. }
    destruct K; simplify_eq/=.
    + exists [Enum]. split_and!;
        [|by intros ?%list_elem_of_singleton|by intros ?%list_elem_of_singleton].
      constructor; [apply H1|]. constructor; [apply H2|constructor].
    + exists []. split_and!; [|apply not_elem_of_nil..].
      constructor; [apply _enumValueName_recordsOnly|constructor].
    + exists [FieldType]. split_and!;
        [|by intros ?%list_elem_of_singleton|by intros ?%list_elem_of_singleton].
      constructor; [apply _fieldType_recordsOnly|]. constructor; [apply H2|constructor].
    + exists [Message]. split_and!;
        [|by intros ?%list_elem_of_singleton|by intros ?%list_elem_of_singleton].
      constructor; [apply H1|]. constructor; [apply H2|constructor].
    + exists [Package]. split_and!;
        [|by intros ?%list_elem_of_singleton|by intros ?%list_elem_of_singleton].
      constructor; [apply H1|]. constructor; [apply H2|constructor].
    + exists []. split_and!; [|apply not_elem_of_nil..].
      constructor; [apply H1|constructor].
    + exists [Rpc]. split_and!;
        [|by intros ?%list_elem_of_singleton|by intros ?%list_elem_of_singleton].
      constructor; [apply H1|]. constructor; [apply H2|constructor].
    + exists [Service]. split_and!;
        [|by intros ?%list_elem_of_singleton|by intros ?%list_elem_of_singleton].
      constructor; [apply H1|]. constructor; [apply H2|constructor].
  - intros ->. done.
  - intros ->. done.
  - by eapply _getTasks_advances.
  - by eapply _getTasks_respects.
  - destruct (_getTasks_locates K tasks Hk) as (front & task & -> & Hloc).
    intros task'. rewrite last_snoc. by intros [= <-].
Qed.

Lemma runTasks_located K this tasks cs st kinds :
  Forall2 recordsOnly tasks (kinds ++ [K]) -> K ∉ kinds -> Comment ∉ kinds ->
  K <> FieldCardinality -> K <> Comment ->
  Forall advances tasks -> Forall respects tasks ->
  (forall task, last tasks = Some task -> locates K task) ->
  Forall (spanOn (TokenMap.line this)) cs -> StronglySorted endsBefore cs ->
  TokenMap.tokens this !! K = None ->
  match TokenMap.runTasks this tasks cs st with
  | Return _ => True
  | Continue (this', tasks', _) =>
      TokenMap.tokens this' !! Comment = TokenMap.tokens this !! Comment
      /\ TokenMap.doc this' = TokenMap.doc this
      /\ match tasks' with
         | [] =>
             exists m seekRange li,
               TokenMap.tokens this' !! K = Some [tokenOf m true]
               /\ seekRange ∈ gaps (lineNumber (TokenMap.line this)) 0 cs
                                (String.length (text (TokenMap.line this)))
               /\ TokenMap.lastIndex this <= li
               /\ m ∈ matchRanges (TokenMap.line this) seekRange (kindPattern K st) li 1
         | _ => TokenMap.tokens this' !! K = None /\ ready K tasks'
         end
  end.
Proof.
  intros HF HnK HnC HFC HC Ha Hr Hlast. revert kinds this HF HnK HnC Ha Hr Hlast.
  induction tasks as [|task rest IH];
    intros kinds this HF HnK HnC Ha Hr Hlast Hsp Hs Hnone.
  { apply Forall2_nil_inv_l in HF. by destruct kinds. }
  pose proof HF as HF0.
  apply Forall2_cons_inv_l in HF as (k & ks' & Hrec & HF & Heq).
  pose proof Ha as Ha0. pose proof Hr as Hr0.
  apply Forall_cons in Ha as [Hta Ha]. apply Forall_cons in Hr as [Htr Hr].
  simpl.
  destruct (Hta cs st this) as (Hli & Hline & Hdoc).
  destruct (Htr cs st this Hsp Hs) as [Hcs _].
  destruct (Hrec cs st this) as [Htok Hval].
  destruct (task cs st this) as [[[value|e] cs'] this1] eqn:Htask; simpl in *; subst cs'.
  - destruct (Hval value eq_refl) as [t ->].
    assert (TokenMap.tokens this1 !! K = None) as Hnone1 by (by rewrite Htok).
    destruct kinds as [|k0 kinds']; simplify_eq/=.
    + apply Forall2_nil_inv_r in HF as ->. cbn [TokenMap.runTasks].
      split_and!.
      * rewrite upsert_lookup_ne by done. by apply Htok.
      * done.
      * edestruct (Hlast task eq_refl cs st this) as (m & sr & Hv & Hin & Hm);
          [done|done|by rewrite Htask|].
        exists m, sr, (TokenMap.lastIndex this).
        split_and!; [|done|lia|done].
        rewrite upsert_lookup, Hnone1. simpl.
        apply (f_equal (.!! k)) in Hv. rewrite !lookup_singleton_eq in Hv.
        congruence.
    + apply not_elem_of_cons in HnK as [HneK HnK].
      apply not_elem_of_cons in HnC as [HneC HnC].
      assert (rest <> []) as Hrest.
      { intros ->. apply Forall2_nil_inv_l in HF. by destruct kinds'. }
      specialize (IH kinds' (TokenMap.upsert this1 {[k := [t]]}) HF HnK HnC Ha Hr).
      change (TokenMap.line (TokenMap.upsert this1 {[k := [t]]}))
        with (TokenMap.line this1) in IH.
      rewrite upsert_lastIndex in IH. rewrite Hline in IH.
      rewrite !upsert_lookup_ne in IH by done.
      change (TokenMap.doc (TokenMap.upsert this1 {[k := [t]]}))
        with (TokenMap.doc this1) in IH.
      rewrite Hdoc in IH.
      assert (forall task0, last rest = Some task0 -> locates K task0) as Hlast'.
      { intros task0 Hl. apply Hlast. destruct rest; [done|]. exact Hl. }
      specialize (IH Hlast' Hsp Hs Hnone1).
      destruct (TokenMap.runTasks _ rest cs st) as [[[this2 tasks2] cs2]|[e2 this2]];
        [|done].
      destruct IH as (HC2 & Hd2 & IH). split_and!; [by rewrite HC2, Htok|done|].
      destruct tasks2; [|done].
      destruct IH as (m & sr & li & ? & ? & ? & ?). exists m, sr, li.
      split_and!; [done..|lia|done].
  - assert (TokenMap.tokens this1 !! K = None) as Hnone1 by (by rewrite Htok).
    destruct e; try done. split_and!; [by apply Htok|done|done|].
    split_and!; [by exists kinds|done..].
Qed.

Lemma parseLine_located K this txt n st tasks cc :
  ready K tasks -> TokenMap.tokens this !! K = None ->
  exists cs,
    Forall (spanOn (mkTextLine n txt)) cs /\ StronglySorted endsBefore cs
    /\ match TokenMap.parseLine this txt n K st tasks cc with
       | Return (success r, this') =>
           exists m seekRange li,
             r = range m
             /\ TokenMap.tokens this' !! K = Some [tokenOf m true]
             /\ seekRange ∈ gaps n 0 cs (String.length txt)
             /\ TokenMap.lastIndex this <= li
             /\ m ∈ matchRanges (mkTextLine n txt) seekRange (kindPattern K st) li 1
             /\ TokenMap.tokens this' !! Comment
                = Some (default [] (TokenMap.tokens this !! Comment) ++ cs)
             /\ TokenMap.doc this' = TokenMap.doc this
       | Return (error _, _) => True
       | Continue (this', tasks', _) =>
           ready K tasks' /\ TokenMap.tokens this' !! K = None
           /\ TokenMap.lastIndex this' = 0
           /\ TokenMap.tokens this' !! Comment
              = Some (default [] (TokenMap.tokens this !! Comment) ++ cs)
           /\ TokenMap.doc this' = TokenMap.doc this
       end.
Proof.
  intros Hready Hnone.
  pose proof Hready as ((kinds & HF & HnK & HnC) & HFC & HC & Ha & Hr & Hlast).
  unfold TokenMap.parseLine.
  set (this0 := TokenMap.setLine this (mkTextLine n txt)).
  destruct (_lineComments_spans this0 cc) as (cs & Hcs & Hsp & Hs).
  exists cs. split_and!; [done..|].
  rewrite (_parseCurrentLineComments_success _ _ _ Hcs).
  cbn [commentsRanges commentsClosed].
  pose proof (runTasks_located K (TokenMap.upsert this0 {[ Comment := cs ]})
                tasks cs st kinds HF HnK HnC HFC HC Ha Hr Hlast Hsp Hs) as Hrun.
  rewrite upsert_lookup_ne in Hrun by done. specialize (Hrun Hnone).
  rewrite upsert_lookup in Hrun.
  change (TokenMap.line (TokenMap.upsert this0 {[ Comment := cs ]}))
    with (mkTextLine n txt) in Hrun.
  change (TokenMap.doc (TokenMap.upsert this0 {[ Comment := cs ]}))
    with (TokenMap.doc this) in Hrun.
  change (TokenMap.lastIndex (TokenMap.upsert this0 {[ Comment := cs ]}))
    with (TokenMap.lastIndex this) in Hrun.
  change (TokenMap.tokens this0) with (TokenMap.tokens this) in Hrun.
  cbn [lineNumber text] in Hrun.
  destruct (TokenMap.runTasks _ _ _ _) as [[[this2 tasks2] cs2]|[e this2]]; [|done].
  destruct Hrun as (HC2 & Hd2 & Hrun). unfold TokenMap.firstRange.
  destruct tasks2 as [|task2 tasks2].
  - destruct Hrun as (m & sr & li & Hk & Hin & Hli & Hm). rewrite Hk. simpl.
    exists m, sr, li. done.
  - destruct Hrun as [Hk Hready2]. rewrite Hk. simpl. done.
Qed.

Lemma parseLines_located K lines n this st tasks cc r this' :
  ready K tasks -> TokenMap.tokens this !! K = None ->
  drop n (TokenMap.doc this) = lines -> commentsBefore n this ->
  TokenMap.parseLines lines n this K st tasks cc = (success r, this') ->
  exists n' txt cs m seekRange li,
    n <= n' /\ TokenMap.doc this !! n' = Some txt
    /\ Forall (spanOn (mkTextLine n' txt)) cs /\ StronglySorted endsBefore cs
    /\ seekRange ∈ gaps n' 0 cs (String.length txt)
    /\ m ∈ matchRanges (mkTextLine n' txt) seekRange (kindPattern K st) li 1
    /\ (n' = n -> TokenMap.lastIndex this <= li)
    /\ r = range m
    /\ TokenMap.tokens this' !! K = Some [tokenOf m true]
    /\ (forall c : ITokenRange,
          c ∈ default [] (TokenMap.tokens this' !! Comment) ->
          line (start (range c)) = n' -> c ∈ cs)
    /\ TokenMap.doc this' = TokenMap.doc this.
Proof.
  revert n this tasks cc.
  induction lines as [|txt lines IH]; intros n this tasks cc Hready Hnone Hdrop Hbefore;
    simpl; [done|].
  assert (TokenMap.doc this !! n = Some txt) as Hn.
  { pose proof (lookup_drop (TokenMap.doc this) n 0) as H.
    rewrite Hdrop, Nat.add_0_r in H. done. }
  assert (drop (S n) (TokenMap.doc this) = lines) as Hdrop'.
  { rewrite <-Nat.add_1_r, <-drop_drop, Hdrop. done. }
  destruct (parseLine_located K this txt n st tasks cc Hready Hnone)
    as (cs & Hsp & Hs & Hline).
  assert (forall (c : ITokenRange),
            c ∈ default [] (TokenMap.tokens this !! Comment) ++ cs ->
            line (start (range c)) < S n
            /\ (line (start (range c)) = n -> c ∈ cs)) as Hcom.
  { intros c [Hc|Hc]%elem_of_app.
    - specialize (Hbefore c Hc). split; [lia|]. intros; lia.
    - split; [|done]. rewrite Forall_forall in Hsp.
      destruct (Hsp c Hc) as (a & b & _ & ->). simpl. lia. }
  destruct (TokenMap.parseLine this txt n K st tasks cc)
    as [[[this1 tasks1] cc1]|[[value|e] this1]].
  - destruct Hline as (Hready1 & Hnone1 & Hli1 & HC1 & Hd1).
    intros Hp. apply IH in Hp; [|done|done|by rewrite Hd1|].
    + destruct Hp as (n' & txt' & cs' & m & sr & li & Hn' & Hdoc & ? & ? & ? & ? & ? & ?
                      & ? & ? & Hd').
      exists n', txt', cs', m, sr, li. rewrite Hd1 in Hdoc, Hd'.
      split_and!; [lia|done|done|done|done|done|intros; lia|done|done|done|done].
    + intros c Hc. rewrite HC1 in Hc. simpl in Hc. by apply (Hcom c).
  - intros [= <- <-].
    destruct Hline as (m & sr & li & -> & Hk & Hin & Hli & Hm & HC1 & Hd1).
    exists n, txt, cs, m, sr, li.
    split_and!; [lia|done|done|done|done|done|done|done|done| |done].
    intros c Hc. rewrite HC1 in Hc. simpl in Hc. by apply (Hcom c).
  - done.
Qed.

Lemma parseFragment_located this K n li st r this' :
  TokenMap.tokens this = ∅ ->
  TokenMap.parseFragment this K n li st = (success r, this') ->
  exists n' txt cs m seekRange i,
    n <= n' /\ TokenMap.doc this !! n' = Some txt
    /\ Forall (spanOn (mkTextLine n' txt)) cs /\ StronglySorted endsBefore cs
    /\ seekRange ∈ gaps n' 0 cs (String.length txt)
    /\ m ∈ matchRanges (mkTextLine n' txt) seekRange (kindPattern K st) i 1
    /\ (n' = n -> li <= i)
    /\ r = range m
    /\ TokenMap.tokens this' !! K = Some [tokenOf m true]
    /\ (forall c : ITokenRange,
          c ∈ default [] (TokenMap.tokens this' !! Comment) ->
          line (start (range c)) = n' -> c ∈ cs)
    /\ TokenMap.doc this' = TokenMap.doc this.
Proof.
  intros Hempty. unfold TokenMap.parseFragment.
  destruct (TokenMap._getTasks K) as [tasks|e] eqn:Hk; [|done].
  change (TokenMap.doc (TokenMap.setLastIndex this li)) with (TokenMap.doc this).
  destruct (lineAt (TokenMap.doc this) n) as [l|]; [|done].
  intros Hp. apply parseLines_located in Hp; [done|by apply _getTasks_ready|..].
  - simpl. rewrite Hempty. apply lookup_empty.
  - done.
  - intros c. simpl. rewrite Hempty, lookup_empty. by intros ?%elem_of_nil.
Qed.

(** X9: where [parseFragment] finds its token.  In a session with no token
    recorded, a range the call returns lies on a line of the document at or
    after [lineNumber], inside the text of that line, and at or after
    [lastIndex] when that line is the line [lineNumber] itself; it is the
    first range the session holds for the kind afterwards; and it overlaps
    no comment the session has recorded on that line. *)
Theorem parseFragment_location (this : TokenMap.t) (K : TokenKind)
    (lineNumber lastIndex : nat) (searchText : option RegExp)
    (r : Range) (this' : TokenMap.t) :
  TokenMap.tokens this = ∅ ->
  TokenMap.parseFragment this K lineNumber lastIndex searchText = (success r, this') ->
  exists n txt a b,
    lineNumber <= n /\ TokenMap.doc this !! n = Some txt
    /\ r = mkRange (mkPosition n a) (mkPosition n b)
    /\ a <= b <= String.length txt
    /\ (n = lineNumber -> lastIndex <= a)
    /\ TokenMap.firstRange this' K = Some r
    /\ (forall c : ITokenRange,
          c ∈ default [] (TokenMap.tokens this' !! Comment) ->
          line (start (range c)) = n -> nonOverlapping r (range c)).
Proof.
  intros Hempty Hp.
  apply parseFragment_located in Hp
    as (n & txt & cs & m & sr & i & Hn & Hdoc & Hsp & Hs & Hin & Hm & Hli & -> & Hk
        & Hcom & _); [|done].
  assert (Forall wfToken cs) as Hw.
  { eapply Forall_impl; [exact Hsp|]. intros t (a & b & Hab & Hr).
    unfold wfToken, startCharacter, endCharacter. rewrite Hr. simpl in *. lia. }
  assert (chained 0 cs (String.length txt) = true) as Hch.
  { apply chained_intro; [lia| |done].
    eapply Forall_impl; [exact Hsp|]. intros t (a & b & Hab & Hr).
    unfold wfToken, startCharacter, endCharacter. rewrite Hr. simpl in *. lia. }
  pose proof (gaps_apart n 0 _ _ Hch Hw) as Hap.
  rewrite Forall_forall in Hap. specialize (Hap _ Hin).
  apply matchRanges_matcher in Hm as (a & b & -> & Ha & Hb & Hb' & _).
  simpl in Hb'.
  exists n, txt, a, b. rewrite matchAt_range by lia. simpl.
  split_and!; [done|done|done|lia|lia|intros ->; specialize (Hli eq_refl); lia| |].
  - unfold TokenMap.firstRange. rewrite Hk.
    cbn [mbind option_bind head fmap option_fmap option_map tokenOf range matched].
    f_equal. apply (matchAt_range (mkTextLine n txt)). lia.
  - intros c Hc Hl. specialize (Hcom c Hc Hl).
    rewrite Forall_forall in Hap. specialize (Hap c Hcom).
    unfold nonOverlapping in *. simpl. lia.
Qed.

Lemma parseFragment_location_witness :
  let doc := ["/* message Old {"; "*/ message Foo { // message Bar"] in
  let run := TokenMap.parseFragment (TokenMap.new doc) MessageName 0 0 None in
  run.1 = success (mkRange (mkPosition 1 11) (mkPosition 1 14))
  /\ exists n txt a b,
       0 <= n /\ doc !! n = Some txt
       /\ mkRange (mkPosition 1 11) (mkPosition 1 14)
          = mkRange (mkPosition n a) (mkPosition n b)
       /\ a <= b <= String.length txt
       /\ (n = 0 -> 0 <= a)
       /\ TokenMap.firstRange run.2 MessageName
          = Some (mkRange (mkPosition 1 11) (mkPosition 1 14))
       /\ (forall c : ITokenRange,
             c ∈ default [] (TokenMap.tokens run.2 !! Comment) ->
             line (start (range c)) = n ->
             nonOverlapping (mkRange (mkPosition 1 11) (mkPosition 1 14)) (range c)).
Proof.
  cbv zeta. split; [vm_compute; reflexivity|].
  apply (parseFragment_location
           (TokenMap.new ["/* message Old {"; "*/ message Foo { // message Bar"])
           MessageName 0 0 None).
  - reflexivity.
  - vm_compute. reflexivity.
Defined.

(** ** The text of a located token *)

Lemma substring_prefix i n E s :
  i + n <= E -> String.substring i n (String.substring 0 E s) = String.substring i n s.
Proof.
  intros H. apply chars_inj. rewrite !chars_substring, drop_0.
  rewrite !take_drop_commute, take_take. f_equal. f_equal. lia.
Qed.

(** A match of a literal word is the word. *)
Lemma matchRanges_lit l seekRange w lastIndex limit m :
  m ∈ matchRanges l seekRange (lit w) lastIndex limit -> fullMatch m = w.
Proof.
  intros (i & e & -> & Hi & He & He' & Hm)%matchRanges_matcher.
  replace (take (character (end_ seekRange)) (chars (text l)))
    with (chars (String.substring 0 (character (end_ seekRange)) (text l))) in Hm
    by (by rewrite chars_substring, drop_0).
  rewrite matcher_lit in Hm. case_decide as Ho; [|done]. injection Hm as <-.
  unfold occursAt in Ho. rewrite substring_prefix in Ho by lia.
  simpl. by replace (i + String.length w - i) with (String.length w) by lia.
Qed.

(** X10: the text at the range returned.  In a session with no token
    recorded, when the kind is searched with a literal word ([required] for
    [Required]; the search text for a name searched with a literal search
    text), the document holds exactly that word at the range
    [parseFragment] returns, and the range is as wide as the word is long. *)
Theorem parseFragment_literal_text (this : TokenMap.t) (K : TokenKind)
    (lineNumber lastIndex : nat) (searchText : option RegExp) (w : string)
    (r : Range) (this' : TokenMap.t) :
  TokenMap.tokens this = ∅ ->
  kindPattern K searchText = lit w ->
  TokenMap.parseFragment this K lineNumber lastIndex searchText = (success r, this') ->
  getText (TokenMap.doc this) r = w
  /\ character (end_ r) = character (start r) + String.length w.
Proof.
  intros Hempty Hpat Hp.
  apply parseFragment_located in Hp
    as (n & txt & cs & m & sr & i & Hn & Hdoc & _ & _ & _ & Hm & _ & -> & _); [|done].
  rewrite Hpat in Hm.
  assert (lineAt (TokenMap.doc this) n = Some (mkTextLine n txt)) as Hl
    by (unfold lineAt; by rewrite Hdoc).
  pose proof (matchRanges_lit _ _ _ _ _ _ Hm) as Hw.
  apply matchRanges_matcher in Hm as (a & b & -> & Ha & Hb & Hb' & _).
  split.
  - rewrite (getText_matchAt _ (mkTextLine n txt)) by (done || lia). exact Hw.
  - rewrite matchAt_range by lia. simpl. simpl in Hw, Hb'.
    rewrite <-Hw, length_substring by lia. lia.
Qed.

Lemma parseFragment_literal_text_witness :
  let doc := ["message Foo {"; "  // required"; "  required /* x */ string name = 1;"] in
  getText doc (mkRange (mkPosition 2 2) (mkPosition 2 10)) = "required"
  /\ 10 = 2 + String.length "required".
Proof.
  cbv zeta.
  apply (parseFragment_literal_text
           (TokenMap.new ["message Foo {"; "  // required";
                          "  required /* x */ string name = 1;"])
           Required 1 0 None "required"
           (mkRange (mkPosition 2 2) (mkPosition 2 10))
           (TokenMap.parseFragment
              (TokenMap.new ["message Foo {"; "  // required";
                             "  required /* x */ string name = 1;"])
              Required 1 0 None).2).
  - reflexivity.
  - reflexivity.
  - vm_compute. reflexivity.
Defined.

(** ** The text of a located name *)

Lemma repeatMatcher_Class negated items s fuel i e :
  repeatMatcher (matcher (Class negated items) s) Some fuel i = Some e ->
  i <= e /\ classRun negated items s i e.
Proof.
  revert i. induction fuel as [|fuel IH]; intros i; simpl.
  - intros [= <-]. split; [done|]. intros j ?; lia.
  - destruct (s !! i) as [c|] eqn:Hi.
    + destruct (inClass negated items c) eqn:Hc.
      * rewrite (proj2 (Nat.ltb_lt i (S i))) by lia.
        destruct (repeatMatcher _ _ fuel (S i)) as [e'|] eqn:Hr.
        -- intros [= <-]. apply IH in Hr as [Hle Hrun]. split; [lia|].
           intros j Hj. destruct (decide (j = i)) as [->|]; [by exists c|].
           apply Hrun. lia.
        -- intros [= <-]. split; [done|]. intros j ?; lia.
      * intros [= <-]. split; [done|]. intros j ?; lia.
    + intros [= <-]. split; [done|]. intros j ?; lia.
Qed.

(** A match of [[a-zA-Z_]\w*]: a letter or an underscore, then word
    characters. *)
Lemma matcher_IDENTIFIER s i e :
  matcher IDENTIFIER s i Some = Some e ->
  i < e
  /\ classRun false [CRange "a" "z"; CRange "A" "Z"; CChar "_"] s i (S i)
  /\ classRun false [CWord] s (S i) e.
Proof.
  unfold IDENTIFIER. cbn [matcher].
  destruct (s !! i) as [c|] eqn:Hi; [|done].
  destruct (inClass false _ c) eqn:Hc; [|done].
  intros [Hle Hrun]%repeatMatcher_Class. split_and!; [lia| |done].
  intros j Hj. replace j with i by lia. by exists c.
Qed.

Lemma isIdentifier_intro s i e :
  i < e <= length s ->
  classRun false [CRange "a" "z"; CRange "A" "Z"; CChar "_"] s i (S i) ->
  classRun false [CWord] s (S i) e ->
  exists c w', take (e - i) (drop i s) = c :: w'
    /\ inClass false [CRange "a" "z"; CRange "A" "Z"; CChar "_"] c = true
    /\ Forall (λ c', isWordChar c' = true) w'.
Proof.
  intros Hie Hfirst Hrest.
  destruct (Hfirst i) as (c & Hc & Hin); [lia|].
  exists c, (take (e - S i) (drop (S i) s)). split_and!; [|done|].
  - replace (e - i) with (S (e - S i)) by lia. by apply take_drop_cons.
  - apply Forall_forall. intros c' Hc'.
    apply list_elem_of_lookup in Hc' as [k Hk].
    apply lookup_take_Some in Hk as [Hk Hlt]. rewrite lookup_drop in Hk.
    destruct (Hrest (S i + k)) as (c'' & Hc'' & Hin''); [lia|].
    rewrite Hk in Hc''. injection Hc'' as <-.
    unfold inClass in Hin''. simpl in Hin''. by rewrite orb_false_r in Hin''.
Qed.

(** X11: a name found without a search text is an identifier.  In a
    session with no token recorded, the text the document holds at the
    range returned for an enum, enum value, field, message, rpc or service
    name starts with a letter or an underscore and goes on with letters,
    digits and underscores. *)
Theorem parseFragment_identifier (this : TokenMap.t) (K : TokenKind)
    (lineNumber lastIndex : nat) (r : Range) (this' : TokenMap.t) :
  TokenMap.tokens this = ∅ ->
  K ∈ [EnumName; EnumValueName; FieldName; MessageName; RpcName; ServiceName] ->
  TokenMap.parseFragment this K lineNumber lastIndex None = (success r, this') ->
  isIdentifier (getText (TokenMap.doc this) r).
Proof.
  intros Hempty HK Hp.
  apply parseFragment_located in Hp
    as (n & txt & cs & m & sr & i & Hn & Hdoc & _ & _ & _ & Hm & _ & -> & _); [|done].
  assert (kindPattern K None = IDENTIFIER) as Hpat.
  { repeat (apply elem_of_cons in HK as [->|HK]; [done|]). by apply elem_of_nil in HK. }
  rewrite Hpat in Hm.
  assert (lineAt (TokenMap.doc this) n = Some (mkTextLine n txt)) as Hl
    by (unfold lineAt; by rewrite Hdoc).
  apply matchRanges_matcher in Hm as (a & b & -> & Ha & Hb & Hb' & Hm).
  rewrite (getText_matchAt _ (mkTextLine n txt)) by (done || lia).
  simpl in Hb', Hm |- *.
  apply matcher_IDENTIFIER in Hm as (Hab & Hfirst & Hrest).
  set (s := take (character (end_ sr)) (chars txt)) in *.
  assert (b <= length s) as Hlen
    by (unfold s; rewrite length_take, length_chars; lia).
  destruct (isIdentifier_intro s a b) as (c & w' & Hw & Hc & Hws); [lia|done..|].
  assert (chars (String.substring a (b - a) txt) = c :: w') as Hchars.
  { rewrite <-Hw, chars_substring. unfold s.
    rewrite !take_drop_commute, take_take. f_equal. f_equal. lia. }
  destruct (String.substring a (b - a) txt) as [|c0 w0]; [done|].
  injection Hchars as -> <-. done.
Qed.

Lemma parseFragment_identifier_witness :
  isIdentifier
    (getText ["enum Status { // Old"; "  STATUS_UNKNOWN = 0;"]
       (mkRange (mkPosition 0 5) (mkPosition 0 11))).
Proof.
  apply (parseFragment_identifier
           (TokenMap.new ["enum Status { // Old"; "  STATUS_UNKNOWN = 0;"])
           EnumName 0 0
           (mkRange (mkPosition 0 5) (mkPosition 0 11))
           (TokenMap.parseFragment
              (TokenMap.new ["enum Status { // Old"; "  STATUS_UNKNOWN = 0;"])
              EnumName 0 0 None).2).
  - reflexivity.
  - apply list_elem_of_here.
  - vm_compute. reflexivity.
Defined.

(** ** The errors of a lookup, kind by kind *)

Lemma _token_error this kind excludeRanges pattern e :
  (TokenMap._token this kind excludeRanges pattern).1.1 = error e ->
  e = NotFound \/ e = InvalidExcludeRanges.
Proof.
  destruct (_token_spec this kind excludeRanges pattern)
    as [(m & sr & _ & ->)|(e' & He & ->)]; simpl; [done|].
  by intros [= <-].
Qed.

Lemma task_errors K tasks task excludeRanges searchText this e :
  TokenMap._getTasks K = success tasks -> task ∈ tasks ->
  (task excludeRanges searchText this).1.1 = error e ->
  e = NotFound \/ e = InvalidExcludeRanges
  \/ (e = UnexpectedEnumValueName /\ K = EnumValueName)
  \/ ((e = UnexpectedFieldType \/ e = UnexpectedGroup) /\ K = FieldName).
Proof.
  assert (forall k pattern,
            (TokenMap._token this k excludeRanges pattern).1.1 = error e ->
            e = NotFound \/ e = InvalidExcludeRanges
            \/ (e = UnexpectedEnumValueName /\ K = EnumValueName)
            \/ ((e = UnexpectedFieldType \/ e = UnexpectedGroup) /\ K = FieldName)) as H1.
  { intros k pattern H. apply _token_error in H as [->| ->]; auto. }
  intros Hk Hin.
  destruct K; simplify_eq/=;
    repeat (apply elem_of_cons in Hin as [->|Hin]);
    try (by apply elem_of_nil in Hin);
    unfold TokenMap.bind1, TokenMap.bind2,
      TokenMap._enum, TokenMap._enumName, TokenMap._fieldName, TokenMap._message,
      TokenMap._messageName, TokenMap._package, TokenMap._packageName,
      TokenMap._required, TokenMap._rpc, TokenMap._rpcName, TokenMap._service,
      TokenMap._serviceName; try apply H1.
  - unfold TokenMap._enumValueName.
    pose proof (H1 EnumValueName (default IDENTIFIER searchText)) as Ht.
    destruct (TokenMap._token _ _ _ _) as [[[value|e'] excl'] this']; simpl in *.
    + repeat case_match; simpl; intros [=]; subst. auto.
    + done.
  - unfold TokenMap._fieldType.
    destruct (excludeLineRanges _ _) as [excl' [value|err]]; simpl.
    + pose proof (_fieldType_loop_errors this
        (TokenMap.tokens this !! FieldCardinality ≫= head) value e) as He.
      destruct (TokenMap._fieldType_loop _ _ _) as [r this']; simpl in *.
      intros ->. destruct (He eq_refl) as [->|[->| ->]]; auto 10.
    + intros [= <-]. auto.
Qed.

Lemma parseFragment_error_kinds this K n li st e :
  (TokenMap.parseFragment this K n li st).1 = error e ->
  (e = NotImplemented
   /\ K ∈ [Comment; Enum; FieldCardinality; FieldType; Message; Package; Rpc; Service])
  \/ (e = LineNumber /\ TokenMap._getTasks K <> error NotImplemented
      /\ lineCount (TokenMap.doc this) <= n)
  \/ e = NotFound
  \/ (e = UnexpectedEnumValueName /\ K = EnumValueName)
  \/ ((e = UnexpectedFieldType \/ e = UnexpectedGroup) /\ K = FieldName).
Proof.
  intros He. pose proof (parseFragment_errors _ _ _ _ _ _ He) as Hset.
  revert He. unfold TokenMap.parseFragment.
  destruct (TokenMap._getTasks K) as [tasks|e'] eqn:Hk.
  - change (TokenMap.doc (TokenMap.setLastIndex this li)) with (TokenMap.doc this).
    destruct (lineAt _ n) as [l|] eqn:Hl.
    + destruct (TokenMap.parseLines _ _ _ _ _ _ _) as [r this'] eqn:Hp.
      cbn [fst]. intros ->.
      apply parseLines_error in Hp as [->|(task & excl & this0 & Hin & Hr)]; [auto|].
      destruct (task_errors K tasks task excl st this0 e Hk Hin Hr)
        as [->|[->|H]]; [auto| |auto 10].
      repeat (apply elem_of_cons in Hset as [Hset|Hset]; [done|]).
      by apply elem_of_nil in Hset.
    + cbn [fst]. intros [= <-]. right; left. split_and!; [done|done|].
      unfold lineAt in Hl. by apply fmap_None, lookup_ge_None in Hl.
  - cbn [fst]. intros [= ->]. left.
    destruct K; simplify_eq/=; split; try done;
      repeat (apply elem_of_cons; (by left) || right).
Qed.

(** X12: the errors of [parseFragment], kind by kind.  A call fails with
    [NotImplemented] for a kind without tasks only; with [LineNumber] for a
    kind with tasks and a line past the end of the document only; with
    [UnexpectedEnumValueName] for [EnumValueName] only; with
    [UnexpectedFieldType] or [UnexpectedGroup] for [FieldName] only; and
    otherwise with [NotFound].  It never fails with [InvalidExcludeRanges]
    nor with [UnexpectedCommentOpen]. *)
Theorem parseFragment_error_causes (this : TokenMap.t) (K : TokenKind)
    (lineNumber lastIndex : nat) (searchText : option RegExp) (e : LookupErrorCode) :
  (TokenMap.parseFragment this K lineNumber lastIndex searchText).1 = error e ->
  ((e = NotImplemented
    /\ K ∈ [Comment; Enum; FieldCardinality; FieldType; Message; Package; Rpc; Service])
  \/ (e = LineNumber /\ TokenMap._getTasks K <> error NotImplemented
      /\ lineCount (TokenMap.doc this) <= lineNumber)
  \/ e = NotFound
  \/ (e = UnexpectedEnumValueName /\ K = EnumValueName)
  \/ ((e = UnexpectedFieldType \/ e = UnexpectedGroup) /\ K = FieldName))
  /\ e <> InvalidExcludeRanges /\ e <> UnexpectedCommentOpen.
Proof.
  intros He. split; [by eapply parseFragment_error_kinds|].
  apply parseFragment_errors in He.
  repeat (apply elem_of_cons in He as [->|He]; [done|]).
  by apply elem_of_nil in He.
Qed.

Lemma parseFragment_error_causes_witness :
  ((UnexpectedGroup = NotImplemented
    /\ FieldName ∈ [Comment; Enum; FieldCardinality; FieldType;
                     Message; Package; Rpc; Service])
   \/ (UnexpectedGroup = LineNumber
       /\ TokenMap._getTasks FieldName <> error NotImplemented
       /\ lineCount ["  repeated group Result = 1 {"] <= 0)
   \/ UnexpectedGroup = NotFound
   \/ (UnexpectedGroup = UnexpectedEnumValueName /\ FieldName = EnumValueName)
   \/ ((UnexpectedGroup = UnexpectedFieldType \/ UnexpectedGroup = UnexpectedGroup)
       /\ FieldName = FieldName))
  /\ UnexpectedGroup <> InvalidExcludeRanges
  /\ UnexpectedGroup <> UnexpectedCommentOpen.
Proof.
  apply (parseFragment_error_causes
           (TokenMap.new ["  repeated group Result = 1 {"]) FieldName 0 0 None
           UnexpectedGroup).
  vm_compute. reflexivity.
Defined.

(** ** A session that is used again *)

Lemma runTasks_keeps K this tasks cs st kinds (t : ITokenRange) ts :
  Forall2 recordsOnly tasks kinds -> K <> FieldCardinality ->
  TokenMap.tokens this !! K = Some (t :: ts) ->
  match TokenMap.runTasks this tasks cs st with
  | Continue (this', _, _) => exists ts', TokenMap.tokens this' !! K = Some (t :: ts')
  | Return _ => True
  end.
Proof.
  intros HF HFC. revert kinds this cs ts HF.
  induction tasks as [|task rest IH]; intros kinds this cs ts HF Hk; simpl.
  { by exists ts. }
  apply Forall2_cons_inv_l in HF as (k & ks' & Hrec & HF & ->).
  destruct (Hrec cs st this) as [Htok Hval].
  destruct (task cs st this) as [[[value|e] cs'] this1]; simpl in *.
  - destruct (Hval value eq_refl) as [t0 ->].
    destruct (decide (k = K)) as [->|Hne].
    + apply (IH ks' _ cs' (ts ++ [t0])); [done|].
      by rewrite upsert_lookup, Htok, Hk.
    + apply (IH ks' _ cs' ts); [done|].
      by rewrite upsert_lookup_ne, Htok.
  - destruct e; try done. exists ts. by rewrite Htok.
Qed.

Lemma parseLine_keeps K this txt n st tasks cc (t : ITokenRange) ts :
  ready K tasks -> TokenMap.tokens this !! K = Some (t :: ts) ->
  match TokenMap.parseLine this txt n K st tasks cc with
  | Return (success r, _) => r = range t
  | Return (error e, _) =>
      e ∈ [UnexpectedEnumValueName; UnexpectedFieldType; UnexpectedGroup]
  | Continue _ => False
  end.
Proof.
  intros ((kinds & HF & _ & _) & HFC & HC & Ha & Hr & _) Hk.
  unfold TokenMap.parseLine.
  set (this0 := TokenMap.setLine this (mkTextLine n txt)).
  destruct (_lineComments_spans this0 cc) as (cs & Hcs & Hsp & Hs).
  rewrite (_parseCurrentLineComments_success _ _ _ Hcs).
  cbn [commentsRanges commentsClosed].
  pose proof (runTasks_keeps K (TokenMap.upsert this0 {[ Comment := cs ]})
                tasks cs st _ t ts HF HFC) as Hkeep.
  rewrite upsert_lookup_ne in Hkeep by done. specialize (Hkeep Hk).
  pose proof (runTasks_errors (TokenMap.upsert this0 {[ Comment := cs ]})
                tasks cs st Ha Hr Hsp Hs) as Herr.
  destruct (TokenMap.runTasks _ _ _ _) as [[[this2 tasks2] cs2]|[e this2]]; [|done].
  destruct Hkeep as [ts' Hk2]. unfold TokenMap.firstRange. by rewrite Hk2.
Qed.

(** X13: a session that is used again.  When the session already holds a
    token of the requested kind, a call for that kind on a line of the
    document returns the range of the first token held, whatever line,
    offset and search text it is given; it fails only when a task aborts
    the call, and never with [NotFound]. *)
Theorem parseFragment_used_session (this : TokenMap.t) (K : TokenKind)
    (lineNumber lastIndex : nat) (searchText : option RegExp)
    (t : ITokenRange) (ts : list ITokenRange) :
  TokenMap.tokens this !! K = Some (t :: ts) ->
  TokenMap._getTasks K <> error NotImplemented ->
  lineNumber < lineCount (TokenMap.doc this) ->
  match (TokenMap.parseFragment this K lineNumber lastIndex searchText).1 with
  | success r => r = range t
  | error e => e ∈ [UnexpectedEnumValueName; UnexpectedFieldType; UnexpectedGroup]
  end.
Proof.
  intros Hk Himpl Hn. unfold TokenMap.parseFragment.
  destruct (TokenMap._getTasks K) as [tasks|e] eqn:Htasks.
  - unfold lineAt. cbn [TokenMap.doc TokenMap.setLastIndex TokenMap.setLine].
    destruct (TokenMap.doc this !! lineNumber) as [txt|] eqn:Htxt;
      [|apply lookup_ge_None in Htxt; unfold lineCount in Hn; lia].
    cbn [fmap option_fmap option_map].
    rewrite (drop_S _ _ _ Htxt). cbn [TokenMap.parseLines].
    pose proof (parseLine_keeps K
      (TokenMap.setLine (TokenMap.setLastIndex this lastIndex)
         (mkTextLine lineNumber txt))
      txt lineNumber searchText tasks true t ts (_getTasks_ready K tasks Htasks) Hk)
      as Hline.
    destruct (TokenMap.parseLine _ _ _ _ _ _ _) as [[[this1 tasks1] cc1]|[[r|e] this1]];
      done.
  - destruct K; simplify_eq/=; done.
Qed.

Lemma parseFragment_used_session_witness :
  let doc := ["message First {"; "}"; "message Second {"] in
  let this := (TokenMap.parseFragment (TokenMap.new doc) MessageName 0 0 None).2 in
  match (TokenMap.parseFragment this MessageName 2 0 None).1 with
  | success r =>
      r = range (tokenOf (matchAt (mkTextLine 0 "message First {") 8 13) true)
  | error e => e ∈ [UnexpectedEnumValueName; UnexpectedFieldType; UnexpectedGroup]
  end.
Proof.
  cbv zeta.
  apply (parseFragment_used_session
           (TokenMap.parseFragment
              (TokenMap.new ["message First {"; "}"; "message Second {"])
              MessageName 0 0 None).2
           MessageName 2 0 None
           (tokenOf (matchAt (mkTextLine 0 "message First {") 8 13) true) []).
  - vm_compute. reflexivity.
  - discriminate.
  - vm_compute. lia.
Defined.

(** ** The token a name is searched behind *)

Lemma spanOn_matchRanges l seekRange pattern lastIndex limit m c :
  m ∈ matchRanges l seekRange pattern lastIndex limit ->
  spanOn l (tokenOf m c)
  /\ endCharacter (tokenOf m c) = character (end_ (range m)).
Proof.
  intros (i & e & -> & Hi & He & He' & _)%matchRanges_matcher.
  split; [|done]. exists i, e. split; [lia|].
  change (range (tokenOf (matchAt l i e) c)) with (range (matchAt l i e)).
  apply matchAt_range. lia.
Qed.

Lemma _token_marks k0 w :
  marks k0 (Some w) (λ excl _ this, TokenMap._token this k0 excl (lit w)).
Proof.
  intros cs st this value Hsp Hs.
  destruct (_token_spec this k0 cs (lit w)) as [(m & sr & Hm & ->)|(e & _ & ->)];
    simpl; [|done].
  intros [= <-]. exists (tokenOf m true).
  destruct (spanOn_matchRanges _ _ _ _ _ _ true Hm) as [Hspan Hend].
  split_and!; [done| |done|by rewrite Hend].
  intros kw [= <-]. by apply matchRanges_lit in Hm.
Qed.

Lemma _fieldType_body_marks this cardinality searchRange :
  match TokenMap._fieldType_body this cardinality searchRange with
  | Continue (_, this') => TokenMap.line this' = TokenMap.line this
  | Return (success value, this') =>
      exists t0 : ITokenRange,
        value = {[ FieldType := [t0] ]}
        /\ spanOn (TokenMap.line this) t0
        /\ TokenMap.lastIndex this' = endCharacter t0
  | Return (error _, _) => True
  end.
Proof.
  unfold TokenMap._fieldType_body.
  set (matches := matchRanges _ _ _ _ _).
  destruct (matches !! 0) as [first|] eqn:H0; [|done].
  apply list_elem_of_lookup_2 in H0.
  destruct (negb _ && _).
  - destruct (matches !! 1) as [second|] eqn:H1; [|done].
    apply list_elem_of_lookup_2 in H1.
    destruct (TokenMap._validateFieldType _ _ _); [|done].
    destruct (spanOn_matchRanges _ _ _ _ _ _ true H1) as [Hspan Hend].
    exists (tokenOf second true). by rewrite Hend.
  - destruct (TokenMap._validateFieldType _ _ _); [|done].
    destruct (spanOn_matchRanges _ _ _ _ _ _ true H0) as [Hspan Hend].
    exists (tokenOf first true). by rewrite Hend.
Qed.

Lemma _fieldType_loop_marks this cardinality searchRanges value :
  (TokenMap._fieldType_loop this cardinality searchRanges).1 = success value ->
  exists t0 : ITokenRange,
    value = {[ FieldType := [t0] ]}
    /\ spanOn (TokenMap.line this) t0
    /\ TokenMap.lastIndex (TokenMap._fieldType_loop this cardinality searchRanges).2
       = endCharacter t0.
Proof.
  revert this cardinality. induction searchRanges as [|sr rest IH];
    intros this cardinality; simpl; [done|].
  pose proof (_fieldType_body_marks this cardinality sr) as Hb.
  destruct (TokenMap._fieldType_body this cardinality sr) as [[c this']|[[v|e] this']].
  - intros Hv. destruct (IH _ _ Hv) as (t0 & ? & ? & ?). exists t0. by rewrite <-Hb.
  - simpl. intros [= <-]. done.
  - done.
Qed.

Lemma _fieldType_marks : marks FieldType None (TokenMap.bind1 TokenMap._fieldType).
Proof.
  intros cs st this value Hsp Hs. unfold TokenMap.bind1, TokenMap._fieldType.
  rewrite (excludeLineRanges_spans _ _ Hsp Hs).
  pose proof (_fieldType_loop_marks this
                (TokenMap.tokens this !! FieldCardinality ≫= head)
                (gaps (lineNumber (TokenMap.line this)) 0 cs
                   (String.length (text (TokenMap.line this)))) value) as H.
  destruct (TokenMap._fieldType_loop _ _ _) as [r this']. simpl in *.
  intros Hr. destruct (H Hr) as (t0 & ? & ? & ?). exists t0.
  split_and!; [done| |done..]. by intros kw [=].
Qed.

Section TwoTasks.
Context (K k0 : TokenKind) (keyword : option string)
  (task1 task2 : TokenMap.TLookupTask).
Hypothesis Hrec1 : recordsOnly task1 k0.
Hypothesis Hmarks : marks k0 keyword task1.
Hypothesis Hadv1 : advances task1.
Hypothesis Hresp1 : respects task1.
Hypothesis Hready2 : ready K [task2].
Hypothesis Hk0K : k0 <> K.
Hypothesis Hk0C : k0 <> Comment.
Hypothesis Hk0F : k0 <> FieldCardinality.

Lemma ready2_facts :
  recordsOnly task2 K /\ K <> FieldCardinality /\ K <> Comment.
Proof.
  destruct Hready2 as ((kinds & HF & _ & _) & ? & ? & _).
  split_and!; [|done..].
  apply Forall2_cons_inv_l in HF as (k & ks & Hr & HF & Heq).
  apply Forall2_nil_inv_l in HF as ->.
  destruct kinds as [|? [|? ?]]; simplify_eq/=. done.
Qed.

Lemma runTasks_second this cs st (t0 : ITokenRange) ts :
  Forall (spanOn (TokenMap.line this)) cs -> StronglySorted endsBefore cs ->
  TokenMap.tokens this !! K = None ->
  TokenMap.tokens this !! k0 = Some (t0 :: ts) ->
  match TokenMap.runTasks this [task2] cs st with
  | Return _ => True
  | Continue (this', tasks', _) =>
      TokenMap.tokens this' !! Comment = TokenMap.tokens this !! Comment
      /\ TokenMap.doc this' = TokenMap.doc this
      /\ (exists ts', TokenMap.tokens this' !! k0 = Some (t0 :: ts'))
      /\ match tasks' with
         | [] =>
             exists m seekRange li,
               TokenMap.tokens this' !! K = Some [tokenOf m true]
               /\ seekRange ∈ gaps (lineNumber (TokenMap.line this)) 0 cs
                                (String.length (text (TokenMap.line this)))
               /\ TokenMap.lastIndex this <= li
               /\ m ∈ matchRanges (TokenMap.line this) seekRange (kindPattern K st) li 1
         | _ => tasks' = [task2] /\ TokenMap.tokens this' !! K = None
         end
  end.
Proof.
  intros Hsp Hs HK Hk0.
  pose proof Hready2 as ((kinds & HF & HnK & HnC) & HFC & HC & Ha & Hr & Hlast).
  assert (kinds = []) as ->.
  { apply Forall2_length in HF. rewrite length_app in HF. simpl in HF.
    destruct kinds; [done|simpl in HF; lia]. }
  pose proof (runTasks_located K this [task2] cs st [] HF HnK HnC HFC HC Ha Hr Hlast
                Hsp Hs HK) as Hloc.
  pose proof (runTasks_keeps k0 this [task2] cs st [K] t0 ts HF Hk0F Hk0) as Hkeep.
  pose proof (runTasks_Continue this [task2] cs st) as Hsuf.
  destruct (TokenMap.runTasks this [task2] cs st) as [[[this' tasks'] cs']|[e this']];
    [|done].
  destruct Hloc as (HCom & Hdoc & Hloc). split_and!; [done..|].
  destruct tasks' as [|t tasks']; [done|]. destruct Hloc as [HK' _].
  split; [|done].
  specialize (Hsuf _ _ _ eq_refl). apply suffix_cons_inv in Hsuf as [Heq|Hsuf].
  - done.
  - apply suffix_nil_inv in Hsuf. done.
Qed.

Lemma runTasks_two this cs st :
  Forall (spanOn (TokenMap.line this)) cs -> StronglySorted endsBefore cs ->
  TokenMap.tokens this !! K = None -> TokenMap.tokens this !! k0 = None ->
  match TokenMap.runTasks this [task1; task2] cs st with
  | Return _ => True
  | Continue (this', tasks', _) =>
      TokenMap.tokens this' !! Comment = TokenMap.tokens this !! Comment
      /\ TokenMap.doc this' = TokenMap.doc this
      /\ match tasks' with
         | [] =>
             exists (t0 : ITokenRange) ts' m seekRange li,
               TokenMap.tokens this' !! k0 = Some (t0 :: ts')
               /\ isLead keyword t0 /\ spanOn (TokenMap.line this) t0
               /\ endCharacter t0 <= li
               /\ TokenMap.tokens this' !! K = Some [tokenOf m true]
               /\ seekRange ∈ gaps (lineNumber (TokenMap.line this)) 0 cs
                                (String.length (text (TokenMap.line this)))
               /\ TokenMap.lastIndex this <= li
               /\ m ∈ matchRanges (TokenMap.line this) seekRange (kindPattern K st) li 1
         | [_] =>
             tasks' = [task2] /\ TokenMap.tokens this' !! K = None
             /\ exists (t0 : ITokenRange) ts',
                  TokenMap.tokens this' !! k0 = Some (t0 :: ts')
                  /\ isLead keyword t0 /\ spanOn (TokenMap.line this) t0
         | _ =>
             tasks' = [task1; task2] /\ TokenMap.tokens this' !! K = None
             /\ TokenMap.tokens this' !! k0 = None
         end
  end.
Proof.
  intros Hsp Hs HK Hk0.
  destruct ready2_facts as (Hrec2 & HKF & HKC).
  destruct (Hadv1 cs st this) as (Hli & Hline & Hdoc).
  destruct (Hresp1 cs st this Hsp Hs) as [Hcs _].
  destruct (Hrec1 cs st this) as [Htok Hval].
  pose proof (Hmarks cs st this) as Hm.
  destruct (task1 cs st this) as [[[value|e] cs'] this1] eqn:Htask;
    simpl in Hcs, Htok, Hval, Hm, Hli, Hline, Hdoc; subst cs'.
  - rewrite (runTasks_success _ _ _ _ _ _ _ _ Htask).
    destruct (Hm value Hsp Hs eq_refl) as (t0 & -> & Hlead & Hspan & Hend).
    pose proof (runTasks_second (TokenMap.upsert this1 {[ k0 := [t0] ]}) cs st t0 [])
      as Hsec.
    change (TokenMap.line (TokenMap.upsert this1 {[ k0 := [t0] ]}))
      with (TokenMap.line this1) in Hsec.
    change (TokenMap.doc (TokenMap.upsert this1 {[ k0 := [t0] ]}))
      with (TokenMap.doc this1) in Hsec.
    rewrite upsert_lastIndex, Hline, Hdoc in Hsec.
    rewrite upsert_lookup, !upsert_lookup_ne, !Htok, Hk0 in Hsec by done.
    specialize (Hsec Hsp Hs HK eq_refl).
    destruct (TokenMap.runTasks _ [task2] cs st) as [[[this' tasks'] cs']|[e this']];
      [|done].
    destruct Hsec as (HCom & Hdoc' & (ts' & Hk0') & Hsec). split_and!; [done..|].
    destruct tasks' as [|t tasks'].
    + destruct Hsec as (m & sr & li & ? & ? & ? & ?).
      exists t0, ts', m, sr, li. split_and!; [done..|lia|done|done|lia|done].
    + destruct Hsec as [[= -> ->] ?]. split_and!; [done..|]. by exists t0, ts'.
  - destruct (decide (e = NotFound)) as [->|Hne].
    + rewrite (runTasks_not_found _ _ _ _ _ _ _ Htask).
      split_and!; [by apply Htok|done|done|by rewrite Htok|by rewrite Htok].
    + by rewrite (runTasks_abort _ _ _ _ _ _ _ _ Htask Hne).
Qed.

Lemma parseLine_second this txt n st cc (t0 : ITokenRange) ts :
  TokenMap.tokens this !! K = None ->
  TokenMap.tokens this !! k0 = Some (t0 :: ts) ->
  match TokenMap.parseLine this txt n K st [task2] cc with
  | Return (success r, this') =>
      (exists ts', TokenMap.tokens this' !! k0 = Some (t0 :: ts'))
      /\ exists m seekRange li,
           r = range m
           /\ m ∈ matchRanges (mkTextLine n txt) seekRange (kindPattern K st) li 1
  | Return (error _, _) => True
  | Continue (this', tasks', _) =>
      tasks' = [task2] /\ TokenMap.tokens this' !! K = None
      /\ exists ts', TokenMap.tokens this' !! k0 = Some (t0 :: ts')
  end.
Proof.
  intros HK Hk0. destruct ready2_facts as (Hrec2 & HKF & HKC).
  unfold TokenMap.parseLine.
  set (this0 := TokenMap.setLine this (mkTextLine n txt)).
  destruct (_lineComments_spans this0 cc) as (cs & Hcs & Hsp & Hs).
  rewrite (_parseCurrentLineComments_success _ _ _ Hcs).
  cbn [commentsRanges commentsClosed].
  pose proof (runTasks_second (TokenMap.upsert this0 {[ Comment := cs ]}) cs st t0 ts
                Hsp Hs) as Hrun.
  rewrite !upsert_lookup_ne in Hrun by done. specialize (Hrun HK Hk0).
  change (TokenMap.line (TokenMap.upsert this0 {[ Comment := cs ]}))
    with (mkTextLine n txt) in Hrun.
  destruct (TokenMap.runTasks _ _ _ _) as [[[this2 tasks2] cs2]|[e this2]]; [|done].
  destruct Hrun as (_ & _ & Hk0' & Hrun). unfold TokenMap.firstRange.
  destruct tasks2 as [|t tasks2].
  - destruct Hrun as (m & sr & li & -> & _ & _ & Hm). simpl.
    split; [done|]. by exists m, sr, li.
  - destruct Hrun as [-> HK2]. rewrite HK2. simpl. done.
Qed.

Lemma parseLines_second lines n this st cc (t0 : ITokenRange) ts r this' :
  TokenMap.tokens this !! K = None ->
  TokenMap.tokens this !! k0 = Some (t0 :: ts) ->
  TokenMap.parseLines lines n this K st [task2] cc = (success r, this') ->
  (exists ts', TokenMap.tokens this' !! k0 = Some (t0 :: ts'))
  /\ exists n' txt m seekRange li,
       n <= n' /\ r = range m
       /\ m ∈ matchRanges (mkTextLine n' txt) seekRange (kindPattern K st) li 1.
Proof.
  revert n this cc ts. induction lines as [|txt lines IH]; intros n this cc ts HK Hk0;
    simpl; [done|].
  pose proof (parseLine_second this txt n st cc t0 ts HK Hk0) as Hline.
  destruct (TokenMap.parseLine this txt n K st [task2] cc)
    as [[[this1 tasks1] cc1]|[[value|e] this1]].
  - destruct Hline as (-> & HK1 & ts1 & Hk01). intros Hp.
    apply (IH _ _ _ ts1) in Hp as (Hk & n' & txt' & m & sr & li & Hn & Hr & Hm);
      [|done..].
    split; [done|]. exists n', txt', m, sr, li. split_and!; [lia|done..].
  - intros [= <- <-]. destruct Hline as (Hk & m & sr & li & Hr & Hm).
    split; [done|]. by exists n, txt, m, sr, li.
  - done.
Qed.

Lemma parseLine_two this txt n st cc :
  TokenMap.tokens this !! K = None -> TokenMap.tokens this !! k0 = None ->
  match TokenMap.parseLine this txt n K st [task1; task2] cc with
  | Return (success r, this') =>
      exists (t0 : ITokenRange) ts' m seekRange li,
        TokenMap.tokens this' !! k0 = Some (t0 :: ts')
        /\ isLead keyword t0 /\ spanOn (mkTextLine n txt) t0
        /\ endCharacter t0 <= li
        /\ r = range m
        /\ m ∈ matchRanges (mkTextLine n txt) seekRange (kindPattern K st) li 1
  | Return (error _, _) => True
  | Continue (this', tasks', _) =>
      TokenMap.tokens this' !! K = None
      /\ ((tasks' = [task1; task2] /\ TokenMap.tokens this' !! k0 = None)
          \/ (tasks' = [task2]
              /\ exists (t0 : ITokenRange) ts',
                   TokenMap.tokens this' !! k0 = Some (t0 :: ts')
                   /\ isLead keyword t0 /\ spanOn (mkTextLine n txt) t0))
  end.
Proof.
  intros HK Hk0. destruct ready2_facts as (Hrec2 & HKF & HKC).
  unfold TokenMap.parseLine.
  set (this0 := TokenMap.setLine this (mkTextLine n txt)).
  destruct (_lineComments_spans this0 cc) as (cs & Hcs & Hsp & Hs).
  rewrite (_parseCurrentLineComments_success _ _ _ Hcs).
  cbn [commentsRanges commentsClosed].
  pose proof (runTasks_two (TokenMap.upsert this0 {[ Comment := cs ]}) cs st Hsp Hs)
    as Hrun.
  rewrite !upsert_lookup_ne in Hrun by done. specialize (Hrun HK Hk0).
  change (TokenMap.line (TokenMap.upsert this0 {[ Comment := cs ]}))
    with (mkTextLine n txt) in Hrun.
  destruct (TokenMap.runTasks _ _ _ _) as [[[this2 tasks2] cs2]|[e this2]]; [|done].
  destruct Hrun as (_ & _ & Hrun). unfold TokenMap.firstRange.
  destruct tasks2 as [|t [|t' tasks2]].
  - destruct Hrun as (t0 & ts' & m & sr & li & ? & ? & ? & ? & -> & _ & _ & Hm). simpl.
    by exists t0, ts', m, sr, li.
  - destruct Hrun as (-> & HK2 & Hk). rewrite HK2. simpl. split; [done|]. by right.
  - destruct Hrun as (-> & HK2 & Hk). rewrite HK2. simpl. split; [done|]. by left.
Qed.

Lemma parseLines_two lines n this st cc r this' :
  TokenMap.tokens this !! K = None -> TokenMap.tokens this !! k0 = None ->
  TokenMap.parseLines lines n this K st [task1; task2] cc = (success r, this') ->
  exists (t0 : ITokenRange) ts,
    TokenMap.tokens this' !! k0 = Some (t0 :: ts)
    /\ isLead keyword t0
    /\ n <= line (start (range t0))
    /\ leads t0 (line (start r)) (character (start r)).
Proof.
  revert n this cc. induction lines as [|txt lines IH]; intros n this cc HK Hk0;
    simpl; [done|].
  pose proof (parseLine_two this txt n st cc HK Hk0) as Hline.
  destruct (TokenMap.parseLine this txt n K st [task1; task2] cc)
    as [[[this1 tasks1] cc1]|[[value|e] this1]].
  - destruct Hline as (HK1 & [[-> Hk01]|(-> & t0 & ts1 & Hk01 & Hlead & Hspan)]).
    + intros Hp. apply IH in Hp as (t0 & ts & ? & ? & ? & ?); [|done..].
      exists t0, ts. split_and!; [done..|lia|done].
    + intros Hp.
      apply parseLines_second with (t0 := t0) (ts := ts1) in Hp
        as ((ts' & Hk) & n' & txt' & m & sr & li & Hn & -> & Hm); [|done..].
      destruct Hspan as (a0 & b0 & _ & Hr0).
      apply matchRanges_matcher in Hm as (a & b & -> & Ha & _).
      exists t0, ts'. rewrite matchAt_range by lia. rewrite Hr0. simpl.
      split_and!; [done..|lia|]. left. rewrite Hr0. simpl. lia.
  - intros [= <- <-].
    destruct Hline as (t0 & ts' & m & sr & li & Hk & Hlead & Hspan & Hend & -> & Hm).
    destruct Hspan as (a0 & b0 & _ & Hr0).
    apply matchRanges_matcher in Hm as (a & b & -> & Ha & _).
    exists t0, ts'. rewrite matchAt_range by lia. rewrite Hr0. simpl.
    split_and!; [done..|lia|]. right. rewrite Hr0. simpl. lia.
  - done.
Qed.

End TwoTasks.

Lemma ready_tail K task rest :
  ready K (task :: rest) -> rest <> [] -> ready K rest.
Proof.
  intros ((kinds & HF & HnK & HnC) & HFC & HC & Ha & Hr & Hlast) Hne.
  apply Forall2_cons_inv_l in HF as (k & ks & Hrec & HF & Heq).
  apply Forall_cons in Ha as [_ Ha]. apply Forall_cons in Hr as [_ Hr].
  split_and!; [|done..|].
  - destruct kinds as [|k' kinds']; simplify_eq/=.
    + apply Forall2_nil_inv_r in HF. done.
    + apply not_elem_of_cons in HnK as [_ HnK].
      apply not_elem_of_cons in HnC as [_ HnC]. by exists kinds'.
  - intros task0 Hl. apply Hlast. destruct rest; [done|]. exact Hl.
Qed.

Lemma _getTasks_two K k0 keyword :
  leadOf K = Some (k0, keyword) ->
  exists task1 task2,
    TokenMap._getTasks K = success [task1; task2]
    /\ recordsOnly task1 k0 /\ marks k0 keyword task1
    /\ advances task1 /\ respects task1 /\ ready K [task2]
    /\ k0 <> K /\ k0 <> Comment /\ k0 <> FieldCardinality.
Proof.
  assert (forall k pattern, recordsOnly
            (λ excl _ this, TokenMap._token this k excl pattern) k) as H1.
  { intros k pattern excl st this.
    destruct (_token_recordsOnly k pattern excl this) as [Ht Hv]. split; auto. }
  intros Hlead.
  assert (exists task1 task2, TokenMap._getTasks K = success [task1; task2]
            /\ recordsOnly task1 k0 /\ marks k0 keyword task1
            /\ k0 <> K /\ k0 <> Comment /\ k0 <> FieldCardinality)
    as (task1 & task2 & Hk & Hrec & Hmarks & ? & ? & ?).
  { destruct K; simplify_eq/=; eexists _, _; (split; [reflexivity|]);
      split_and!; try done; try apply H1; try apply (_token_marks _ _);
      try apply _fieldType_recordsOnly; try apply _fieldType_marks. }
  exists task1, task2.
  pose proof (_getTasks_advances K _ Hk) as [Ha _]%Forall_cons.
  pose proof (_getTasks_respects K _ Hk) as [Hr _]%Forall_cons.
  split_and!; try done.
  apply (ready_tail K task1); [by apply _getTasks_ready|done].
Qed.

(** X14: a name is found behind its keyword.  In a session with no token
    recorded, when the call for an enum, message, package, rpc or service
    name succeeds, the session holds the token of the keyword ([enum],
    [message], [package], [rpc], [service]) found by the first task, with
    the keyword as its text, on a line at or after [lineNumber]; the range
    returned lies on a later line, or on the same line at or after the end
    of the keyword.  For a field name the same holds of the token of the
    field type. *)
Theorem parseFragment_behind_lead (this : TokenMap.t) (K k0 : TokenKind)
    (keyword : option string) (lineNumber lastIndex : nat)
    (searchText : option RegExp) (r : Range) (this' : TokenMap.t) :
  TokenMap.tokens this = ∅ ->
  leadOf K = Some (k0, keyword) ->
  TokenMap.parseFragment this K lineNumber lastIndex searchText = (success r, this') ->
  exists (t0 : ITokenRange) ts,
    TokenMap.tokens this' !! k0 = Some (t0 :: ts)
    /\ (forall kw, keyword = Some kw -> fullMatch t0 = kw)
    /\ lineNumber <= line (start (range t0))
    /\ (line (start (range t0)) < line (start r)
        \/ (line (start (range t0)) = line (start r)
            /\ endCharacter t0 <= character (start r))).
Proof.
  intros Hempty Hlead.
  destruct (_getTasks_two K k0 keyword Hlead)
    as (task1 & task2 & Hk & Hrec & Hmarks & Ha & Hr & Hready & HkK & HkC & HkF).
  unfold TokenMap.parseFragment. rewrite Hk.
  destruct (lineAt _ lineNumber) as [l|]; [|done].
  intros Hp.
  apply (parseLines_two K k0 keyword task1 task2) in Hp; try done.
  - simpl. rewrite Hempty. apply lookup_empty.
  - simpl. rewrite Hempty. apply lookup_empty.
Qed.

Lemma parseFragment_behind_lead_witness :
  let doc := ["// message WrongName"; "message /* c */"; "  RightName {"] in
  let run := TokenMap.parseFragment (TokenMap.new doc) MessageName 0 0 None in
  run.1 = success (mkRange (mkPosition 2 2) (mkPosition 2 11))
  /\ exists (t0 : ITokenRange) ts,
       TokenMap.tokens run.2 !! Message = Some (t0 :: ts)
       /\ (forall kw, Some "message" = Some kw -> fullMatch t0 = kw)
       /\ 0 <= line (start (range t0))
       /\ (line (start (range t0))
             < line (start (mkRange (mkPosition 2 2) (mkPosition 2 11)))
           \/ (line (start (range t0))
                 = line (start (mkRange (mkPosition 2 2) (mkPosition 2 11)))
               /\ endCharacter t0
                  <= character (start (mkRange (mkPosition 2 2) (mkPosition 2 11))))).
Proof.
  cbv zeta. split; [vm_compute; reflexivity|].
  apply (parseFragment_behind_lead
           (TokenMap.new ["// message WrongName"; "message /* c */"; "  RightName {"])
           MessageName Message (Some "message") 0 0 None).
  - reflexivity.
  - reflexivity.
  - vm_compute. reflexivity.
Defined.

(** ** The rule mapper *)

Lemma inClass_WHITESPACE c :
  inClass false [CRange "009" "013"; CChar " "; CChar "160"] c = true <-> isWhitespace c.
Proof.
  unfold isWhitespace.
  destruct c as [[] [] [] [] [] [] [] []]; vm_compute; split;
    (discriminate || reflexivity || lia || (intros _; lia)).
Qed.

Lemma test_WHITESPACE txt j :
  test WHITESPACE (charAt txt j) = true <-> whitespaceAt txt j.
Proof.
  unfold test, charAt, whitespaceAt. rewrite chars_substring.
  destruct (chars txt !! j) as [c|] eqn:Hj.
  - replace (take 1 (drop j (chars txt))) with [c].
    + trans (isWhitespace c);
        [|split; [intros ?; by exists c|by intros (c' & [= <-] & ?)]].
      rewrite <-inClass_WHITESPACE. unfold exec, WHITESPACE. cbn -[inClass].
      destruct (inClass false [CRange "009" "013"; CChar " "; CChar "160"] c) eqn:Hc;
        simpl; [done|].
      done.
    + symmetry. apply take_drop_cons. split; [done|by rewrite take_0].
  - rewrite drop_ge by by apply lookup_ge_None.
    simpl. split; [done|]. by intros (c & [=] & _).
Qed.

Lemma indent_loop_spec txt n :
  exists s,
    RuleMapper.indent_loop txt n (Z.of_nat n) = Z.of_nat s /\ s <= n
    /\ (forall j, s <= j < n -> whitespaceAt txt j)
    /\ (s = 0 \/ ~ whitespaceAt txt (s - 1)).
Proof.
  induction n as [|index IH]; simpl.
  - exists 0. split_and!; [done|lia|intros; lia|by left].
  - destruct (test WHITESPACE (charAt txt index)) eqn:Ht; simpl.
    + destruct IH as (s & -> & Hs & Hws & Hstop). exists s.
      split_and!; [done|lia| |done].
      intros j Hj. destruct (decide (j = index)) as [->|];
        [by apply test_WHITESPACE|apply Hws; lia].
    + exists (S index). split_and!; [done|lia|intros; lia|right].
      simpl. rewrite Nat.sub_0_r. intros Hw%test_WHITESPACE. congruence.
Qed.

Lemma lineAtZ_Some doc n :
  (0 <= n < Z.of_nat (lineCount doc))%Z ->
  exists txt,
    doc !! Z.to_nat n = Some txt
    /\ lineAtZ doc n = Some (mkTextLine (Z.to_nat n) txt).
Proof.
  intros Hn. unfold lineAtZ, lineAt, lineCount in *.
  destruct (Z.ltb_spec n 0); [lia|].
  destruct (doc !! Z.to_nat n) as [txt|] eqn:Htxt;
    [|apply lookup_ge_None in Htxt; lia].
  by exists txt.
Qed.

Lemma lineAtZ_None doc n :
  (n < 0 \/ Z.of_nat (lineCount doc) <= n)%Z -> lineAtZ doc n = None.
Proof.
  intros Hn. unfold lineAtZ, lineAt, lineCount in *.
  destruct (Z.ltb_spec n 0); [done|].
  destruct (doc !! Z.to_nat n) as [txt|] eqn:Htxt; [|done].
  apply lookup_lt_Some in Htxt. lia.
Qed.

(** X15: [indent] marks the white space in front of the column.  For an
    item whose line is a line of the document and whose column is at least
    1, the range returned lies on that line and ends at the zero-based
    column; every character in it is white space, and it is the longest
    such range: it starts at offset 0 or behind a character that is not
    white space.  (It is empty when the character in front of the column is
    not white space, or when the column lies behind the end of the text.)
    For any other item the function fails with [ItemLine]. *)
Theorem indent_whitespace_run (document : TextDocument)
    (item : RuleMapper.IJsonLintsItem) (options : RuleMapper.IRangeParserOptions) :
  let ln := Z.to_nat (RuleMapper.line item - 1) in
  let col := Z.to_nat (RuleMapper.column item - 1) in
  if decide (1 <= RuleMapper.line item <= Z.of_nat (lineCount document)
             /\ 1 <= RuleMapper.column item)%Z
  then
    exists txt s,
      document !! ln = Some txt /\ s <= col
      /\ RuleMapper.indent document item options
         = success (mkRange (mkPosition ln s) (mkPosition ln col))
      /\ (forall j, s <= j < col -> whitespaceAt txt j)
      /\ (s = 0 \/ ~ whitespaceAt txt (s - 1))
      /\ (col = 0 \/ ~ whitespaceAt txt (col - 1) -> s = col)
  else
    RuleMapper.indent document item options
    = error (RuleMapper.mkError (inr RuleMapper.ItemLine) item).
Proof.
  cbv zeta. unfold RuleMapper.indent. case_decide as Hc.
  - destruct Hc as [Hl Hcol].
    destruct (lineAtZ_Some document (RuleMapper.line item - 1)) as (txt & Htxt & ->);
      [lia|].
    cbn [text lineNumber].
    replace (Z.to_nat (RuleMapper.column item - 2 + 1))
      with (Z.to_nat (RuleMapper.column item - 1)) by lia.
    destruct (indent_loop_spec txt (Z.to_nat (RuleMapper.column item - 1)))
      as (s & Hs & Hle & Hws & Hstop).
    rewrite Z2Nat.id in Hs by lia. rewrite Hs.
    exists txt, s. split_and!; [done|done| |done|done|].
    2:{ intros Hcol0. destruct (decide (s = Z.to_nat (RuleMapper.column item - 1)));
          [done|exfalso].
        destruct Hcol0 as [Hz|Hnw]; [lia|]. apply Hnw, Hws. lia. }
    unfold newRange4Z.
    repeat match goal with
           | |- context [(?a <? 0)%Z] => destruct (Z.ltb_spec a 0); [lia|]
           end.
    cbn [orb]. rewrite !Nat2Z.id. f_equal. by apply newRange4_ordered.
  - assert (RuleMapper.line item - 1 < 0
            \/ Z.of_nat (lineCount document) <= RuleMapper.line item - 1
            \/ RuleMapper.column item < 1)%Z as [Hl|[Hl|Hcol]] by lia.
    + rewrite lineAtZ_None by lia. done.
    + rewrite lineAtZ_None by lia. done.
    + destruct (lineAtZ document (RuleMapper.line item - 1)) as [l|]; [|done].
      replace (Z.to_nat (RuleMapper.column item - 2 + 1)) with 0 by lia.
      cbn [RuleMapper.indent_loop]. unfold newRange4Z.
      destruct (Z.ltb_spec (RuleMapper.column item - 1) 0); [|lia].
      by rewrite !orb_true_r.
Qed.

(** ** The range of a token rule *)

(** X16: the errors of [tokenRange].  The error carries the item.  Without
    a token kind the code is [TokenKindRequired]; with a kind it is a code
    of the lookup: [NotImplemented] for a kind without tasks only,
    [LineNumber] for a kind with tasks and a line of the item below 1 or
    past the end of the document only, [UnexpectedEnumValueName] for
    [EnumValueName] only, [UnexpectedFieldType] or [UnexpectedGroup] for
    [FieldName] only, and otherwise [NotFound]. *)
Theorem tokenRange_error_causes (document : TextDocument)
    (item : RuleMapper.IJsonLintsItem) (options : RuleMapper.IRangeParserOptions)
    (err : RuleMapper.IParseRangeError) :
  RuleMapper.tokenRange document item options = error err ->
  RuleMapper.item err = item
  /\ match RuleMapper.tokenKind options with
     | None => RuleMapper.code err = inr RuleMapper.TokenKindRequired
     | Some K =>
         exists e,
           RuleMapper.code err = inl e
           /\ ((e = NotImplemented
                /\ K ∈ [Comment; Enum; FieldCardinality; FieldType;
                        Message; Package; Rpc; Service])
               \/ (e = LineNumber /\ TokenMap._getTasks K <> error NotImplemented
                   /\ (RuleMapper.line item < 1
                       \/ Z.of_nat (lineCount document) < RuleMapper.line item)%Z)
               \/ e = NotFound
               \/ (e = UnexpectedEnumValueName /\ K = EnumValueName)
               \/ ((e = UnexpectedFieldType \/ e = UnexpectedGroup) /\ K = FieldName))
     end.
Proof.
  unfold RuleMapper.tokenRange.
  destruct (RuleMapper.tokenKind options) as [K|]; [|by intros [= <-]].
  unfold parseFragmentZ.
  destruct (TokenMap._getTasks K) as [tasks|e'] eqn:Hk.
  - destruct (Z.ltb_spec (RuleMapper.line item - 1) 0) as [Hneg|Hpos].
    + intros [= <-]. split; [done|]. exists LineNumber. split; [done|].
      right; left. split_and!; [done|done|lia].
    + destruct (TokenMap.parseFragment _ _ _ _ _).1 as [r|e] eqn:Hp; [done|].
      intros [= <-]. split; [done|]. exists e. split; [done|].
      apply parseFragment_error_kinds in Hp
        as [H|[(-> & Himpl & Hcount)|[H|H]]]; [auto| |auto|auto 10].
      right; left. split_and!; [done|done|].
      simpl in Hcount. unfold lineCount in *. lia.
  - intros [= <-]. split; [done|]. exists e'. split; [done|]. left.
    destruct K; simplify_eq/=; split; try done;
      repeat (apply elem_of_cons; (by left) || right).
Qed.

Lemma tokenRange_error_causes_witness :
  let item := RuleMapper.mkItem 3 "a.proto" 7 "Message name" "MESSAGE_NAMES" in
  RuleMapper.item (RuleMapper.mkError (inl LineNumber) item) = item
  /\ exists e,
       RuleMapper.code (RuleMapper.mkError (inl LineNumber) item) = inl e
       /\ ((e = NotImplemented
            /\ MessageName ∈ [Comment; Enum; FieldCardinality; FieldType;
                              Message; Package; Rpc; Service])
           \/ (e = LineNumber
               /\ TokenMap._getTasks MessageName <> error NotImplemented
               /\ (RuleMapper.line item < 1
                   \/ Z.of_nat (lineCount ["message a {"; "}"])
                      < RuleMapper.line item)%Z)
           \/ e = NotFound
           \/ (e = UnexpectedEnumValueName /\ MessageName = EnumValueName)
           \/ ((e = UnexpectedFieldType \/ e = UnexpectedGroup)
               /\ MessageName = FieldName)).
Proof.
  cbv zeta.
  apply (tokenRange_error_causes ["message a {"; "}"]
           (RuleMapper.mkItem 3 "a.proto" 7 "Message name" "MESSAGE_NAMES")
           (RuleMapper.mkOptions None (Some MessageName))).
  vm_compute. reflexivity.
Defined.

(** X17: the range [tokenRange] returns.  It lies on a line of the document
    at or after the line of the item, inside the text of that line, and at
    or after the column of the item when that line is the line of the item
    itself; when the kind is searched with a literal word, the document
    holds exactly that word at the range. *)
Theorem tokenRange_location (document : TextDocument)
    (item : RuleMapper.IJsonLintsItem) (options : RuleMapper.IRangeParserOptions)
    (r : Range) :
  RuleMapper.tokenRange document item options = success r ->
  exists K n txt a b,
    RuleMapper.tokenKind options = Some K
    /\ (RuleMapper.line item - 1 <= Z.of_nat n)%Z
    /\ document !! n = Some txt
    /\ r = mkRange (mkPosition n a) (mkPosition n b)
    /\ a <= b <= String.length txt
    /\ (Z.of_nat n = RuleMapper.line item - 1 ->
        RuleMapper.column item - 1 <= Z.of_nat a)%Z
    /\ (forall w,
          kindPattern K (RuleMapper.searchText options) = lit w ->
          getText document r = w).
Proof.
  unfold RuleMapper.tokenRange.
  destruct (RuleMapper.tokenKind options) as [K|]; [|done].
  unfold parseFragmentZ.
  destruct (TokenMap._getTasks K) as [tasks|e'] eqn:Hk; [|done].
  destruct (Z.ltb_spec (RuleMapper.line item - 1) 0) as [Hneg|Hpos]; [done|].
  destruct (TokenMap.parseFragment _ _ _ _ _) as [[r'|e] this'] eqn:Hp; [|done].
  cbn [fst]. intros [= ->].
  pose proof (parseFragment_located (TokenMap.new document) _ _ _ _ _ _ eq_refl Hp)
    as (n & txt & cs & m & sr & i & Hn & Hdoc & _ & _ & _ & Hm & Hli & -> & _).
  change (TokenMap.doc (TokenMap.new document)) with document in Hdoc.
  assert (lineAt document n = Some (mkTextLine n txt)) as Hl
    by (unfold lineAt; by rewrite Hdoc).
  pose proof Hm as (a & b & -> & Ha & Hb & Hb' & _)%matchRanges_matcher.
  exists K, n, txt, a, b. rewrite matchAt_range by lia. simpl in Hb'.
  split_and!; [done|lia|done|done|lia|lia| |].
  - intros Heq. assert (n = Z.to_nat (RuleMapper.line item - 1)) as Hn' by lia.
    specialize (Hli Hn'). lia.
  - intros w Hw. rewrite Hw in Hm. apply matchRanges_lit in Hm.
    rewrite <-(matchAt_range (mkTextLine n txt)) by lia.
    rewrite (getText_matchAt _ (mkTextLine n txt)) by (done || lia). done.
Qed.

Lemma tokenRange_location_witness :
  let document := ["syntax = 1;"; "// message foo"; "message foo {"] in
  let item := RuleMapper.mkItem 1 "a.proto" 2 "Message name" "MESSAGE_NAMES" in
  let K := MessageName in
  exists K n txt a b,
    Some MessageName = Some K
    /\ (RuleMapper.line item - 1 <= Z.of_nat n)%Z
    /\ document !! n = Some txt
    /\ mkRange (mkPosition 2 8) (mkPosition 2 11)
       = mkRange (mkPosition n a) (mkPosition n b)
    /\ a <= b <= String.length txt
    /\ (Z.of_nat n = RuleMapper.line item - 1 ->
        RuleMapper.column item - 1 <= Z.of_nat a)%Z
    /\ (forall w,
          kindPattern K (Some (lit "foo")) = lit w ->
          getText document (mkRange (mkPosition 2 8) (mkPosition 2 11)) = w).
Proof.
  cbv zeta.
  apply (tokenRange_location ["syntax = 1;"; "// message foo"; "message foo {"]
           (RuleMapper.mkItem 1 "a.proto" 2 "Message name" "MESSAGE_NAMES")
           (RuleMapper.mkOptions (Some (lit "foo")) (Some MessageName))).
  vm_compute. reflexivity.
Defined.
